(** * md2project: extraction of files from markdown and their materialization

    A shallow embedding of [md2project.py].  Documents are sequences of
    code points below 256 (Rocq's [ascii]); the character classes [\s] and
    [\w] and [str.strip] follow Python's Unicode tables on that range.

    The definitions come first: the string methods, the regular
    expressions and their matcher, the Extractor, the paths, the file
    system and the Materializer.  The properties follow, by component. *)

From Stdlib Require Import Ascii String List Arith Lia Bool.
From stdpp Require Import gmap strings list sorting.

#[local] Set Warnings "-clear-no-such-hyp".

Abbreviation text := (list ascii).

(** String literals of the development are written as [string]s and read
    as [text]. *)
Definition txt (s : string) : text := list_ascii_of_string s.
Arguments txt s%_string : simpl never.

Definition nl : ascii := "010"%char.
Definition dquote : ascii := "034"%char.

(** ** Python [str] methods used by the program *)
Module Str.

(** [str.isspace] on one character. *)
Definition isspace (a : ascii) : bool :=
  let n := nat_of_ascii a in
  ((9 <=? n) && (n <=? 13)) || ((28 <=? n) && (n <=? 32))
  || (n =? 133) || (n =? 160).

(** [str.isalnum() or '_'], the class [\w]. *)
Definition isword (a : ascii) : bool :=
  let n := nat_of_ascii a in
  ((48 <=? n) && (n <=? 57)) || ((65 <=? n) && (n <=? 90)) || (n =? 95)
  || ((97 <=? n) && (n <=? 122))
  || (n =? 170) || (n =? 178) || (n =? 179) || (n =? 181) || (n =? 185)
  || (n =? 186) || ((188 <=? n) && (n <=? 190))
  || ((192 <=? n) && (n <=? 214)) || ((216 <=? n) && (n <=? 246))
  || ((248 <=? n) && (n <=? 255)).

Fixpoint lstrip (s : text) : text :=
  match s with
  | a :: s' => if isspace a then lstrip s' else s
  | [] => []
  end.

Definition rstrip (s : text) : text := rev (lstrip (rev s)).

(** [s.strip()] *)
Definition strip (s : text) : text := rstrip (lstrip s).

(** [s.startswith(p)] *)
Fixpoint startswith (s p : text) {struct p} : bool :=
  match p with
  | [] => true
  | b :: p' =>
      match s with
      | a :: s' => Ascii.eqb a b && startswith s' p'
      | [] => false
      end
  end.

(** [p in s] *)
Fixpoint contains (p s : text) : bool :=
  startswith s p ||
  match s with
  | _ :: s' => contains p s'
  | [] => false
  end.

(** [s.split(sep)] for a one-character separator: the pieces between
    separators, empty ones included; never the empty list. *)
Fixpoint split (sep : ascii) (s : text) : list text :=
  match s with
  | [] => [[]]
  | a :: s' =>
      if Ascii.eqb a sep then [] :: split sep s'
      else match split sep s' with
           | w :: ws => (a :: w) :: ws
           | [] => [[a]]
           end
  end.

(** [s1 <= s2], the order [sorted] uses: lexicographic on code points. *)
Fixpoint le (s1 s2 : text) : bool :=
  match s1, s2 with
  | [], _ => true
  | _ :: _, [] => false
  | a :: s1', b :: s2' =>
      (nat_of_ascii a <? nat_of_ascii b) || (Ascii.eqb a b && le s1' s2')
  end.

(** [sep.join(ws)] for a one-character separator. *)
Fixpoint join (sep : ascii) (ws : list text) : text :=
  match ws with
  | [] => []
  | [w] => w
  | w :: ws' => w ++ sep :: join sep ws'
  end.

End Str.

(** ** The fragment of Python's [re] that the three patterns use

    A backtracking matcher in continuation-passing style: alternatives are
    tried in priority order and the first complete match is returned, as
    [sre] does.  Only single character sets are repeated in the patterns,
    so repetition is recursion on the input.  The patterns are compiled
    with [re.DOTALL | re.MULTILINE]: the dot matches every character, and
    there is no [^] or [$] for [MULTILINE] to change. *)
Module Re.

Inductive cset : Type :=
| Any                     (* [.] under DOTALL *)
| Lit (a : ascii)         (* a literal character *)
| Not (a : ascii)         (* [[^a]] *)
| Space                   (* [\s] *)
| Word.                   (* [\w] *)

Definition cmatch (cs : cset) (a : ascii) : bool :=
  match cs with
  | Any => true
  | Lit b => Ascii.eqb a b
  | Not b => negb (Ascii.eqb a b)
  | Space => Str.isspace a
  | Word => Str.isword a
  end.

Inductive regex : Type :=
| Eps
| Chr (cs : cset)
| Rep (cs : cset) (min : nat) (greedy : bool)  (* cs*, cs+, cs*? *)
| Opt (r : regex)                              (* (?:r)? *)
| Seq (r1 r2 : regex)
| Alt (r1 r2 : regex)
| Group (i : nat) (r : regex).                 (* capturing group i *)

(** The text of each group that took part in the match. *)
Abbreviation marks := (gmap nat text).

(** What was consumed between the input [s] and its suffix [s']. *)
Definition consumed (s s' : text) : text := take (length s - length s') s.

Notation "x <|> y" := (match x with Some r => Some r | None => y end)
  (at level 60, right associativity, only parsing).

Section Matcher.
Context {R : Type}.

Fixpoint rep_greedy (p : ascii → bool) (min : nat) (k : text → option R)
    (s : text) : option R :=
  let stop := match min with 0 => k s | S _ => None end in
  match s with
  | a :: s' => if p a then rep_greedy p (pred min) k s' <|> stop else stop
  | [] => stop
  end.

Fixpoint rep_lazy (p : ascii → bool) (min : nat) (k : text → option R)
    (s : text) : option R :=
  match min with 0 => k s | S _ => None end <|>
  match s with
  | a :: s' => if p a then rep_lazy p (pred min) k s' else None
  | [] => None
  end.

Fixpoint run (r : regex) (s : text) (c : marks)
    (k : text → marks → option R) : option R :=
  match r with
  | Eps => k s c
  | Chr cs =>
      match s with
      | a :: s' => if cmatch cs a then k s' c else None
      | [] => None
      end
  | Rep cs min true => rep_greedy (cmatch cs) min (λ s', k s' c) s
  | Rep cs min false => rep_lazy (cmatch cs) min (λ s', k s' c) s
  | Opt r1 => run r1 s c k <|> k s c
  | Seq r1 r2 => run r1 s c (λ s1 c1, run r2 s1 c1 k)
  | Alt r1 r2 => run r1 s c k <|> run r2 s c k
  | Group i r1 => run r1 s c (λ s' c', k s' (<[i := consumed s s']> c'))
  end.
End Matcher.

(** Declarative reading of a pattern: [sem r w c c'] when [r] can match
    exactly the word [w], turning the marks [c] into [c'].  It ignores
    priorities; the matcher is sound for it. *)
Fixpoint sem (r : regex) (w : text) (c c' : marks) : Prop :=
  match r with
  | Eps => w = [] ∧ c' = c
  | Chr cs => ∃ a, w = [a] ∧ cmatch cs a = true ∧ c' = c
  | Rep cs min _ => forallb (cmatch cs) w = true ∧ min ≤ length w ∧ c' = c
  | Opt r1 => sem r1 w c c' ∨ (w = [] ∧ c' = c)
  | Seq r1 r2 => ∃ w1 w2 c1, w = w1 ++ w2 ∧ sem r1 w1 c c1 ∧ sem r2 w2 c1 c'
  | Alt r1 r2 => sem r1 w c c' ∨ sem r2 w c c'
  | Group i r1 => ∃ c1, sem r1 w c c1 ∧ c' = <[i := w]> c1
  end.

(** The groups a pattern can set. *)
Fixpoint groups (r : regex) : list nat :=
  match r with
  | Eps | Chr _ | Rep _ _ _ => []
  | Opt r1 => groups r1
  | Seq r1 r2 | Alt r1 r2 => groups r1 ++ groups r2
  | Group i r1 => i :: groups r1
  end.

(** The input either ends or goes on with a character outside [p]: a
    repetition of [p] cannot go further. *)
Definition stops (p : ascii → bool) (s : text) : Prop :=
  match s with
  | [] => True
  | a :: _ => p a = false
  end.

(** A match of [r] starting at the head of [s]: the marks and the rest. *)
Definition match_at (r : regex) (s : text) : option (marks * text) :=
  run r s ∅ (λ s' c, Some (c, s')).

(** [m.group(i)], with [findall]'s empty string for a group that did
    not take part. *)
Definition group (c : marks) (i : nat) : text := default [] (c !! i).

(** [re.findall] for a pattern with three groups: the matches found from
    left to right, each search starting where the previous match ended.
    [skip] is the number of characters still covered by the previous
    match. *)
Fixpoint findall_from (r : regex) (skip : nat) (s : text)
    : list (text * text * text) :=
  let next k := match s with _ :: s' => findall_from r k s' | [] => [] end in
  match skip with
  | S k => next k
  | 0 =>
      match match_at r s with
      | Some (c, rest) =>
          (group c 1, group c 2, group c 3)
            :: next (pred (length s - length rest))
      | None => next 0
      end
  end.

Definition findall (r : regex) (s : text) : list (text * text * text) :=
  findall_from r 0 s.

(** Building blocks. *)
Definition lit (s : string) : regex :=
  foldr (λ a r, Seq (Chr (Lit a)) r) Eps (txt s).
Definition seq (rs : list regex) : regex := foldr Seq Eps rs.
Fixpoint alts (rs : list regex) : regex :=
  match rs with
  | [] => Eps
  | [r] => r
  | r :: rs' => Alt r (alts rs')
  end.

End Re.

(** ** The Extractor: [extract_files_from_markdown] *)
Module Extractor.
Import Re.

(** The closed set of recognized extensions, in the order of the
    alternation. *)
Definition extensions : list string :=
  ["ts"; "tsx"; "js"; "jsx"; "json"; "css"; "html"; "md"; "py"; "go"; "sh";
   "yaml"; "yml"; "toml"; "txt"; "env"; "gitignore"]%string.

Definition ext : regex := Group 2 (alts (lit <$> extensions)).

(** The fenced block shared by the three patterns:
    [```(?:\w+)?\s*\n(.*?)```] *)
Definition fence : regex :=
  seq [lit "```"; Opt (Rep Word 1 true); Rep Space 0 true; Chr (Lit nl);
       Group 3 (Rep Any 0 false); lit "```"].

(** Pattern 1: bold filename followed by code block. *)
Definition pattern1 : regex :=
  seq [lit "**";
       Group 1 (seq [Rep (Not "*") 1 true; lit "."; ext]);
       lit "**"; Rep Space 0 true;
       Opt (seq [lit "["; Rep Any 0 false; lit "]"]);
       Rep Space 0 true; fence].

(** Pattern 2: filename as header followed by code block. *)
Definition pattern2 : regex :=
  seq [lit "##"; Opt (lit "#"); Rep Space 1 true;
       Group 1 (seq [Rep (Not nl) 1 true; lit "."; ext]);
       Rep Space 0 true; Chr (Lit nl); fence].

(** Pattern 3: filename with backticks followed by code block. *)
Definition pattern3 : regex :=
  seq [lit "`";
       Group 1 (seq [Rep (Not "`") 1 true; lit "."; ext]);
       lit "`"; Rep Space 0 true; fence].

Definition indicators : list text :=
  [txt "npm install"; txt "npm create"; txt "cd "; txt "#!/bin/bash"].

Definition shell_prefixes : list text :=
  [txt "#"; txt "npm"; txt "cd"; txt "mkdir"].

(** [any(cmd in content[:100] for cmd in [...])] *)
Definition has_indicator (content : text) : bool :=
  existsb (λ cmd, Str.contains cmd (take 100 content)) indicators.

(** [line.startswith(('#', 'npm', 'cd', 'mkdir'))] *)
Definition shell_like (line : text) : bool :=
  existsb (Str.startswith line) shell_prefixes.

(** [len(lines) > 5 and not all(... for line in lines[:5])] *)
Definition looks_like_file (content : text) : bool :=
  let lines := Str.split nl content in
  (5 <? length lines) && negb (forallb shell_like (take 5 lines)).

(** The body of the inner loop, for one match.  A match is the triple of
    the three groups, so [len(match) > 2] holds and [content] is the
    third. *)
Definition store (files_dict : gmap text text) (mt : text * text * text)
    : gmap text text :=
  let '(g1, _, g3) := mt in
  let file_path := Str.strip g1 in
  let content := Str.strip g3 in
  if has_indicator content then
    if looks_like_file content then <[file_path := content]> files_dict
    else files_dict
  else <[file_path := content]> files_dict.

(** The command-block filter as a predicate on the trimmed body: whether
    [store] writes the entry. *)
Definition keeps (content : text) : bool :=
  if has_indicator content then looks_like_file content else true.

(** The matches of all three patterns, in the order they are processed. *)
Definition all_matches (markdown_content : text) : list (text * text * text) :=
  concat ((λ pattern, findall pattern markdown_content)
            <$> [pattern1; pattern2; pattern3]).

Definition extract_files_from_markdown (markdown_content : text)
    : gmap text text :=
  fold_left
    (λ files_dict pattern,
       fold_left store (findall pattern markdown_content) files_dict)
    [pattern1; pattern2; pattern3] ∅.

(** The shape of the text of group 1: something non-empty, a dot, an
    extension. *)
Definition name_shape (g1 : text) : Prop :=
  ∃ u e, u ≠ [] ∧ e ∈ extensions ∧ g1 = u ++ "."%char :: txt e.

(** A heading line and the fenced block that follows it: two or three
    heading markers, whitespace, the heading text, a newline, the opening
    fence with its language tag, a newline, the body, the closing fence. *)
Definition heading_block (third : bool) (ws heading lang body : text) : text :=
  txt "##" ++ (if third then txt "#" else []) ++ ws ++ heading
    ++ nl :: txt "```" ++ lang ++ nl :: body ++ txt "```".

End Extractor.

(** ** [pathlib.PurePosixPath] *)
Module PurePath.

Definition sep : ascii := "/"%char.

(** The root of a path: none, [/], or the POSIX special case [//]. *)
Inductive anchor : Type := Relative | Root | Root2.

Record path : Type := Path { anchor_of : anchor; parts : list text }.

#[export] Instance anchor_eq_dec : EqDecision anchor.
Proof. solve_decision. Defined.

#[export] Instance path_eq_dec : EqDecision path.
Proof. solve_decision. Defined.

#[export] Instance anchor_countable : Countable anchor :=
  inj_countable'
    (λ a, match a with Relative => 0 | Root => 1 | Root2 => 2 end)
    (λ n, match n with 0 => Relative | 1 => Root | _ => Root2 end)
    (λ a, match a with Relative | Root | Root2 => eq_refl end).

#[export] Instance path_countable : Countable path :=
  inj_countable' (λ p, (anchor_of p, parts p)) (λ x, Path x.1 x.2)
    (λ p, match p with Path _ _ => eq_refl end).

(** [posixpath.splitroot] *)
Definition splitroot (s : text) : anchor * text :=
  if negb (Str.startswith s [sep]) then (Relative, s)
  else if negb (Str.startswith s [sep; sep]) || Str.startswith s [sep; sep; sep]
  then (Root, drop 1 s)
  else (Root2, drop 2 s).

(** [PurePosixPath(s)]: empty and [.] components are dropped. *)
Definition parse (s : text) : path :=
  let '(a, rel) := splitroot s in
  Path a (filter (λ x, x ≠ [] ∧ x ≠ txt ".") (Str.split sep rel)).

(** [p / q] for an already parsed [q]. *)
Definition joinpath (p q : path) : path :=
  match anchor_of q with
  | Relative => Path (anchor_of p) (parts p ++ parts q)
  | _ => q
  end.

(** [p.parent]; a path without parts is its own parent. *)
Definition parent (p : path) : path := Path (anchor_of p) (removelast (parts p)).

(** [str(p)] *)
Definition to_str (p : path) : text :=
  match anchor_of p with
  | Relative => match parts p with [] => txt "." | ps => Str.join sep ps end
  | Root => sep :: Str.join sep (parts p)
  | Root2 => sep :: sep :: Str.join sep (parts p)
  end.

(** [p.relative_to(base)]; [None] for [ValueError]. *)
Definition relative_to (p base : path) : option path :=
  if decide (anchor_of p = anchor_of base ∧ parts base `prefix_of` parts p)
  then Some (Path Relative (drop (length (parts base)) (parts p)))
  else None.

(** The paths [parse] produces. *)
Definition wf (p : path) : Prop :=
  Forall (λ x, x ≠ [] ∧ x ≠ txt "." ∧ sep ∉ x) (parts p).

End PurePath.

(** ** The file system, as the Materializer uses it *)
Module Os.
Import PurePath.

Inductive oserror : Type :=
| IsADirectoryError | FileNotFoundError | PermissionError.

(** The result of [open(p, 'w')] followed by [f.write(content)]. *)
Inductive outcome (fs : Type) : Type :=
| Written (disk : fs)
| Failed (e : oserror) (disk : fs).
Arguments Written {fs} disk.
Arguments Failed {fs} e disk.

Class FileSystem (fs : Type) : Type := {
  (** [p.mkdir(parents=True, exist_ok=True)]; [None] when it raises *)
  mkdir : fs → path → option fs;
  (** [with open(p, 'w') as f: f.write(content)] *)
  write_text : fs → path → text → outcome fs;
}.

(** *** An in-memory file system

    A path names a directory, a file, or nothing; [denied] holds the paths
    the system refuses to create or to open for writing.  The paths
    without parts (the roots and the current directory) are directories.
    Paths are told apart as [pathlib] compares them, component by
    component. *)
Inductive node : Type := Dir | File (content : text).

Record memfs : Type := MemFs { nodes : gmap path node; denied : gset path }.

Definition is_dir (d : memfs) (p : path) : bool :=
  match parts p with
  | [] => true
  | _ => match nodes d !! p with Some Dir => true | _ => false end
  end.

(** [os.mkdir] of one component, with [exist_ok]. *)
Definition mkdir1 (d : memfs) (q : path) : option memfs :=
  if is_dir d q then Some d
  else match nodes d !! q with
       | Some _ => None
       | None =>
           if bool_decide (q ∈ denied d) then None
           else Some (MemFs (<[q := Dir]> (nodes d)) (denied d))
       end.

Fixpoint mkdir_chain (d : memfs) (qs : list path) : option memfs :=
  match qs with
  | [] => Some d
  | q :: qs' => d' ← mkdir1 d q; mkdir_chain d' qs'
  end.

(** The path and its ancestors, outermost first. *)
Definition ancestors (p : path) : list path :=
  (λ n, Path (anchor_of p) (take n (parts p))) <$> seq 1 (length (parts p)).

Definition mem_mkdir (d : memfs) (p : path) : option memfs :=
  mkdir_chain d (ancestors p).

Definition mem_write (d : memfs) (p : path) (content : text) : outcome memfs :=
  if is_dir d p then Failed IsADirectoryError d
  else if negb (is_dir d (parent p)) then Failed FileNotFoundError d
  else if bool_decide (p ∈ denied d) then Failed PermissionError d
  else Written (MemFs (<[p := File content]> (nodes d)) (denied d)).

#[export] Instance memfs_fs : FileSystem memfs :=
  {| mkdir := mem_mkdir; write_text := mem_write |}.

Definition empty_disk : memfs := MemFs ∅ ∅.

(** What the operations never undo: directories stay directories, files
    stay files, and a missing path that is denied stays missing. *)
Definition grows (d1 d2 : memfs) : Prop :=
  denied d1 = denied d2
  ∧ ∀ q, match nodes d1 !! q with
         | Some Dir => nodes d2 !! q = Some Dir
         | Some (File _) => ∃ c, nodes d2 !! q = Some (File c)
         | None => q ∈ denied d1 → nodes d2 !! q = None
         end.

(** Running again on the disk a run has left: [final] is the disk at the
    end of the first run, [d1] a disk during the first run and [d2] the
    disk at the same point of the second run.  [d2] is [final], except
    that the files in [written], rewritten so far, hold what they held in
    [d1]. *)
Definition replays (final : memfs) (written : gset path) (d1 d2 : memfs) : Prop :=
  denied d2 = denied final
  ∧ (∀ q, nodes d2 !! q
          = if decide (q ∈ written) then nodes d1 !! q else nodes final !! q)
  ∧ (∀ q, q ∈ written → ∃ c, nodes d1 !! q = Some (File c)).

End Os.

(** ** The Materializer: [create_project_structure] *)
Module Materializer.
Import PurePath Os.

(** What the function prints. *)
Inductive line : Type :=
| CreatedDirectory (rel : text)
| CreatedFile (file_path : text)
| ErrorCreating (file_path : text) (e : oserror).

Record state (fs : Type) : Type := State {
  disk : fs;
  dirs_created : gset text;
  files_created : list text;
  stdout : list line;
}.
Arguments State {fs} _ _ _ _.
Arguments disk {fs} _.
Arguments dirs_created {fs} _.
Arguments files_created {fs} _.
Arguments stdout {fs} _.

Section Run.
Context {fs : Type} `{!FileSystem fs}.

(** The directory part of the loop body; [None] when [mkdir] or
    [relative_to] raises. *)
Definition make_parent (base_path : path) (verbose : bool) (parent_dir : path)
    (st : state fs) : option (state fs) :=
  if decide (parent_dir ≠ base_path ∧ to_str parent_dir ∉ dirs_created st) then
    disk' ← mkdir (disk st) parent_dir;
    let dirs := {[to_str parent_dir]} ∪ dirs_created st in
    if verbose then
      rel ← relative_to parent_dir base_path;
      Some (State disk' dirs (files_created st)
              (stdout st ++ [CreatedDirectory (to_str rel)]))
    else Some (State disk' dirs (files_created st) (stdout st))
  else Some st.

(** The [try] block and its handler. *)
Definition write_entry (verbose : bool) (full_path : path)
    (file_path content : text) (st : state fs) : state fs :=
  match write_text (disk st) full_path content with
  | Written disk' =>
      State disk' (dirs_created st) (files_created st ++ [file_path])
        (stdout st ++ if verbose then [CreatedFile file_path] else [])
  | Failed e disk' =>
      State disk' (dirs_created st) (files_created st)
        (stdout st ++ [ErrorCreating file_path e])
  end.

(** The loop body. *)
Definition process_entry (base_path : path) (verbose : bool) (st : state fs)
    (entry : text * text) : option (state fs) :=
  let '(file_path, content) := entry in
  let full_path := joinpath base_path (parse file_path) in
  let parent_dir := parent full_path in
  st' ← make_parent base_path verbose parent_dir st;
  Some (write_entry verbose full_path file_path content st').

Fixpoint process_entries (base_path : path) (verbose : bool)
    (entries : list (text * text)) (st : state fs) : option (state fs) :=
  match entries with
  | [] => Some st
  | entry :: entries' =>
      st' ← process_entry base_path verbose st entry;
      process_entries base_path verbose entries' st'
  end.

(** [sorted(files_dict.items())]: the keys are distinct, so the pairs are
    ordered by key. *)
Definition sorted_items (files_dict : gmap text text) : list (text * text) :=
  merge_sort (λ x y, Str.le x.1 y.1) (map_to_list files_dict).

(** The counts returned, with the final state (disk and output). *)
Definition create_project_structure (files_dict : gmap text text)
    (base_dir : text) (verbose : bool) (disk0 : fs)
    : option (nat * nat * state fs) :=
  let base_path := parse base_dir in
  disk1 ← mkdir disk0 base_path;
  st ← process_entries base_path verbose (sorted_items files_dict)
         (State disk1 ∅ [] []);
  Some (size (dirs_created st), length (files_created st), st).

End Run.

(** The parent directory the loop computes for an entry. *)
Definition parent_of (base_path : path) (file_path : text) : path :=
  parent (joinpath base_path (parse file_path)).

(** The lines that report a created directory / a failed write. *)
Definition dir_log (out : list line) : list text :=
  omap (λ l, match l with CreatedDirectory rel => Some rel | _ => None end) out.

Definition error_log (out : list line) : list (text * oserror) :=
  omap (λ l, match l with ErrorCreating p e => Some (p, e) | _ => None end) out.

(** What one entry adds to [dirs_created]. *)
Definition parent_record (base_path : path) (file_path : text) : gset text :=
  if decide (parent_of base_path file_path ≠ base_path)
  then {[to_str (parent_of base_path file_path)]} else ∅.

(** [ds] are the directories created so far, in order. *)
Definition log_inv {fs : Type} (base : path) (ds : list path) (st : state fs)
    : Prop :=
  Forall wf ds ∧ NoDup ds
  ∧ dirs_created st = list_to_set (to_str <$> ds)
  ∧ Forall2 (λ d r, ∃ rel, relative_to d base = Some rel ∧ r = to_str rel)
      ds (dir_log (stdout st)).

(** The state of a run, on another disk. *)
Definition set_disk (d : memfs) (st : state memfs) : state memfs :=
  State d (dirs_created st) (files_created st) (stdout st).

(** The parent of every entry is in place when its file is opened. *)
Definition loop_inv (base : path) (st : state memfs) : Prop :=
  is_dir (disk st) base = true
  ∧ ∀ d, wf d → to_str d ∈ dirs_created st → is_dir (disk st) d = true.

End Materializer.

(** ** Example documents and mappings *)
Module Examples.
Import PurePath Os Materializer.

(** An emphasized [a.sh] with the body [echo hi], then a heading [a.sh]
    with the body [cd x]. *)
Definition doc_overwrite : text :=
  txt "**a.sh**" ++ nl :: txt "```" ++ nl :: txt "echo hi" ++ nl :: txt "```"
  ++ nl :: txt "## a.sh" ++ nl :: txt "```" ++ nl :: txt "cd x" ++ nl
  :: txt "```" ++ [nl].

(** A hundred [a]s and then [npm install], on one line. *)
Definition late_npm_install : text :=
  repeat "a"%char 100 ++ txt "npm install".

(** [print("hi")] *)
Definition print_hi : text :=
  txt "print(" ++ dquote :: txt "hi" ++ dquote :: txt ")".

(** The mapping [{"a/b/c.txt": "x", "a/b/d.txt": "y"}], as a dictionary
    and as its entries in both orders. *)
Definition two_files : gmap text text :=
  {[ txt "a/b/c.txt" := txt "x"; txt "a/b/d.txt" := txt "y" ]}.
Definition two_files_forward : list (text * text) :=
  [(txt "a/b/c.txt", txt "x"); (txt "a/b/d.txt", txt "y")].
Definition two_files_backward : list (text * text) :=
  [(txt "a/b/d.txt", txt "y"); (txt "a/b/c.txt", txt "x")].

(** A disk that holds the directory [out] only. *)
Definition out : path := Path Relative [txt "out"].
Definition out_disk : memfs := MemFs {[ out := Dir ]} ∅.

(** The same disk, where [out/a.txt] cannot be opened for writing. *)
Definition locked_disk : memfs :=
  MemFs {[ out := Dir ]} {[ Path Relative [txt "out"; txt "a.txt"] ]}.

(** The states the loop ends in for the two orders, on [out_disk]. *)
Definition forward_run : state memfs :=
  default (State out_disk ∅ [] [])
    (process_entries out true two_files_forward (State out_disk ∅ [] [])).
Definition backward_run : state memfs :=
  default (State out_disk ∅ [] [])
    (process_entries out true two_files_backward (State out_disk ∅ [] [])).

(** The mapping [{"a/b/c.txt": "x"}] and its run into the fresh root
    [fresh], from an empty disk. *)
Definition single_file : gmap text text := {[ txt "a/b/c.txt" := txt "x" ]}.
Definition fresh : path := Path Relative [txt "fresh"].
Definition fresh_run : state memfs :=
  default (State empty_disk ∅ [] [])
    (snd <$> create_project_structure single_file (txt "fresh") true empty_disk).

(** The first run of the Materializer on [two_files], from an empty
    disk. *)
Definition first_run : state memfs :=
  default (State empty_disk ∅ [] [])
    (snd <$> create_project_structure two_files (txt "out") true empty_disk).

End Examples.

(** ** Documents laid out for the strategies *)
Module Layout.

(** The text after the first fence of [s], if there is one. *)
Fixpoint after_fence (s : text) : option text :=
  if Str.startswith s (txt "```") then Some (drop 3 s)
  else match s with
       | _ :: s' => after_fence s'
       | [] => None
       end.

(** An emphasized file name, white space, an optional bracketed
    annotation with the white space after it, and the fenced block:
    the opening fence with its language tag, a newline, the body, the
    closing fence. *)
Definition bold_block (name ws : text) (annotation : option (text * text))
    (lang body : text) : text :=
  txt "**" ++ name ++ txt "**" ++ ws
    ++ match annotation with
       | Some (note, ws') => txt "[" ++ note ++ txt "]" ++ ws'
       | None => []
       end
    ++ txt "```" ++ lang ++ nl :: body ++ txt "```".

(** A file name in an inline code span, white space and the fenced
    block. *)
Definition span_block (name ws lang body : text) : text :=
  txt "`" ++ name ++ txt "`" ++ ws
    ++ txt "```" ++ lang ++ nl :: body ++ txt "```".

End Layout.

(** ** Reading the output of a run *)
Module Report.
Import Materializer.

(** The paths of the entries the loop has tried to write, as a verbose
    run prints them: one line for each, written or failed. *)
Definition attempts (out : list line) : list text :=
  omap (λ l, match l with
             | CreatedFile p | ErrorCreating p _ => Some p
             | CreatedDirectory _ => None
             end) out.

Definition is_error (l : line) : bool :=
  match l with ErrorCreating _ _ => true | _ => false end.

(** A state of a verbose run as the quiet run has it: the error lines
    only. *)
Definition errors_only {fs : Type} (st : state fs) : state fs :=
  State (disk st) (dirs_created st) (files_created st)
    (List.filter is_error (stdout st)).

End Report.

(** ** Disks that a run can write to *)
Module Tidy.
Import PurePath Os Materializer.

(** A disk without denied paths, where every directory is one of [dirs]
    and every file one of [files]. *)
Definition tidy (dirs files : path → Prop) (d : memfs) : Prop :=
  denied d = ∅
  ∧ ∀ q n, nodes d !! q = Some n →
      match n with Dir => dirs q | File _ => files q end.

(** The directories a run into [base] may leave on [disk0]: those of
    [disk0], the root and the parents of the entries, with their
    ancestors.  The files it may leave: those of [disk0] and those of the
    entries. *)
Definition run_dirs (disk0 : memfs) (base : path) (keys : list text)
    (q : path) : Prop :=
  nodes disk0 !! q = Some Dir ∨ q ∈ ancestors base
  ∨ ∃ k, k ∈ keys ∧ q ∈ ancestors (parent_of base k).
Definition run_files (disk0 : memfs) (base : path) (keys : list text)
    (q : path) : Prop :=
  (∃ content, nodes disk0 !! q = Some (File content))
  ∨ ∃ k, k ∈ keys ∧ q = joinpath base (parse k).

End Tidy.

(** ** The driver: [analyze_markdown] and [main] *)
Module Driver.
Import Extractor PurePath Os Materializer Report.

(** [with open(md_file, 'r') as f: f.read()]; the error stands for
    whatever exception the handler catches. *)
Class Reader (fs : Type) : Type := {
  read_text : fs → text → text + oserror;
}.

#[export] Instance memfs_reader : Reader memfs := {|
  read_text d md_file :=
    let p := parse md_file in
    match parts p, nodes d !! p with
    | [], _ | _, Some Dir => inr IsADirectoryError
    | _, Some (File content) => inl content
    | _, None => inr FileNotFoundError
    end
|}.

(** What the driver prints.  [Banner] stands for the three banner lines,
    [Progress] for a line of [create_project_structure]; the summary
    carries the output directory as given, which the program prints in
    absolute form.  Empty lines are left out. *)
Inductive message : Type :=
| Banner
| ReadOk (md_file : text) (characters : nat)
| ReadError (md_file : text) (e : oserror)
| NoFilesFound
| AnalysisComplete (found : nat)
| FilesToBeCreated (file_paths : list text)
| DryRun
| CreatingIn (output : text)
| Progress (l : line)
| Summary (dirs_count files_count : nat) (location : text).

(** The parsed command line. *)
Record args : Type := Args {
  markdown_files : list text;
  output : text;
  dry_run : bool;
  quiet : bool;
}.

Section Run.
Context {fs : Type} `{!FileSystem fs, !Reader fs}.

(** The body of the loop of [analyze_markdown], on the combined content
    and the output so far. *)
Definition read_file (disk0 : fs) (acc : text * list message) (md_file : text)
    : text * list message :=
  let '(combined_content, out) := acc in
  match read_text disk0 md_file with
  | inl content =>
      (combined_content ++ nl :: nl :: content,
       out ++ [ReadOk md_file (length content)])
  | inr e => (combined_content, out ++ [ReadError md_file e])
  end.

(** The mapping returned, with the lines printed. *)
Definition analyze_markdown (disk0 : fs) (markdown_files : list text)
    : gmap text text * list message :=
  let '(combined_content, out) :=
    fold_left (read_file disk0) markdown_files ([], []) in
  (extract_files_from_markdown combined_content, out).

(** The exit code, the lines printed and the disk left; [None] when
    [create_project_structure] raises. *)
Definition main (a : args) (disk0 : fs) : option (nat * list message * fs) :=
  let verbose := negb (quiet a) in
  let banner := if verbose then [Banner] else [] in
  let '(files_dict, read_log) := analyze_markdown disk0 (markdown_files a) in
  if decide (files_dict = ∅) then
    Some (1, banner ++ read_log ++ [NoFilesFound], disk0)
  else
    let listing :=
      if verbose
      then [FilesToBeCreated
              (merge_sort (λ k1 k2 : text, Str.le k1 k2)
                 (map_to_list files_dict).*1)]
      else [] in
    let analysis :=
      banner ++ read_log ++ AnalysisComplete (size files_dict) :: listing in
    if dry_run a then Some (0, analysis ++ [DryRun], disk0)
    else
      '(dirs_count, files_count, st) ←
        create_project_structure files_dict (output a) verbose disk0;
      Some (0,
            analysis ++ CreatingIn (output a) :: (Progress <$> stdout st)
              ++ [Summary dirs_count files_count (output a)],
            disk st).

End Run.

(** The contents of the files that can be read, in order. *)
Definition readable {fs : Type} `{!Reader fs} (disk0 : fs)
    (markdown_files : list text) : list text :=
  omap (λ md_file, match read_text disk0 md_file with
                   | inl content => Some content
                   | inr _ => None
                   end) markdown_files.

(** The lines of [create_project_structure] among those of the driver. *)
Definition progress (out : list message) : list line :=
  omap (λ m, match m with Progress l => Some l | _ => None end) out.

(** The lines of the driver that [-q] lets through. *)
Definition loud (m : message) : bool :=
  match m with
  | Banner | FilesToBeCreated _ => false
  | Progress l => is_error l
  | _ => true
  end.

End Driver.

(** ** More example documents, mappings and disks *)
Module MoreExamples.
Import PurePath Os Materializer Driver Examples.

(** An emphasized [app.py] and its fenced block; the same document cut
    before the closing fence. *)
Definition readme : text :=
  txt "**app.py**" ++ nl :: txt "```python" ++ nl :: print_hi ++ nl
    :: txt "```" ++ [nl].
Definition unterminated : text :=
  txt "**app.py**" ++ nl :: txt "```python" ++ nl :: print_hi ++ [nl].

(** The mapping [{"a.txt": "x", "b/c.txt": "y"}] and its verbose run into
    [out] on the disk where [out/a.txt] cannot be written. *)
Definition mixed : gmap text text :=
  {[ txt "a.txt" := txt "x"; txt "b/c.txt" := txt "y" ]}.
Definition locked_run : state memfs :=
  default (State locked_disk ∅ [] [])
    (snd <$> create_project_structure mixed (txt "out") true locked_disk).

(** A disk where [out] holds the file [keep.txt], and the run of
    [single_file] into [out] on it. *)
Definition keep : path := Path Relative [txt "out"; txt "keep.txt"].
Definition used_disk : memfs :=
  MemFs {[ out := Dir; keep := File (txt "old") ]} ∅.
Definition used_run : state memfs :=
  default (State used_disk ∅ [] [])
    (snd <$> create_project_structure single_file (txt "out") true used_disk).

(** The quiet run of [single_file] into [fresh]. *)
Definition fresh_quiet_run : state memfs :=
  default (State empty_disk ∅ [] [])
    (snd <$> create_project_structure single_file (txt "fresh") false empty_disk).

(** A disk with a document without fenced block. *)
Definition plain_disk : memfs :=
  MemFs {[ Path Relative [txt "notes.md"] := File (txt "## notes.md") ]} ∅.

(** A disk that holds the document [readme] as [docs.md]. *)
Definition docs_disk : memfs :=
  MemFs {[ Path Relative [txt "docs.md"] := File readme ]} ∅.
Definition docs_args (dry_run quiet : bool) : args :=
  Args [txt "missing.md"; txt "docs.md"] (txt "out") dry_run quiet.

(** What [main] returns for [docs.md], without options. *)
Definition docs_run : nat * list message * memfs :=
  default (1, [], docs_disk) (main (docs_args false false) docs_disk).

End MoreExamples.

(** * Properties of the string methods *)
Module StrFacts.
Import Str.

Lemma lstrip_length (s : text) : length (lstrip s) ≤ length s.
Proof.
  induction s as [|a s IH]; simpl; [done|].
  destruct (isspace a); simpl; lia.
Qed.

Lemma lstrip_fixed a (s : text) : lstrip (a :: s) = a :: s → isspace a = false.
Proof.
  simpl. destruct (isspace a); [|done]. intros H.
  pose proof (lstrip_length s) as Hl. rewrite H in Hl. simpl in Hl. lia.
Qed.

Lemma lstrip_nonspace a (s : text) : isspace a = false → lstrip (a :: s) = a :: s.
Proof. simpl. by intros ->. Qed.

Lemma lstrip_app (u v : text) :
  lstrip v = v → lstrip (u ++ v) = lstrip u ++ v.
Proof.
  intros Hv. induction u as [|a u IH]; simpl; [done|].
  by destruct (isspace a).
Qed.

Lemma lstrip_spaces (u v : text) :
  forallb isspace u = true → lstrip (u ++ v) = lstrip v.
Proof.
  induction u as [|a u IH]; simpl; [done|].
  intros [-> Hu]%andb_true_iff. auto.
Qed.

Lemma rstrip_app (u v : text) :
  v ≠ [] → rstrip v = v → rstrip (u ++ v) = u ++ v.
Proof.
  unfold rstrip. intros Hne Hv.
  assert (lstrip (rev v) = rev v) as Hl.
  { rewrite <- Hv at 2. by rewrite rev_involutive. }
  rewrite rev_app_distr. destruct (rev v) as [|b w] eqn:Hrev.
  { simpl in Hv. by subst v. }
  apply lstrip_fixed in Hl. cbn [app]. rewrite lstrip_nonspace by done.
  change (b :: w ++ rev u) with ((b :: w) ++ rev u).
  by rewrite <- Hrev, <- rev_app_distr, rev_involutive.
Qed.

Lemma rstrip_spaces (u v : text) :
  forallb isspace v = true → rstrip (u ++ v) = rstrip u.
Proof.
  unfold rstrip. intros Hv. rewrite rev_app_distr, lstrip_spaces; [done|].
  rewrite forallb_forall in *. intros x Hx. apply Hv. by apply in_rev.
Qed.

(** A word with no space at either end survives [strip], whatever
    precedes it. *)
Lemma strip_app_solid (u v : text) :
  v ≠ [] → lstrip v = v → rstrip v = v → strip (u ++ v) = lstrip u ++ v.
Proof.
  intros Hne Hl Hr. unfold strip. rewrite lstrip_app by done.
  by apply rstrip_app.
Qed.

Lemma space_not_word a : isspace a = true → isword a = false.
Proof. destruct a as [[] [] [] [] [] [] [] []]; by vm_compute. Qed.

Lemma word_not_space a : isword a = true → isspace a = false.
Proof. destruct a as [[] [] [] [] [] [] [] []]; by vm_compute. Qed.

Lemma contains_app_r (p u s : text) :
  contains p (u ++ s) = false → contains p s = false.
Proof.
  induction u as [|a u IH]; [done|]. cbn [app contains].
  intros [_ H]%orb_false_iff. auto.
Qed.

Lemma contains_false_startswith (p s : text) :
  contains p s = false → startswith s p = false.
Proof. destruct s; simpl; by intros [? _]%orb_false_iff. Qed.

Lemma startswith_app (p s : text) : startswith (p ++ s) p = true.
Proof. induction p as [|a p IH]; simpl; [done|]. by rewrite Ascii.eqb_refl. Qed.

Lemma spaces_split (s : text) :
  ∃ w r, s = w ++ r ∧ forallb isspace w = true
         ∧ match r with [] => True | a :: _ => isspace a = false end
         ∧ lstrip s = r.
Proof.
  induction s as [|a s (w & r & -> & Hw & Hr & Hl)].
  - by exists [], [].
  - destruct (isspace a) eqn:Ha.
    + exists (a :: w), r. simpl. by rewrite Ha, Hw.
    + exists [], (a :: w ++ r). simpl. by rewrite Ha.
Qed.

End StrFacts.

(** * Properties of the matcher *)
Module ReFacts.
Import Re.

Lemma consumed_app (w s' : text) : consumed (w ++ s') s' = w.
Proof.
  unfold consumed. rewrite length_app.
  replace (length w + length s' - length s') with (length w) by lia.
  by rewrite take_app_length.
Qed.

Section Soundness.
Context {R : Type}.
Implicit Types (k : text → option R) (x : R).

Lemma rep_greedy_sound p min k s x :
  rep_greedy p min k s = Some x →
  ∃ w s', s = w ++ s' ∧ forallb p w = true ∧ min ≤ length w ∧ k s' = Some x.
Proof.
  revert min. induction s as [|a s IH]; intros min; simpl.
  - destruct min; [|done]. intros Hk. exists [], []. by repeat split.
  - assert ((match min with 0 => k (a :: s) | S _ => None end) = Some x →
            ∃ w s', a :: s = w ++ s' ∧ forallb p w = true
                    ∧ min ≤ length w ∧ k s' = Some x) as Hstop.
    { destruct min; [|done]. intros Hk. exists [], (a :: s). by repeat split. }
    destruct (p a) eqn:Hp; [|done].
    destruct (rep_greedy p (pred min) k s) as [y|] eqn:Hrec; [|done].
    intros [= ->]. destruct (IH _ Hrec) as (w & s' & -> & Hw & Hmin & Hk).
    exists (a :: w), s'. simpl. rewrite Hp, Hw. repeat split; [lia|done].
Qed.

Lemma rep_lazy_sound p min k s x :
  rep_lazy p min k s = Some x →
  ∃ w s', s = w ++ s' ∧ forallb p w = true ∧ min ≤ length w ∧ k s' = Some x.
Proof.
  revert min. induction s as [|a s IH]; intros min.
  - simpl. destruct min; [|done]. destruct (k []) eqn:Hk; [|done].
    intros [= ->]. exists [], []. by repeat split.
  - cbn [rep_lazy].
    destruct (match min with 0 => k (a :: s) | S _ => None end) as [y|] eqn:Hs.
    { intros [= ->]. destruct min; [|done].
      exists [], (a :: s). by repeat split. }
    destruct (p a) eqn:Hp; [|done]. intros Hrec.
    destruct (IH _ Hrec) as (w & s' & -> & Hw & Hmin & Hk).
    exists (a :: w), s'. simpl. rewrite Hp, Hw. repeat split; [lia|done].
Qed.

Lemma run_sound r s c (k : text → marks → option R) x :
  run r s c k = Some x →
  ∃ w s' c', s = w ++ s' ∧ sem r w c c' ∧ k s' c' = Some x.
Proof.
  revert s c k. induction r as [|cs|cs min greedy|r IH|r1 IH1 r2 IH2
    |r1 IH1 r2 IH2|i r IH]; intros s c k; simpl.
  - intros Hk. by exists [], s, c.
  - destruct s as [|a s]; [done|]. destruct (cmatch cs a) eqn:Ha; [|done].
    intros Hk. exists [a], s, c. eauto 10.
  - destruct greedy; intros H;
      [apply rep_greedy_sound in H|apply rep_lazy_sound in H];
      destruct H as (w & s' & -> & Hw & Hmin & Hk); exists w, s', c; eauto.
  - destruct (run r s c k) as [y|] eqn:Hr.
    + intros [= ->]. destruct (IH _ _ _ Hr) as (w & s' & c' & -> & Hs & Hk).
      exists w, s', c'. eauto.
    + intros Hk. exists [], s, c. eauto.
  - intros H. destruct (IH1 _ _ _ H) as (w1 & s1 & c1 & -> & Hs1 & H2).
    destruct (IH2 _ _ _ H2) as (w2 & s2 & c2 & -> & Hs2 & Hk).
    exists (w1 ++ w2), s2, c2. rewrite <- app_assoc. eauto 10.
  - destruct (run r1 s c k) as [y|] eqn:Hr.
    + intros [= ->]. destruct (IH1 _ _ _ Hr) as (w & s' & c' & -> & Hs & Hk).
      exists w, s', c'. eauto.
    + intros H. destruct (IH2 _ _ _ H) as (w & s' & c' & -> & Hs & Hk).
      exists w, s', c'. eauto.
  - intros H. destruct (IH _ _ _ H) as (w & s' & c' & -> & Hs & Hk).
    rewrite consumed_app in Hk. exists w, s', (<[i:=w]> c'). eauto.
Qed.

End Soundness.

(** *** What the matcher finds first *)

Section Priority.
Context {R : Type}.
Implicit Types (k : text → option R) (x : R).

Lemma rep_greedy_stops p k s : stops p s → rep_greedy p 0 k s = k s.
Proof. destruct s as [|a s]; simpl; [done|]. by intros ->. Qed.

Lemma rep_greedy_none p min k w s :
  forallb p w = true → stops p s →
  (∀ u v, w = u ++ v → k (v ++ s) = None) →
  rep_greedy p min k (w ++ s) = None.
Proof.
  intros Hw Hs. revert min. induction w as [|a w IH]; intros min Hk.
  - specialize (Hk [] [] eq_refl). simpl in *.
    destruct min; [by rewrite rep_greedy_stops|].
    destruct s as [|b s]; simpl; [done|]. simpl in Hs. by rewrite Hs.
  - simpl in Hw. apply andb_true_iff in Hw as [Ha Hw]. simpl. rewrite Ha.
    rewrite IH; [|done|].
    + destruct min; [|done]. apply (Hk [] (a :: w) eq_refl).
    + intros u v ->. apply (Hk (a :: u) v eq_refl).
Qed.

(** Greedy repetition takes everything it can when the rest then
    matches. *)
Lemma rep_greedy_all p min k w s x :
  forallb p w = true → stops p s → min ≤ length w →
  k s = Some x → rep_greedy p min k (w ++ s) = Some x.
Proof.
  intros Hw Hs. revert min. induction w as [|a w IH]; intros min Hmin Hk.
  - simpl in *. replace min with 0 by lia. by rewrite rep_greedy_stops.
  - simpl in Hw. apply andb_true_iff in Hw as [Ha Hw]. simpl. rewrite Ha.
    rewrite IH; [done|done| |done]. simpl in Hmin. lia.
Qed.

(** Greedy repetition gives back [w2] when the rest matches there and at
    no later position. *)
Lemma rep_greedy_back p min k w1 w2 s x :
  forallb p (w1 ++ w2) = true → stops p s → min ≤ length w1 →
  (∀ u v, w2 = u ++ v → u ≠ [] → k (v ++ s) = None) →
  k (w2 ++ s) = Some x →
  rep_greedy p min k (w1 ++ w2 ++ s) = Some x.
Proof.
  rewrite forallb_app. intros [Hw1 Hw2]%andb_true_iff Hs.
  revert min. induction w1 as [|a w1 IH]; intros min Hmin Hnone Hk.
  - simpl in *. replace min with 0 by lia.
    destruct w2 as [|b w2]; [by rewrite rep_greedy_stops|].
    simpl in Hw2. apply andb_true_iff in Hw2 as [Hb Hw2]. simpl. rewrite Hb.
    rewrite rep_greedy_none; [done|done|done|].
    intros u v ->. by apply (Hnone (b :: u) v).
  - simpl in Hw1. apply andb_true_iff in Hw1 as [Ha Hw1]. simpl. rewrite Ha.
    rewrite IH; [done|done| |done|done]. simpl in Hmin. lia.
Qed.

(** Lazy repetition stops at the first position where the rest matches. *)
Lemma rep_lazy_first p k w s x :
  forallb p w = true →
  (∀ u v, w = u ++ v → v ≠ [] → k (v ++ s) = None) →
  k s = Some x → rep_lazy p 0 k (w ++ s) = Some x.
Proof.
  intros Hw Hnone Hk. induction w as [|a w IH].
  - simpl. destruct s; simpl; by rewrite Hk.
  - simpl in Hw. apply andb_true_iff in Hw as [Ha Hw]. cbn [app rep_lazy].
    pose proof (Hnone [] (a :: w) eq_refl ltac:(done)) as H0.
    simpl in H0. rewrite H0, Ha.
    apply IH; [done|]. intros u v ->. apply (Hnone (a :: u) v eq_refl).
Qed.

Lemma run_lit str s c (k : text → marks → option R) :
  run (lit str) s c k =
  if Str.startswith s (txt str) then k (drop (length (txt str)) s) c else None.
Proof.
  unfold lit. generalize (txt str) as l. intros l. revert s.
  induction l as [|a l IH]; intros s; simpl; [done|].
  destruct s as [|b s]; [done|]. simpl.
  destruct (Ascii.eqb b a); simpl; [apply IH|done].
Qed.

Lemma run_seq_cons r rs s c (k : text → marks → option R) :
  run (seq (r :: rs)) s c k = run r s c (λ s1 c1, run (seq rs) s1 c1 k).
Proof. reflexivity. Qed.

Lemma run_seq_nil s c (k : text → marks → option R) : run (seq []) s c k = k s c.
Proof. reflexivity. Qed.

End Priority.

Lemma match_at_sound r s c rest :
  match_at r s = Some (c, rest) → ∃ w, s = w ++ rest ∧ sem r w ∅ c.
Proof.
  intros H. apply run_sound in H as (w & s' & c' & -> & Hs & [= -> ->]).
  eauto.
Qed.

(** A pattern only touches the marks of its own groups. *)
Lemma sem_frame r w c c' i :
  sem r w c c' → i ∉ groups r → c' !! i = c !! i.
Proof.
  revert w c c'. induction r as [|cs|cs min greedy|r IH|r1 IH1 r2 IH2
    |r1 IH1 r2 IH2|j r IH]; intros w c c'; simpl.
  - by intros [_ ->].
  - by intros (a & _ & _ & ->).
  - by intros (_ & _ & ->).
  - intros [H|[_ ->]] Hi; [eauto|done].
  - intros (w1 & w2 & c1 & _ & H1 & H2) Hi.
    rewrite (IH2 _ _ _ H2), (IH1 _ _ _ H1); [done|..];
      intros ?; apply Hi, elem_of_app; eauto.
  - intros [H|H] Hi; [eapply IH1|eapply IH2]; eauto;
      intros ?; apply Hi, elem_of_app; eauto.
  - intros (c1 & H & ->) Hi. apply not_elem_of_cons in Hi as [Hne Hi].
    rewrite lookup_insert_ne by done. eauto.
Qed.

Lemma sem_seq_cons r rs w c c' :
  sem (seq (r :: rs)) w c c' ↔
  ∃ w1 w2 c1, w = w1 ++ w2 ∧ sem r w1 c c1 ∧ sem (seq rs) w2 c1 c'.
Proof. reflexivity. Qed.

Lemma sem_lit str w c c' : sem (lit str) w c c' → w = txt str ∧ c' = c.
Proof.
  unfold lit. generalize (txt str) as l. intros l. revert w c.
  induction l as [|a l IH]; intros w c; simpl; [done|].
  intros (w1 & w2 & c1 & -> & (b & -> & Hb & ->) & H).
  apply IH in H as [-> ->]. apply Ascii.eqb_eq in Hb as ->. done.
Qed.

Lemma sem_alts_lit (strs : list string) w c c' :
  sem (alts (lit <$> strs)) w c c' → strs ≠ [] →
  ∃ e, e ∈ strs ∧ w = txt e ∧ c' = c.
Proof.
  induction strs as [|e strs IH]; [done|]. intros H _.
  destruct strs as [|e' strs].
  - apply sem_lit in H as [-> ->]. exists e. split; [apply list_elem_of_here|done].
  - change (sem (Alt (lit e) (alts (lit <$> e' :: strs))) w c c') in H.
    destruct H as [H|H].
    + apply sem_lit in H as [-> ->]. exists e.
      split; [apply list_elem_of_here|done].
    + destruct (IH H) as (e0 & He0 & -> & ->); [done|].
      exists e0. split; [by apply list_elem_of_further|done].
Qed.

(** Every match reported by [findall] comes from a match at some
    position. *)
Lemma findall_from_Forall r (P : text * text * text → Prop) skip s :
  (∀ s0 c rest, match_at r s0 = Some (c, rest) →
     P (group c 1, group c 2, group c 3)) →
  Forall P (findall_from r skip s).
Proof.
  intros HP. revert skip. induction s as [|a s IH]; intros skip.
  - destruct skip; simpl; [|done].
    destruct (match_at r []) as [[c rest]|] eqn:Hm; [|done].
    constructor; [eauto|done].
  - destruct skip; simpl; [|done].
    destruct (match_at r (a :: s)) as [[c rest]|] eqn:Hm; [|done].
    constructor; [eauto|done].
Qed.

Lemma run_lit_app {R} str s c (k : text → marks → option R) :
  run (lit str) (txt str ++ s) c k = k s c.
Proof. by rewrite run_lit, StrFacts.startswith_app, drop_app_length. Qed.

Lemma run_chr_stops {R} a s c (k : text → marks → option R) :
  stops (cmatch (Lit a)) s → run (Chr (Lit a)) s c k = None.
Proof. destruct s as [|b s]; simpl; [done|]. by intros ->. Qed.

Lemma stops_space_nl s : stops Str.isspace s → stops (cmatch (Lit nl)) s.
Proof.
  destruct s as [|a s]; simpl; [done|]. intros Ha.
  by destruct (Ascii.eqb_spec a nl) as [->|].
Qed.

Lemma stops_not_elem a (v s : text) :
  a ∉ v → stops (cmatch (Lit a)) s → stops (cmatch (Lit a)) (v ++ s).
Proof.
  destruct v as [|b v]; [done|]. intros Hb%not_elem_of_cons _. simpl.
  apply Ascii.eqb_neq. intros ->. by destruct Hb.
Qed.

Lemma run_opt_word {R} lang s c (k : text → marks → option R) x :
  forallb Str.isword lang = true → stops Str.isword s →
  k s c = Some x → run (Opt (Rep Word 1 true)) (lang ++ s) c k = Some x.
Proof.
  intros Hlang Hs Hk. cbn [run].
  destruct lang as [|a lang].
  - simpl. destruct s as [|b s]; simpl; [done|]. simpl in Hs. by rewrite Hs.
  - rewrite (rep_greedy_all _ _ _ (a :: lang) s x); [done|done|done| |done].
    simpl. lia.
Qed.

Lemma run_opt_lit_skip {R} str s c (K : text → marks → option R) :
  Str.startswith s (txt str) = false → run (Opt (lit str)) s c K = K s c.
Proof. intros H. cbn [run]. by rewrite run_lit, H. Qed.

Lemma run_opt_lit_take {R} str s c (K : text → marks → option R) x :
  K s c = Some x → run (Opt (lit str)) (txt str ++ s) c K = Some x.
Proof. intros H. cbn [run]. by rewrite run_lit_app, H. Qed.

Lemma findall_from_skip r (w s : text) :
  findall_from r (length w) (w ++ s) = findall_from r 0 s.
Proof. induction w as [|a w IH]; simpl; [done|]. apply IH. Qed.

Lemma findall_match r (s rest w : text) c :
  match_at r s = Some (c, rest) → s = w ++ rest → w ≠ [] →
  findall r s = (group c 1, group c 2, group c 3) :: findall r rest.
Proof.
  intros Hm -> Hw. unfold findall. destruct w as [|a w]; [done|].
  cbn [findall_from app]. change (a :: w ++ rest) with ((a :: w) ++ rest).
  rewrite Hm. f_equal.
  replace (pred (length ((a :: w) ++ rest) - length rest)) with (length w).
  - apply findall_from_skip.
  - rewrite length_app. simpl. lia.
Qed.

End ReFacts.

(** * Properties of the Extractor *)
Module ExtractorSpec.
Import Re ReFacts Extractor Examples.

Lemma store_keeps files_dict g1 g2 g3 :
  store files_dict (g1, g2, g3) =
  if keeps (Str.strip g3) then <[Str.strip g1 := Str.strip g3]> files_dict
  else files_dict.
Proof.
  unfold store, keeps.
  destruct (has_indicator _); [destruct (looks_like_file _)|]; reflexivity.
Qed.

Lemma extract_fold markdown_content :
  extract_files_from_markdown markdown_content =
  fold_left store (all_matches markdown_content) ∅.
Proof.
  unfold extract_files_from_markdown, all_matches. simpl.
  rewrite app_nil_r, !fold_left_app. reflexivity.
Qed.

Lemma fold_store_lookup (ms : list (text * text * text)) path d :
  fold_left store ms d !! path =
  match last (filter (λ m, Str.strip m.1.1 = path ∧ keeps (Str.strip m.2)) ms) with
  | Some m => Some (Str.strip m.2)
  | None => d !! path
  end.
Proof.
  induction ms as [|[[g1 g2] g3] ms IH] using rev_ind; [done|].
  rewrite fold_left_app, filter_app. cbn [fold_left].
  rewrite store_keeps, filter_cons, filter_nil. simpl.
  destruct (decide _) as [[<- Hk]|Hn].
  - rewrite last_snoc. apply Is_true_true in Hk. rewrite Hk.
    by rewrite lookup_insert_eq.
  - rewrite app_nil_r, <- IH.
    destruct (keeps (Str.strip g3)) eqn:Hk; [|done].
    apply lookup_insert_ne. intros Heq. by apply Hn.
Qed.

(** ** C1: order of the strategies and last-writer-wins *)

(** C1, as stated, fails: in [doc_overwrite] the path [a.sh] is matched by
    the emphasized strategy and then by the heading strategy, and the
    final mapping holds the body of the earlier match, because the later
    one is discarded by the command-block filter. *)
Lemma later_match_not_always_present :
  findall pattern1 doc_overwrite ++ findall pattern2 doc_overwrite
    ++ findall pattern3 doc_overwrite
  = [(txt "a.sh", txt "sh", txt "echo hi" ++ [nl]);
     (txt "a.sh", txt "sh", txt "cd x" ++ [nl])]
  ∧ extract_files_from_markdown doc_overwrite !! txt "a.sh"
    = Some (txt "echo hi")
  ∧ extract_files_from_markdown doc_overwrite !! txt "a.sh"
    ≠ Some (Str.strip (txt "cd x" ++ [nl])).
Proof. repeat split; by vm_compute. Qed.

(** C1 (amended): the result is the fold of [store] over the matches of
    the emphasized-filename pattern, then those of the heading pattern,
    then those of the inline-code-span pattern, each in the order found;
    and for every path the final mapping holds the body of the
    last-processed match for that path among the matches the
    command-block filter keeps (no entry when there is none). *)
Theorem extract_last_kept_wins (markdown_content path : text) :
  let ms := findall pattern1 markdown_content
              ++ findall pattern2 markdown_content
              ++ findall pattern3 markdown_content in
  extract_files_from_markdown markdown_content = fold_left store ms ∅
  ∧ extract_files_from_markdown markdown_content !! path =
    (λ m, Str.strip m.2) <$>
      last (filter (λ m, Str.strip m.1.1 = path ∧ keeps (Str.strip m.2)) ms).
Proof.
  intros ms.
  assert (extract_files_from_markdown markdown_content = fold_left store ms ∅)
    as Hfold.
  { rewrite extract_fold. unfold all_matches, ms. simpl.
    by rewrite app_nil_r. }
  split; [done|]. rewrite Hfold, fold_store_lookup.
  destruct (last _); [done|]. apply lookup_empty.
Qed.

(** ** C10: a discarded match leaves the mapping unchanged *)

(** C10: when the filter discards the trimmed body of a match (an
    indicator is found and the body does not look like a file), [store]
    returns the mapping unchanged, so every entry already present, the
    one for the same path included, is still there. *)
Theorem store_discarded_unchanged files_dict (g1 g2 g3 : text) :
  has_indicator (Str.strip g3) = true →
  looks_like_file (Str.strip g3) = false →
  store files_dict (g1, g2, g3) = files_dict
  ∧ ∀ path, store files_dict (g1, g2, g3) !! path = files_dict !! path.
Proof.
  intros Hi Hl.
  assert (store files_dict (g1, g2, g3) = files_dict) as ->; [|done].
  unfold store. by rewrite Hi, Hl.
Qed.

Lemma store_discarded_unchanged_witness :
  let d : gmap text text := {[ txt "a.sh" := txt "echo hi" ]} in
  store d (txt "a.sh", txt "sh", txt "cd x" ++ [nl]) = d
  ∧ ∀ path, store d (txt "a.sh", txt "sh", txt "cd x" ++ [nl]) !! path
            = d !! path.
Proof.
  intros d. apply (store_discarded_unchanged d); vm_compute; reflexivity.
Defined.

(** ** C4: the [app.py] example *)

(** C4: documents made of the emphasized filename [**app.py**] directly
    followed by a fenced block (with or without a language tag, on the
    same or on the next line) whose body is [print("hi")] are extracted
    to exactly the mapping [{"app.py": "print(\"hi\")"}]. *)
Theorem extract_app_py :
  extract_files_from_markdown
    (txt "**app.py**" ++ nl :: txt "```python" ++ nl :: print_hi ++ nl
       :: txt "```" ++ [nl])
  = {[ txt "app.py" := print_hi ]}
  ∧ extract_files_from_markdown
      (txt "**app.py**" ++ txt "```" ++ nl :: print_hi ++ txt "```")
    = {[ txt "app.py" := print_hi ]}
  ∧ extract_files_from_markdown
      (txt "**app.py**" ++ nl :: txt "```" ++ nl :: print_hi ++ nl
         :: txt "```")
    = {[ txt "app.py" := print_hi ]}.
Proof. repeat split; vm_compute; reflexivity. Qed.

(** ** C5: the keys of the result *)

Lemma extension_solid e :
  e ∈ extensions →
  Str.lstrip ("."%char :: txt e) = "."%char :: txt e
  ∧ Str.rstrip ("."%char :: txt e) = "."%char :: txt e.
Proof.
  unfold extensions. intros He.
  repeat (apply elem_of_cons in He as [->|He]; [by vm_compute|]).
  by apply elem_of_nil in He.
Qed.

Lemma sem_ext w c c' :
  sem ext w c c' → ∃ e, e ∈ extensions ∧ w = txt e.
Proof.
  intros (c1 & H & _). apply sem_alts_lit in H as (e & He & -> & _); [|done].
  eauto.
Qed.

(** The text of group 1 in each of the three patterns: something
    non-empty, a dot, an extension. *)
Lemma sem_name cs w c c' :
  sem (Group 1 (seq [Rep cs 1 true; lit "."; ext])) w c c' →
  c' !! 1 = Some w
  ∧ ∃ u e, u ≠ [] ∧ e ∈ extensions ∧ w = u ++ "."%char :: txt e.
Proof.
  intros (c1 & H & ->). split; [apply lookup_insert_eq|].
  apply sem_seq_cons in H as (u & w2 & c2 & -> & (_ & Hu & _) & H).
  apply sem_seq_cons in H as (d & w3 & c3 & -> & [-> _]%sem_lit & H).
  apply sem_seq_cons in H as (e' & w4 & c4 & -> & He & [-> _]).
  apply sem_ext in He as (e & He & ->).
  exists u, e. rewrite app_nil_r. split; [|done].
  intros ->. simpl in Hu. lia.
Qed.

Lemma pattern_name pattern s c rest :
  pattern ∈ [pattern1; pattern2; pattern3] →
  match_at pattern s = Some (c, rest) → name_shape (group c 1).
Proof.
  intros Hp Hm. apply match_at_sound in Hm as (w & _ & H).
  unfold group.
  repeat (apply elem_of_cons in Hp as [->|Hp]); [| | |by apply elem_of_nil in Hp].
  - apply sem_seq_cons in H as (? & w1 & c1 & _ & _ & H).
    apply sem_seq_cons in H as (? & w2 & c2 & _ & [Hc Hs]%sem_name & H).
    rewrite (sem_frame _ _ _ _ 1 H), Hc; [done|].
    apply (bool_decide_unpack _). by vm_compute.
  - apply sem_seq_cons in H as (? & w1 & c1 & _ & _ & H).
    apply sem_seq_cons in H as (? & w2 & c2 & _ & _ & H).
    apply sem_seq_cons in H as (? & w3 & c3 & _ & _ & H).
    apply sem_seq_cons in H as (? & w4 & c4 & _ & [Hc Hs]%sem_name & H).
    rewrite (sem_frame _ _ _ _ 1 H), Hc; [done|].
    apply (bool_decide_unpack _). by vm_compute.
  - apply sem_seq_cons in H as (? & w1 & c1 & _ & _ & H).
    apply sem_seq_cons in H as (? & w2 & c2 & _ & [Hc Hs]%sem_name & H).
    rewrite (sem_frame _ _ _ _ 1 H), Hc; [done|].
    apply (bool_decide_unpack _). by vm_compute.
Qed.

Lemma all_matches_name markdown_content :
  Forall (λ m, name_shape m.1.1) (all_matches markdown_content).
Proof.
  unfold all_matches. apply Forall_concat, Forall_fmap, Forall_forall.
  intros pattern Hp. apply findall_from_Forall.
  intros s0 c rest Hm. simpl. by eapply pattern_name.
Qed.

Lemma fold_store_key (ms : list (text * text * text)) d path :
  path ∈ dom (fold_left store ms d) →
  path ∈ dom d ∨ ∃ m, m ∈ ms ∧ path = Str.strip m.1.1.
Proof.
  revert d. induction ms as [|[[g1 g2] g3] ms IH]; intros d; cbn [fold_left];
    [auto|].
  intros [H|(m & Hm & ->)]%IH.
  - rewrite store_keeps in H. destruct (keeps _).
    + apply dom_insert in H. apply elem_of_union in H as [->%elem_of_singleton|H];
        [right|by left].
      exists (g1, g2, g3). split; [apply list_elem_of_here|done].
    + by left.
  - right. exists m. split; [by apply list_elem_of_further|done].
Qed.

Lemma strip_name g1 :
  name_shape g1 →
  ∃ u e, e ∈ extensions ∧ Str.strip g1 = u ++ "."%char :: txt e.
Proof.
  intros (u & e & _ & He & ->). destruct (extension_solid e He) as [Hl Hr].
  exists (Str.lstrip u), e. split; [done|].
  by apply StrFacts.strip_app_solid.
Qed.

(** C5, as stated, fails: the emphasized text [/a.py] is stored under the
    absolute path [/a.py]. *)
Lemma absolute_key_extracted :
  extract_files_from_markdown (txt "**/a.py**```" ++ nl :: txt "x```")
  = {[ txt "/a.py" := txt "x" ]}
  ∧ Str.startswith (txt "/a.py") (txt "/") = true.
Proof. split; by vm_compute. Qed.

(** C5 (amended): for every input document, every key of the extraction
    result is non-empty: it ends with a dot followed by one of the
    recognized extensions.  (Nothing prevents a key from being an absolute
    path.) *)
Theorem extract_keys_nonempty (markdown_content path : text) :
  path ∈ dom (extract_files_from_markdown markdown_content) →
  path ≠ []
  ∧ ∃ u e, e ∈ extensions ∧ path = u ++ "."%char :: txt e.
Proof.
  rewrite extract_fold. intros [H|(m & Hm & ->)]%fold_store_key.
  { by rewrite dom_empty in H. }
  pose proof (all_matches_name markdown_content) as Hall.
  rewrite Forall_forall in Hall. apply Hall, strip_name in Hm
    as (u & e & He & Hs).
  split; [|eauto]. rewrite Hs. by destruct u.
Qed.

Lemma extract_keys_nonempty_witness :
  txt "app.py" ≠ []
  ∧ ∃ u e, e ∈ extensions ∧ txt "app.py" = u ++ "."%char :: txt e.
Proof.
  apply (extract_keys_nonempty
           (txt "**app.py**```" ++ nl :: txt "x```")).
  apply elem_of_dom. exists (txt "x"). vm_compute. reflexivity.
Defined.

(** ** C2: the heading strategy *)

Lemma fence_window (v post : text) :
  v ≠ [] →
  Str.startswith (v ++ txt "```" ++ post) (txt "```")
  = Str.startswith (v ++ txt "``") (txt "```").
Proof.
  intros Hv. destruct v as [|a [|b [|c v]]]; [done|..]; reflexivity.
Qed.

Lemma run_fence {R} lang u v body post c (k : text → marks → option R) x :
  forallb Str.isword lang = true →
  forallb Str.isspace (u ++ nl :: v) = true →
  nl ∉ v →
  stops Str.isspace (body ++ txt "```" ++ post) →
  Str.contains (txt "```") (v ++ body ++ txt "``") = false →
  k post (<[3 := v ++ body]> c) = Some x →
  run fence (txt "```" ++ lang ++ u ++ nl :: v ++ body ++ txt "```" ++ post) c k
  = Some x.
Proof.
  intros Hlang Hsp Hnl Hstop Hfree Hk.
  unfold fence. rewrite run_seq_cons, run_lit_app, run_seq_cons.
  apply run_opt_word; [done| |].
  { destruct u as [|a u]; simpl in *; [done|].
    apply andb_true_iff in Hsp as [Ha _]. by apply StrFacts.space_not_word. }
  rewrite run_seq_cons. cbn [run].
  change (nl :: v ++ body ++ txt "```" ++ post)
    with ((nl :: v) ++ body ++ txt "```" ++ post).
  apply rep_greedy_back; [done|done|lia| |].
  { intros u' v' Huv Hu'. rewrite run_seq_cons.
    apply run_chr_stops, stops_not_elem; [|by apply stops_space_nl].
    destruct u' as [|a u']; [done|]. injection Huv as _ Hv.
    rewrite Hv in Hnl. intros Hin. apply Hnl, elem_of_app. by right. }
  rewrite run_seq_cons. cbn [app run].
  change (cmatch (Lit nl) nl) with true. cbn iota.
  rewrite run_seq_cons. cbn [run].
  rewrite (app_assoc v body).
  apply rep_lazy_first; [by apply forallb_forall| |].
  { intros u1 v1 Huv Hv1. rewrite run_seq_cons, run_lit.
    rewrite fence_window by done.
    rewrite StrFacts.contains_false_startswith; [done|].
    apply (StrFacts.contains_app_r _ u1). rewrite app_assoc, <- Huv.
    by rewrite <- app_assoc. }
  rewrite run_seq_cons, run_lit_app, run_seq_nil.
  by rewrite consumed_app.
Qed.

(** The recognized extensions are made of word characters. *)
Lemma extension_word e : e ∈ extensions → forallb Str.isword (txt e) = true.
Proof.
  unfold extensions. intros He.
  repeat (apply elem_of_cons in He as [->|He]; [by vm_compute|]).
  by apply elem_of_nil in He.
Qed.

Lemma run_ext {R} e s c (K : text → marks → option R) x :
  e ∈ extensions →
  (∀ a s' c', Str.isword a = true → K (a :: s') c' = None) →
  K s (<[2 := txt e]> c) = Some x →
  run ext (txt e ++ s) c K = Some x.
Proof.
  unfold extensions. intros He HK Hs.
  assert (∀ c', K s (<[2 := consumed (txt e ++ s) s]> c') = K s (<[2 := txt e]> c'))
    as Hc by (by intros; rewrite consumed_app).
  repeat (apply elem_of_cons in He as [->|He];
    [cbn -[consumed lit]; rewrite !run_lit;
     cbv [txt list_ascii_of_string] in *; cbn -[consumed] in *;
     repeat rewrite HK by reflexivity; by rewrite Hc, Hs|]).
  by apply elem_of_nil in He.
Qed.

Lemma extension_chars e a :
  e ∈ extensions → a ∈ txt e → a ≠ nl ∧ a ≠ "."%char.
Proof.
  intros He Ha. pose proof (extension_word e He) as Hw.
  rewrite forallb_forall in Hw. apply list_elem_of_In, Hw in Ha.
  split; intros ->; done.
Qed.

(** The heading pattern on a heading line followed by a fenced block. *)
Lemma match_heading (third : bool) ws name e lang u v body post :
  ws ≠ [] → forallb Str.isspace ws = true →
  name ≠ [] → stops Str.isspace name → nl ∉ name →
  e ∈ extensions →
  forallb Str.isword lang = true →
  forallb Str.isspace (u ++ nl :: v) = true → nl ∉ v →
  stops Str.isspace (body ++ txt "```" ++ post) →
  Str.contains (txt "```") (v ++ body ++ txt "``") = false →
  match_at pattern2
    (txt "##" ++ (if third then txt "#" else []) ++ ws
       ++ (name ++ "."%char :: txt e) ++ nl :: txt "```" ++ lang
       ++ u ++ nl :: v ++ body ++ txt "```" ++ post)
  = Some (<[3 := v ++ body]>
            (<[1 := name ++ "."%char :: txt e]> (<[2 := txt e]> ∅)), post).
Proof.
  intros Hws Hsp Hname Hhd Hnl He Hlang Hu Hv Hstop Hfree.
  unfold match_at, pattern2.
  rewrite run_seq_cons, run_lit_app, run_seq_cons.
  set (block := txt "```" ++ lang ++ _).
  set (K1 := λ s1 c1, run (seq (Rep Space 1 true :: _)) s1 c1 _).
  set (X := (_, post)).
  assert (K1 (ws ++ (name ++ "."%char :: txt e) ++ nl :: block) ∅ = Some X)
    as HK1.
  { subst K1. cbn beta. rewrite run_seq_cons. cbn [run].
    apply rep_greedy_all; [done| |destruct ws; [done|simpl; lia]|].
    { destruct name; [done|]. exact Hhd. }
    rewrite run_seq_cons. cbn [run]. rewrite run_seq_cons. cbn [run].
    rewrite <- (app_assoc name).
    apply rep_greedy_back.
    - rewrite forallb_app. apply andb_true_iff. split.
      + apply forallb_forall. intros a Ha%list_elem_of_In. simpl.
        apply negb_true_iff, Ascii.eqb_neq. intros ->. by apply Hnl.
      + apply forallb_forall. intros a Ha%list_elem_of_In. simpl.
        apply negb_true_iff, Ascii.eqb_neq.
        apply elem_of_cons in Ha as [->|Ha]; [done|].
        by apply (extension_chars e).
    - done.
    - destruct name; [done|simpl; lia].
    - intros u' v' Huv Hu'. rewrite run_seq_cons, run_lit.
      destruct u' as [|a u']; [done|]. injection Huv as _ Hv'.
      assert (Str.startswith (v' ++ nl :: block) (txt ".") = false) as ->; [|done].
      change (txt ".") with ["."%char].
      destruct v' as [|b v']; [done|]. cbn [app Str.startswith].
      destruct (Ascii.eqb_spec b ".") as [->|]; [|done].
      destruct (extension_chars e "." He); [|done].
      rewrite Hv'. apply elem_of_app. right. apply list_elem_of_here.
    - change ("."%char :: txt e) with (txt "." ++ txt e).
      rewrite run_seq_cons, <- app_assoc, run_lit_app, run_seq_cons.
      apply run_ext; [done| |].
      + intros a s' c' Ha. rewrite run_seq_nil, run_seq_cons. cbn [run].
        rewrite rep_greedy_stops by (by apply StrFacts.word_not_space).
        rewrite run_seq_cons. apply run_chr_stops. simpl.
        apply Ascii.eqb_neq. intros ->. done.
      + rewrite run_seq_nil, run_seq_cons. cbn [run].
        replace (consumed (name ++ txt "." ++ txt e ++ nl :: block) (nl :: block))
          with (name ++ "."%char :: txt e).
        2:{ rewrite 2!app_assoc, consumed_app. by rewrite <- app_assoc. }
        apply (rep_greedy_back _ _ _ [] [nl] block); [done|done|done| |].
        * intros u' v' Huv Hu'. destruct u' as [|a [|??]]; [done| |done].
          injection Huv as _ <-. rewrite run_seq_cons. by apply run_chr_stops.
        * rewrite run_seq_cons. cbn [app run].
          change (cmatch (Lit nl) nl) with true. cbn iota.
          rewrite run_seq_cons. by apply run_fence. }
  destruct third; [by apply run_opt_lit_take|].
  rewrite run_opt_lit_skip; [done|].
  destruct ws as [|a ws]; [done|]. simpl in Hsp.
  apply andb_true_iff in Hsp as [Ha _].
  change (txt "#") with ["#"%char]. cbn [app Str.startswith].
  destruct (Ascii.eqb_spec a "#") as [->|]; [discriminate Ha|done].
Qed.




(** ** C3: the command-block filter *)

Lemma split_hd_prefix sep (s : text) :
  ∃ rest, s = hd [] (Str.split sep s) ++ rest.
Proof.
  induction s as [|a s [rest IH]]; [by exists []|]. simpl.
  destruct (Ascii.eqb a sep); [by exists (a :: s)|].
  destruct (Str.split sep s) as [|w ws]; [by exists s|].
  exists rest. simpl in *. by rewrite IH at 1.
Qed.

Lemma forallb_false_elem {A} (f : A → bool) (l : list A) :
  forallb f l = false ↔ ∃ x, x ∈ l ∧ f x = false.
Proof.
  induction l as [|a l IH]; simpl.
  - split; [done|]. intros (x & Hx & _). by apply elem_of_nil in Hx.
  - rewrite andb_false_iff, IH. split.
    + intros [Ha|(x & Hx & Hf)]; [exists a|exists x]; split; auto;
        [apply list_elem_of_here|by apply list_elem_of_further].
    + intros (x & Hx & Hf). apply elem_of_cons in Hx as [->|Hx]; eauto.
Qed.




End ExtractorSpec.

(** * Properties of the paths *)
Module PathFacts.
Import PurePath.

Lemma split_cons_case c a (s : text) :
  Str.split c (a :: s) =
  if Ascii.eqb a c then [] :: Str.split c s
  else match Str.split c s with w :: ws => (a :: w) :: ws | [] => [[a]] end.
Proof. reflexivity. Qed.

Lemma split_nonempty c (s : text) : Str.split c s ≠ [].
Proof.
  induction s as [|a s IH]; [done|]. rewrite split_cons_case.
  destruct (Ascii.eqb a c); [done|]. by destruct (Str.split c s).
Qed.

(** The pieces hold no separator. *)
Lemma split_no_sep c (s x : text) : x ∈ Str.split c s → c ∉ x.
Proof.
  revert x. induction s as [|a s IH]; intros x.
  - intros ->%list_elem_of_singleton. apply not_elem_of_nil.
  - rewrite split_cons_case. destruct (Ascii.eqb_spec a c) as [->|Hne].
    + intros [->|Hx]%elem_of_cons; [apply not_elem_of_nil|auto].
    + destruct (Str.split c s) as [|w ws] eqn:Hs.
      { intros ->%list_elem_of_singleton.
        intros [->|[]%elem_of_nil]%elem_of_cons. done. }
      intros [->|Hx]%elem_of_cons.
      * intros [->|Hc]%elem_of_cons; [done|].
        by apply (IH w); [apply list_elem_of_here|].
      * apply IH. by apply list_elem_of_further.
Qed.

Lemma split_solid c (w : text) : c ∉ w → Str.split c w = [w].
Proof.
  induction w as [|a w IH]; [done|]. intros [Ha Hw]%not_elem_of_cons.
  rewrite split_cons_case. destruct (Ascii.eqb_spec a c) as [->|_]; [done|].
  by rewrite IH.
Qed.

Lemma split_app_sep c (w s : text) :
  c ∉ w → Str.split c (w ++ c :: s) = w :: Str.split c s.
Proof.
  induction w as [|a w IH]; intros Hw.
  - simpl. by rewrite Ascii.eqb_refl.
  - apply not_elem_of_cons in Hw as [Ha Hw]. cbn [app].
    rewrite split_cons_case. destruct (Ascii.eqb_spec a c) as [->|_]; [done|].
    by rewrite IH.
Qed.

Lemma join_cons c (w : text) ws :
  ws ≠ [] → Str.join c (w :: ws) = w ++ c :: Str.join c ws.
Proof. by destruct ws. Qed.

Lemma split_join c (ws : list text) :
  ws ≠ [] → Forall (λ x, c ∉ x) ws → Str.split c (Str.join c ws) = ws.
Proof.
  induction ws as [|w ws IH]; [done|]. intros _ [Hw Hws]%Forall_cons.
  destruct ws as [|w' ws]; [by apply split_solid|].
  rewrite join_cons by done. rewrite split_app_sep by done.
  by rewrite IH.
Qed.

Lemma parse_wf s : wf (parse s).
Proof.
  unfold wf, parse. destruct (splitroot s) as [a rel]. simpl.
  apply Forall_forall. intros x [[Hx1 Hx2] Hx]%list_elem_of_filter.
  repeat split; [done..|]. by eapply split_no_sep.
Qed.

Lemma joinpath_wf p q : wf p → wf q → wf (joinpath p q).
Proof.
  unfold wf, joinpath. intros Hp Hq.
  destruct (anchor_of q); simpl; [by apply Forall_app|done..].
Qed.

Lemma parent_wf p : wf p → wf (parent p).
Proof.
  unfold wf, parent. simpl. intros Hp.
  rewrite removelast_firstn_len. by apply Forall_take.
Qed.

Lemma relative_to_Some p base r :
  relative_to p base = Some r →
  anchor_of r = Relative ∧ anchor_of p = anchor_of base
  ∧ parts p = parts base ++ parts r.
Proof.
  unfold relative_to. case_decide as H; [|done]. intros [= <-].
  destruct H as [Ha [k Hk]]. simpl. rewrite Hk at 2.
  by rewrite drop_app_length.
Qed.

Lemma relative_to_wf p base r : relative_to p base = Some r → wf p → wf r.
Proof.
  intros (_ & _ & Hp)%relative_to_Some. unfold wf. rewrite Hp.
  by intros [_ ?]%Forall_app.
Qed.

Lemma join_not_sep (ps : list text) :
  ps ≠ [] → Forall (λ x, x ≠ [] ∧ x ≠ txt "." ∧ sep ∉ x) ps →
  Str.startswith (Str.join sep ps) [sep] = false.
Proof.
  destruct ps as [|[|b w] ps]; [done|..]; intros _ [(H1 & _ & H3) _]%Forall_cons;
    [done|].
  apply not_elem_of_cons in H3 as [Hb _].
  destruct ps; simpl; by destruct (Ascii.eqb_spec b sep).
Qed.

Lemma parse_rel (a : anchor) (ps : list text) :
  ps ≠ [] → Forall (λ x, x ≠ [] ∧ x ≠ txt "." ∧ sep ∉ x) ps →
  filter (λ x : text, x ≠ [] ∧ x ≠ txt ".") (Str.split sep (Str.join sep ps))
  = ps.
Proof.
  intros Hne Hwf. rewrite split_join; [|done|].
  - induction Hwf as [|x ps' (H1 & H2 & _) Hwf IH]; [done|].
    rewrite filter_cons_True by done. f_equal.
    destruct ps' as [|y ps']; [done|]. by apply IH.
  - eapply Forall_impl; [done|]. by intros x (_ & _ & ?).
Qed.

(** [PurePosixPath(str(p)) == p] *)
Lemma parse_to_str p : wf p → parse (to_str p) = p.
Proof.
  destruct p as [a ps]. unfold wf. cbn [parts]. intros Hwf.
  destruct (decide (ps = [])) as [->|Hne]; [by destruct a|].
  pose proof (join_not_sep ps Hne Hwf) as Hhead.
  pose proof (parse_rel a ps Hne Hwf) as Hparts.
  destruct a; unfold to_str, parse, splitroot; cbn [anchor_of parts].
  - destruct ps as [|w ps]; [done|]. rewrite Hhead. simpl negb. cbn iota.
    by rewrite Hparts.
  - change (Str.startswith (sep :: ?s) [sep]) with true.
    change (Str.startswith (sep :: ?s) [sep; sep]) with (Str.startswith s [sep]).
    rewrite Hhead. simpl negb. cbn iota. simpl orb. cbn iota.
    change (drop 1 (sep :: ?s)) with s. by rewrite Hparts.
  - change (Str.startswith (sep :: sep :: ?s) [sep]) with true.
    change (Str.startswith (sep :: sep :: ?s) [sep; sep]) with true.
    change (Str.startswith (sep :: sep :: ?s) [sep; sep; sep])
      with (Str.startswith s [sep]).
    rewrite Hhead. simpl negb. simpl orb. cbn iota.
    change (drop 2 (sep :: sep :: ?s)) with s. by rewrite Hparts.
Qed.

Lemma to_str_inj p q : wf p → wf q → to_str p = to_str q → p = q.
Proof.
  intros Hp Hq H. rewrite <- (parse_to_str p), <- (parse_to_str q) by done.
  by rewrite H.
Qed.

End PathFacts.

(** * Properties of the in-memory file system *)
Module OsFacts.
Import PurePath Os PathFacts.

Lemma grows_refl d : grows d d.
Proof. split; [done|]. intros q. destruct (nodes d !! q) as [[]|]; eauto. Qed.

Lemma grows_trans d1 d2 d3 : grows d1 d2 → grows d2 d3 → grows d1 d3.
Proof.
  intros [Hd1 H1] [Hd2 H2]. split; [congruence|]. intros q.
  specialize (H1 q). specialize (H2 q).
  destruct (nodes d1 !! q) as [[|c]|].
  - by rewrite H1 in H2.
  - destruct H1 as [c' H1]. by rewrite H1 in H2.
  - intros Hq. rewrite (H1 Hq) in H2. apply H2. by rewrite <- Hd1.
Qed.

Lemma grows_insert_dir d q :
  nodes d !! q = None → q ∉ denied d →
  grows d (MemFs (<[q := Dir]> (nodes d)) (denied d)).
Proof.
  intros Hq Hden. split; [done|]. intros q'. simpl.
  destruct (decide (q = q')) as [<-|Hne].
  - rewrite Hq. done.
  - rewrite lookup_insert_ne by done. destruct (nodes d !! q') as [[]|]; eauto.
Qed.

Lemma grows_insert_file d p content :
  nodes d !! p ≠ Some Dir → p ∉ denied d →
  grows d (MemFs (<[p := File content]> (nodes d)) (denied d)).
Proof.
  intros Hp Hden. split; [done|]. intros q'. simpl.
  destruct (decide (p = q')) as [<-|Hne].
  - rewrite lookup_insert_eq. destruct (nodes d !! p) as [[]|]; eauto; done.
  - rewrite lookup_insert_ne by done. destruct (nodes d !! q') as [[]|]; eauto.
Qed.

Lemma is_dir_spec d p :
  is_dir d p = true ↔ parts p = [] ∨ nodes d !! p = Some Dir.
Proof.
  unfold is_dir. destruct (parts p) as [|x xs]; [naive_solver|].
  destruct (nodes d !! p) as [[]|]; naive_solver.
Qed.

Lemma is_dir_grows d1 d2 p : grows d1 d2 → is_dir d1 p = true → is_dir d2 p = true.
Proof.
  intros [_ H]. rewrite !is_dir_spec. intros [Hp|Hp]; [by left|right].
  specialize (H p). by rewrite Hp in H.
Qed.

Lemma mkdir1_Some d q d' :
  mkdir1 d q = Some d' →
  is_dir d' q = true
  ∧ (d' = d ∨ (nodes d !! q = None ∧ (q ∉ denied d)
               ∧ d' = MemFs (<[q := Dir]> (nodes d)) (denied d))).
Proof.
  unfold mkdir1. destruct (is_dir d q) eqn:Hdir.
  { intros [= <-]. auto. }
  destruct (nodes d !! q) eqn:Hq; [done|]. case_bool_decide; [done|].
  intros [= <-]. split; [|by right].
  apply is_dir_spec. right. simpl. apply lookup_insert_eq.
Qed.

Lemma mkdir1_grows d q d' : mkdir1 d q = Some d' → grows d d'.
Proof.
  intros [_ [->|(Hq & Hden & ->)]]%mkdir1_Some;
    [apply grows_refl|by apply grows_insert_dir].
Qed.

Lemma mkdir_chain_grows d qs d' :
  mkdir_chain d qs = Some d' →
  grows d d' ∧ Forall (λ q, is_dir d' q = true) qs.
Proof.
  revert d. induction qs as [|q qs IH]; intros d; simpl.
  - intros [= <-]. split; [apply grows_refl|constructor].
  - destruct (mkdir1 d q) as [d1|] eqn:H1; [|done]. simpl.
    intros [Hg Hall]%IH. pose proof (mkdir1_grows _ _ _ H1) as Hg1.
    split; [by eapply grows_trans|]. constructor; [|done].
    eapply is_dir_grows; [done|]. by apply mkdir1_Some in H1 as [? _].
Qed.

(** [mkdir] leaves the directory in place. *)
Lemma mem_mkdir_is_dir d p d' : mem_mkdir d p = Some d' → is_dir d' p = true.
Proof.
  unfold mem_mkdir. intros [_ Hall]%mkdir_chain_grows.
  destruct p as [a ps]. destruct (decide (ps = [])) as [->|Hne]; [done|].
  rewrite Forall_forall in Hall. apply Hall. unfold ancestors. simpl.
  apply list_elem_of_fmap. exists (length ps). rewrite firstn_all.
  split; [done|]. apply elem_of_seq. destruct ps; [done|simpl; lia].
Qed.

Lemma mem_write_Written d p content d' :
  mem_write d p content = Written d' →
  is_dir d p = false ∧ is_dir d (parent p) = true ∧ (p ∉ denied d)
  ∧ d' = MemFs (<[p := File content]> (nodes d)) (denied d).
Proof.
  unfold mem_write. destruct (is_dir d p); [done|].
  destruct (is_dir d (parent p)); [|done]. simpl.
  case_bool_decide; [done|]. by intros [= <-].
Qed.

Lemma mem_write_Failed d p content e d' :
  mem_write d p content = Failed e d' → d' = d.
Proof.
  unfold mem_write. destruct (is_dir d p); [by intros [= _ <-]|].
  destruct (is_dir d (parent p)); simpl; [|by intros [= _ <-]].
  case_bool_decide; [by intros [= _ <-]|done].
Qed.

Lemma mem_write_grows d p content :
  grows d (match mem_write d p content with Written d' | Failed _ d' => d' end).
Proof.
  destruct (mem_write d p content) as [d'|e d'] eqn:Hw.
  - apply mem_write_Written in Hw as (Hdir & _ & Hden & ->).
    apply grows_insert_file; [|done]. intros Hp.
    assert (is_dir d p = true) as Ht by (apply is_dir_spec; by right).
    congruence.
  - apply mem_write_Failed in Hw as ->. apply grows_refl.
Qed.

(** *** Running again on the disk a run has left *)

Lemma replays_is_dir final written d1 d2 p :
  replays final written d1 d2 → grows d1 final →
  is_dir d1 p = true → is_dir d2 p = true.
Proof.
  intros (_ & Hn & Hw) Hg. rewrite !is_dir_spec. intros [Hp|Hp]; [by left|].
  right. rewrite Hn. case_decide as Hin.
  - done.
  - destruct Hg as [_ Hg]. specialize (Hg p). by rewrite Hp in Hg.
Qed.

Lemma replays_mkdir1 final written d1 d2 q d1' :
  replays final written d1 d2 → mkdir1 d1 q = Some d1' → grows d1' final →
  mkdir1 d2 q = Some d2 ∧ replays final written d1' d2.
Proof.
  intros Hr H1 Hg. pose proof (mkdir1_grows _ _ _ H1) as Hg1.
  pose proof H1 as [Hdir Hcase]%mkdir1_Some. split.
  - unfold mkdir1. rewrite (replays_is_dir final written d1' d2); [done| |done|done].
    destruct Hr as (Hden & Hn & Hw). split; [done|]. split; [|].
    + intros q'. rewrite Hn. case_decide as Hin; [|done].
      destruct (Hw _ Hin) as [c Hc].
      destruct Hcase as [->|(Hq & _ & ->)]; [done|]. simpl.
      rewrite lookup_insert_ne; [done|]. intros ->. congruence.
    + intros q' Hin. destruct (Hw _ Hin) as [c Hc].
      destruct Hg1 as [_ Hg1]. specialize (Hg1 q'). by rewrite Hc in Hg1.
  - destruct Hr as (Hden & Hn & Hw). split; [done|]. split.
    + intros q'. rewrite Hn. case_decide as Hin; [|done].
      destruct (Hw _ Hin) as [c Hc].
      destruct Hcase as [->|(Hq & _ & ->)]; [done|]. simpl.
      rewrite lookup_insert_ne; [done|]. intros ->. congruence.
    + intros q' Hin. destruct (Hw _ Hin) as [c Hc].
      destruct Hg1 as [_ Hg1]. specialize (Hg1 q'). by rewrite Hc in Hg1.
Qed.

Lemma replays_mkdir_chain final written d1 d2 qs d1' :
  replays final written d1 d2 → mkdir_chain d1 qs = Some d1' →
  grows d1' final →
  mkdir_chain d2 qs = Some d2 ∧ replays final written d1' d2.
Proof.
  revert d1. induction qs as [|q qs IH]; intros d1 Hr; simpl.
  - intros [= <-] _. done.
  - destruct (mkdir1 d1 q) as [d1a|] eqn:H1; [|done]. simpl. intros Hc Hg.
    pose proof (mkdir_chain_grows _ _ _ Hc) as [Hga _].
    destruct (replays_mkdir1 final written d1 d2 q d1a) as [-> Hr1];
      [done|done|by eapply grows_trans|].
    simpl. by eapply IH.
Qed.

Lemma replays_write final written d1 d2 p content :
  replays final written d1 d2 →
  grows (match mem_write d1 p content with Written d | Failed _ d => d end) final →
  is_dir d1 (parent p) = true →
  match mem_write d1 p content with
  | Written d1' =>
      ∃ d2', mem_write d2 p content = Written d2'
             ∧ replays final ({[p]} ∪ written) d1' d2'
  | Failed e d1' =>
      mem_write d2 p content = Failed e d2 ∧ replays final written d1' d2
  end.
Proof.
  intros Hr Hg Hpar.
  destruct (mem_write d1 p content) as [d1'|e d1'] eqn:Hw.
  - apply mem_write_Written in Hw as (Hdir & _ & Hden & ->).
    assert (grows d1 final) as Hg1.
    { eapply grows_trans; [|done]. apply grows_insert_file; [|done].
      intros Hp. assert (is_dir d1 p = true) as Ht by (apply is_dir_spec; by right).
      congruence. }
    pose proof (replays_is_dir _ _ _ _ _ Hr Hg1 Hpar) as Hpar2.
    destruct Hr as (Hd & Hn & Hwr).
    assert (denied d1 = denied final) as Hd1 by apply Hg1.
    assert (is_dir d2 p = false) as Hdir2.
    { apply not_true_iff_false. rewrite is_dir_spec. intros [Hp|Hp].
      - apply not_true_iff_false in Hdir. apply Hdir, is_dir_spec. by left.
      - rewrite Hn in Hp. case_decide as Hin.
        + destruct (Hwr _ Hin) as [c Hc]. congruence.
        + destruct Hg as [_ Hg]. specialize (Hg p). simpl in Hg.
          rewrite lookup_insert_eq in Hg. destruct Hg as [c Hc]. congruence. }
    eexists. split.
    + unfold mem_write. rewrite Hdir2, Hpar2. simpl.
      rewrite bool_decide_false; [done|]. by rewrite Hd, <- Hd1.
    + split; [done|]. split; simpl.
      * intros q. destruct (decide (p = q)) as [<-|Hne].
        { rewrite !lookup_insert_eq. rewrite decide_True by set_solver. done. }
        rewrite !lookup_insert_ne by done. rewrite Hn.
        destruct (decide (q ∈ written)); [rewrite decide_True by set_solver; done|].
        rewrite decide_False by set_solver. done.
      * intros q [->%elem_of_singleton|Hin]%elem_of_union.
        { rewrite lookup_insert_eq. eauto. }
        destruct (Hwr _ Hin) as [c Hc]. destruct (decide (p = q)) as [<-|Hne].
        { rewrite lookup_insert_eq. eauto. }
        rewrite lookup_insert_ne by done. eauto.
  - pose proof (mem_write_Failed _ _ _ _ _ Hw) as ->. split; [|done].
    pose proof (replays_is_dir _ _ _ _ _ Hr Hg Hpar) as Hpar2.
    destruct Hr as (Hd & Hn & Hwr).
    assert (denied d1 = denied final) as Hd1 by apply Hg.
    unfold mem_write in Hw |- *. destruct (is_dir d1 p) eqn:Hdir.
    { injection Hw as <-.
      rewrite (replays_is_dir final written d1 d2); done. }
    rewrite Hpar in Hw. simpl in Hw. case_bool_decide as Hden; [|done].
    injection Hw as <-.
    assert (is_dir d2 p = false) as ->.
    { apply not_true_iff_false. rewrite is_dir_spec. intros [Hp|Hp].
      - apply not_true_iff_false in Hdir. apply Hdir, is_dir_spec. by left.
      - rewrite Hn in Hp. case_decide as Hin.
        + destruct (Hwr _ Hin) as [c Hc]. congruence.
        + destruct Hg as [_ Hg]. specialize (Hg p).
          destruct (nodes d1 !! p) as [[|c]|] eqn:Hp1.
          * apply not_true_iff_false in Hdir. apply Hdir, is_dir_spec. by right.
          * destruct Hg as [c' Hc']. congruence.
          * rewrite Hg in Hp; done. }
    rewrite Hpar2. simpl. rewrite bool_decide_true; [done|].
    by rewrite Hd, <- Hd1.
Qed.

End OsFacts.

(** * Properties of the Materializer *)
Module MaterializerSpec.
Import PurePath Os Materializer PathFacts OsFacts Examples.

Section Generic.
Context {fs : Type} {FS : FileSystem fs}.
Implicit Types (st : state fs) (base : path).

Lemma make_parent_files base verbose d st st' :
  make_parent base verbose d st = Some st' →
  files_created st' = files_created st.
Proof.
  unfold make_parent. case_decide; [|by intros [= <-]].
  destruct (mkdir _ _); [|done]. simpl.
  destruct verbose; [destruct (relative_to _ _); [|done]|]; by intros [= <-].
Qed.

Lemma make_parent_dirs base verbose d st st' :
  make_parent base verbose d st = Some st' →
  dirs_created st' =
  dirs_created st ∪ (if decide (d ≠ base) then {[to_str d]} else ∅).
Proof.
  unfold make_parent. case_decide as Hg.
  - destruct Hg as [Hne _]. destruct (mkdir _ _); [|done]. simpl.
    rewrite decide_True by done.
    destruct verbose; [destruct (relative_to _ _); [|done]|];
      intros [= <-]; simpl; set_solver.
  - intros [= <-]. case_decide; [|set_solver].
    apply not_and_l in Hg as [Hg|Hg]; [done|].
    apply dec_stable in Hg. set_solver.
Qed.

Lemma make_parent_errors base verbose d st st' :
  make_parent base verbose d st = Some st' →
  error_log (stdout st') = error_log (stdout st).
Proof.
  unfold make_parent. case_decide; [|by intros [= <-]].
  destruct (mkdir _ _); [|done]. simpl.
  destruct verbose; [destruct (relative_to _ _); [|done]|]; intros [= <-];
    [|done].
  unfold error_log. simpl. rewrite omap_app. simpl. by rewrite app_nil_r.
Qed.

Lemma write_entry_dirs verbose full file_path content st :
  dirs_created (write_entry verbose full file_path content st) = dirs_created st.
Proof. unfold write_entry. by destruct (write_text _ _ _). Qed.

(** Every entry is either counted as written or reported as failed. *)
Lemma write_entry_accounting verbose full file_path content st :
  let st' := write_entry verbose full file_path content st in
  length (files_created st') + length (error_log (stdout st'))
  = S (length (files_created st) + length (error_log (stdout st))).
Proof.
  unfold write_entry, error_log. destruct (write_text _ _ _); simpl;
    rewrite omap_app, !length_app; [destruct verbose|]; simpl; lia.
Qed.

Lemma process_entries_accounting base verbose es st st' :
  process_entries base verbose es st = Some st' →
  length (files_created st') + length (error_log (stdout st'))
  = length (files_created st) + length (error_log (stdout st)) + length es.
Proof.
  revert st. induction es as [|[file_path content] es IH]; intros st; simpl.
  - intros [= <-]. lia.
  - destruct (make_parent _ _ _ _) as [st1|] eqn:Hmp; [|done]. simpl.
    intros Hrest. rewrite (IH _ Hrest).
    pose proof (write_entry_accounting verbose
      (joinpath base (parse file_path)) file_path content st1) as Hw.
    simpl in Hw. rewrite Hw.
    rewrite (make_parent_files _ _ _ _ _ Hmp),
      (make_parent_errors _ _ _ _ _ Hmp). lia.
Qed.

(** ** C6: a failed write does not stop the run *)

(** C6: when the write of one entry fails, the loop body catches the
    failure and returns normally: the state it returns has the error line
    for that entry appended to the output and the list of files written
    unchanged, the loop goes on with the remaining entries from that
    state, and in a run that completes the failed entry adds to the error
    lines and not to the count of files written. *)
Theorem write_failure_contained base verbose st file_path content st1 e disk' :
  let full_path := joinpath base (parse file_path) in
  make_parent base verbose (parent full_path) st = Some st1 →
  write_text (disk st1) full_path content = Failed e disk' →
  let st2 := State disk' (dirs_created st1) (files_created st)
               (stdout st1 ++ [ErrorCreating file_path e]) in
  process_entry base verbose st (file_path, content) = Some st2
  ∧ (∀ rest, process_entries base verbose ((file_path, content) :: rest) st
             = process_entries base verbose rest st2)
  ∧ (∀ rest st', process_entries base verbose rest st2 = Some st' →
       length (files_created st') + length (error_log (stdout st'))
       = length (files_created st) + length (error_log (stdout st))
         + S (length rest)).
Proof.
  intros full_path Hmp Hw st2.
  assert (process_entry base verbose st (file_path, content) = Some st2) as Hp.
  { unfold process_entry. fold full_path. rewrite Hmp. simpl.
    unfold write_entry. rewrite Hw.
    by rewrite (make_parent_files _ _ _ _ _ Hmp). }
  split; [done|]. split.
  - intros rest. cbn [process_entries]. by rewrite Hp.
  - intros rest st' Hrest.
    rewrite (process_entries_accounting _ _ _ _ _ Hrest). unfold st2. simpl.
    unfold error_log at 1. rewrite omap_app. simpl. rewrite length_app. simpl.
    fold (error_log (stdout st1)).
    rewrite (make_parent_errors _ _ _ _ _ Hmp). lia.
Qed.

Lemma process_entries_dirs base verbose es st st' :
  process_entries base verbose es st = Some st' →
  dirs_created st' = dirs_created st ∪ ⋃ (parent_record base <$> es.*1).
Proof.
  revert st. induction es as [|[file_path content] es IH]; intros st; simpl.
  - intros [= <-]. set_solver.
  - destruct (make_parent _ _ _ _) as [st1|] eqn:Hmp; [|done]. simpl.
    intros Hrest. rewrite (IH _ Hrest), write_entry_dirs.
    rewrite (make_parent_dirs _ _ _ _ _ Hmp). unfold parent_record, parent_of.
    set_solver.
Qed.

Lemma parent_of_wf base file_path : wf base → wf (parent_of base file_path).
Proof. intros Hb. apply parent_wf, joinpath_wf; [done|apply parse_wf]. Qed.

Lemma elem_of_recorded base (keys : list text) s :
  s ∈ ⋃ (parent_record base <$> keys) ↔
  ∃ k, k ∈ keys ∧ parent_of base k ≠ base ∧ s = to_str (parent_of base k).
Proof.
  rewrite elem_of_union_list. split.
  - intros (X & (k & -> & Hk)%list_elem_of_fmap & Hs). exists k.
    unfold parent_record in Hs. case_decide; set_solver.
  - intros (k & Hk & Hne & ->). exists (parent_record base k). split.
    + apply list_elem_of_fmap. eauto.
    + unfold parent_record. rewrite decide_True by done. set_solver.
Qed.

(** The base directory itself is never recorded. *)
Lemma base_not_recorded base (keys : list text) :
  wf base → to_str base ∉ ⋃ (parent_record base <$> keys).
Proof.
  intros Hb (k & _ & Hne & Heq)%elem_of_recorded. apply Hne. symmetry.
  apply to_str_inj; [done|by apply parent_of_wf|done].
Qed.

(** *** The creation records of a verbose run *)

Lemma make_parent_log base d st st' ds :
  wf d → log_inv base ds st →
  make_parent base true d st = Some st' →
  ∃ ds', log_inv base ds' st'.
Proof.
  intros Hd (Hwf & Hnd & Hdirs & Hlog). unfold make_parent.
  case_decide as Hg; [|intros [= <-]; by exists ds].
  destruct Hg as [Hne Hnew]. destruct (mkdir _ _) as [disk'|]; [|done]. simpl.
  destruct (relative_to d base) as [rel|] eqn:Hrel; [|done]. intros [= <-].
  exists (ds ++ [d]). unfold log_inv. simpl. repeat split.
  - apply Forall_app. split; [done|by constructor].
  - apply NoDup_app. repeat split; [done| |apply NoDup_singleton].
    intros x Hx ->%list_elem_of_singleton. apply Hnew. rewrite Hdirs.
    apply elem_of_list_to_set, list_elem_of_fmap. eauto.
  - rewrite Hdirs, fmap_app, list_to_set_app_L. simpl. set_solver.
  - unfold dir_log. rewrite omap_app. simpl. apply Forall2_app; [done|].
    constructor; [eauto|constructor].
Qed.

Lemma write_entry_log base verbose full file_path content st ds :
  log_inv base ds st →
  log_inv base ds (write_entry verbose full file_path content st).
Proof.
  intros (Hwf & Hnd & Hdirs & Hlog). unfold log_inv, write_entry.
  destruct (write_text _ _ _); simpl; repeat split; try done;
    unfold dir_log; rewrite omap_app; [destruct verbose|]; simpl;
    by rewrite app_nil_r.
Qed.

Lemma process_entries_log base es st st' ds :
  wf base → log_inv base ds st →
  process_entries base true es st = Some st' →
  ∃ ds', log_inv base ds' st'.
Proof.
  intros Hb. revert st ds.
  induction es as [|[file_path content] es IH]; intros st ds Hinv; simpl.
  - intros [= <-]. eauto.
  - destruct (make_parent _ _ _ _) as [st1|] eqn:Hmp; [|done]. simpl.
    apply make_parent_log with (ds := ds) in Hmp as [ds1 Hinv1];
      [|by apply parent_of_wf|done].
    apply IH with (ds := ds1). by apply write_entry_log.
Qed.

Lemma relative_to_inj base d1 d2 r1 r2 :
  wf d1 → wf d2 →
  relative_to d1 base = Some r1 → relative_to d2 base = Some r2 →
  to_str r1 = to_str r2 → d1 = d2.
Proof.
  intros H1 H2 Hr1 Hr2 Heq.
  assert (r1 = r2) as ->.
  { apply to_str_inj; [by eapply relative_to_wf..|done]. }
  apply relative_to_Some in Hr1 as (_ & Ha1 & Hp1).
  apply relative_to_Some in Hr2 as (_ & Ha2 & Hp2).
  destruct d1, d2. simpl in *. congruence.
Qed.

Lemma log_inv_NoDup base ds st :
  log_inv base ds st →
  NoDup (dir_log (stdout st))
  ∧ length (dir_log (stdout st)) = size (dirs_created st).
Proof.
  intros (Hwf & Hnd & Hdirs & Hlog). split.
  - clear Hdirs. induction Hlog as [|d r ds rs (rel & Hrel & ->) Hlog IH];
      [constructor|].
    apply Forall_cons in Hwf as [Hd Hwf]. apply NoDup_cons in Hnd as [Hnin Hnd].
    constructor; [|by apply IH].
    intros Hin. apply list_elem_of_lookup in Hin as [i Hi].
    destruct (Forall2_lookup_r _ _ _ _ _ Hlog Hi) as (d' & Hd' & rel' & Hrel' & Heq).
    apply Hnin. replace d with d'; [by eapply list_elem_of_lookup_2|].
    eapply relative_to_inj; [| |done..]; [|done].
    rewrite Forall_forall in Hwf. eapply Hwf, list_elem_of_lookup_2. done.
  - rewrite Hdirs, size_list_to_set.
    + rewrite length_fmap. symmetry. by eapply Forall2_length.
    + apply NoDup_fmap_2_strong; [|done].
      intros d1 d2 H1 H2. rewrite Forall_forall in Hwf.
      apply to_str_inj; auto.
Qed.

(** The records of a verbose run are those of the directories recorded
    as created. *)
Lemma log_inv_elem base ds st r :
  log_inv base ds st →
  r ∈ dir_log (stdout st) ↔
  ∃ d rel, wf d ∧ to_str d ∈ dirs_created st
           ∧ relative_to d base = Some rel ∧ r = to_str rel.
Proof.
  intros (Hwf & Hnd & Hdirs & Hlog). rewrite Forall_forall in Hwf. split.
  - intros [i Hi]%list_elem_of_lookup.
    destruct (Forall2_lookup_r _ _ _ _ _ Hlog Hi) as (d & Hd & rel & Hrel & ->).
    apply list_elem_of_lookup_2 in Hd. exists d, rel. repeat split; auto.
    rewrite Hdirs. apply elem_of_list_to_set, list_elem_of_fmap. eauto.
  - intros (d & rel & Hd & Hin & Hrel & ->). rewrite Hdirs in Hin.
    apply elem_of_list_to_set, list_elem_of_fmap in Hin as (d0 & Heq & Hd0).
    apply to_str_inj in Heq as ->; [|done|auto].
    apply list_elem_of_lookup in Hd0 as [i Hi].
    destruct (Forall2_lookup_l _ _ _ _ _ Hlog Hi) as (r & Hr & rel' & Hrel' & ->).
    rewrite Hrel in Hrel'. injection Hrel' as <-.
    by eapply list_elem_of_lookup_2.
Qed.

Lemma log_inv_init base (disk0 : fs) : log_inv base [] (State disk0 ∅ [] []).
Proof. repeat split; simpl; try constructor. Qed.

Lemma process_entries_records base_dir es (disk1 : fs) st :
  let base := parse base_dir in
  process_entries base true es (State disk1 ∅ [] []) = Some st →
  NoDup (dir_log (stdout st))
  ∧ length (dir_log (stdout st)) = size (dirs_created st)
  ∧ (∀ r, r ∈ dir_log (stdout st) ↔
       ∃ k rel, k ∈ es.*1 ∧ parent_of base k ≠ base
                ∧ relative_to (parent_of base k) base = Some rel
                ∧ r = to_str rel).
Proof.
  intros base Hrun. pose proof (parse_wf base_dir) as Hb. fold base in Hb.
  destruct (process_entries_log base es _ st [] Hb (log_inv_init _ _) Hrun)
    as [ds Hinv].
  destruct (log_inv_NoDup _ _ _ Hinv) as [Hnd Hlen].
  split; [done|]. split; [done|]. intros r.
  rewrite (log_inv_elem _ _ _ _ Hinv).
  rewrite (process_entries_dirs _ _ _ _ _ Hrun). simpl. split.
  - intros (d & rel & Hd & Hin & Hrel & ->).
    apply elem_of_union in Hin as [Hin|Hin]; [set_solver|].
    apply elem_of_recorded in Hin as (k & Hk & Hne & Heq).
    apply to_str_inj in Heq as ->; [|done|by apply parent_of_wf]. eauto 10.
  - intros (k & rel & Hk & Hne & Hrel & ->).
    exists (parent_of base k), rel. repeat split; [by apply parent_of_wf| |done].
    apply elem_of_union. right. apply elem_of_recorded. eauto.
Qed.

End Generic.

Lemma write_failure_contained_witness :
  let st := State locked_disk ∅ [] [] in
  let st2 := State locked_disk ∅ [] [ErrorCreating (txt "a.txt") PermissionError] in
  process_entry out true st (txt "a.txt", txt "x") = Some st2
  ∧ ∀ rest, process_entries out true ((txt "a.txt", txt "x") :: rest) st
            = process_entries out true rest st2.
Proof.
  intros st st2.
  destruct (write_failure_contained out true st (txt "a.txt") (txt "x") st
              PermissionError locked_disk) as (H1 & H2 & _);
    [vm_compute; reflexivity..|].
  exact (conj H1 H2).
Defined.

(** A computation that returns, returns what [default] reads off it. *)
Lemma default_Some {A} (o : option A) (x : A) :
  match o with Some _ => true | None => false end = true →
  o = Some (default x o).
Proof. by destruct o. Qed.

Lemma default_snd {A B} (o : option (A * B)) (a : A) (x : B) :
  fst <$> o = Some a → o = Some (a, default x (snd <$> o)).
Proof. destruct o as [[a' b]|]; simpl; [|done]. by intros [= ->]. Qed.

(** The keys that [sorted] hands to the loop are those of the mapping. *)
Lemma sorted_items_keys (files_dict : gmap text text) k :
  k ∈ (sorted_items files_dict).*1 ↔ k ∈ dom files_dict.
Proof.
  unfold sorted_items. rewrite merge_sort_Permutation.
  rewrite elem_of_dom. split.
  - intros ([k' v] & -> & Hkv%elem_of_map_to_list)%list_elem_of_fmap. eauto.
  - intros [v Hv]. apply list_elem_of_fmap. exists (k, v).
    split; [done|]. by apply elem_of_map_to_list.
Qed.

(** ** C8: one creation record per parent directory *)

(** C8: in a verbose run over any list of entries, in any order, every
    parent directory distinct from the root has exactly one creation
    record, however many files share it: the records are without
    duplicates, there are as many as directories recorded as created, and
    they are the root-relative parents of the entries; processing the
    entries in another order gives the same set of directories and the
    same records up to order.  In particular the entries of
    [{"a/b/c.txt": "x", "a/b/d.txt": "y"}] yield the single record [a/b]
    in either order, and so does the Materializer on that mapping. *)
Theorem parent_recorded_once :
  (∀ (fs : Type) (FS : FileSystem fs) (base_dir : text)
     (es es' : list (text * text)) (disk1 disk1' : fs) (st st' : state fs),
     let base := parse base_dir in
     process_entries base true es (State disk1 ∅ [] []) = Some st →
     (NoDup (dir_log (stdout st))
      ∧ length (dir_log (stdout st)) = size (dirs_created st)
      ∧ ∀ r, r ∈ dir_log (stdout st) ↔
          ∃ k rel, k ∈ es.*1 ∧ parent_of base k ≠ base
                   ∧ relative_to (parent_of base k) base = Some rel
                   ∧ r = to_str rel)
     ∧ (es' ≡ₚ es →
        process_entries base true es' (State disk1' ∅ [] []) = Some st' →
        dirs_created st' = dirs_created st
        ∧ dir_log (stdout st') ≡ₚ dir_log (stdout st)))
  ∧ (∀ es, es ∈ [two_files_forward; two_files_backward] →
       (λ st, (dir_log (stdout st), elements (dirs_created st)))
         <$> process_entries out true es (State out_disk ∅ [] [])
       = Some ([txt "a/b"], [txt "out/a/b"]))
  ∧ (λ r, (r.1, dir_log (stdout r.2)))
      <$> create_project_structure two_files (txt "out") true empty_disk
    = Some ((1, 2), [txt "a/b"]).
Proof.
  split; [|split].
  - intros fs FS base_dir es es' disk1 disk1' st st' base Hrun.
    pose proof (process_entries_records base_dir es disk1 st Hrun)
      as (Hnd & Hlen & Hel).
    split; [done|]. intros Hperm Hrun'.
    pose proof (process_entries_records base_dir es' disk1' st' Hrun')
      as (Hnd' & _ & Hel').
    split.
    + rewrite (process_entries_dirs _ _ _ _ _ Hrun),
        (process_entries_dirs _ _ _ _ _ Hrun'). simpl.
      apply set_eq. intros s. rewrite !elem_of_union, !elem_of_recorded.
      by setoid_rewrite Hperm.
    + apply NoDup_Permutation; [done..|]. intros r. rewrite Hel, Hel'.
      by setoid_rewrite Hperm.
  - intros es [->|[->|[]%elem_of_nil]%elem_of_cons]%elem_of_cons;
      vm_compute; reflexivity.
  - vm_compute. reflexivity.
Qed.

Lemma parent_recorded_once_witness :
  NoDup (dir_log (stdout forward_run))
  ∧ length (dir_log (stdout forward_run)) = size (dirs_created forward_run)
  ∧ dirs_created backward_run = dirs_created forward_run
  ∧ dir_log (stdout backward_run) ≡ₚ dir_log (stdout forward_run).
Proof.
  destruct (proj1 parent_recorded_once memfs _ (txt "out") two_files_forward
              two_files_backward out_disk out_disk forward_run backward_run)
    as [(H1 & H2 & _) H3].
  - apply default_Some. vm_compute. reflexivity.
  - destruct H3 as [H3 H4].
    + apply perm_swap.
    + apply default_Some. vm_compute. reflexivity.
    + exact (conj H1 (conj H2 (conj H3 H4))).
Defined.

(** ** C9: what the directory count counts *)



(** ** C7: running twice *)

Lemma loop_inv_grows base st d' :
  loop_inv base st → grows (disk st) d' → loop_inv base (set_disk d' st).
Proof.
  intros [Hb Hd] Hg. split; simpl; [by eapply is_dir_grows|].
  intros d Hwf Hin. eapply is_dir_grows; eauto.
Qed.

Lemma make_parent_mem base verbose d st st1 :
  wf d → loop_inv base st →
  make_parent base verbose d st = Some st1 →
  loop_inv base st1 ∧ grows (disk st) (disk st1) ∧ is_dir (disk st1) d = true.
Proof.
  intros Hwf Hinv. unfold make_parent. case_decide as Hg.
  - destruct (mkdir (disk st) d) as [d'|] eqn:Hmk; [|done]. simpl in *.
    pose proof (mem_mkdir_is_dir _ _ _ Hmk) as Hdir.
    apply mkdir_chain_grows in Hmk as [Hgr _].
    assert (loop_inv base (State d' ({[to_str d]} ∪ dirs_created st)
              (files_created st) (stdout st)) ) as Hinv'.
    { destruct Hinv as [Hb Hd]. split; simpl; [by eapply is_dir_grows|].
      intros d0 Hwf0 [->%elem_of_singleton%to_str_inj|Hin]%elem_of_union;
        [done|done|done|]. eapply is_dir_grows; eauto. }
    destruct verbose; [destruct (relative_to d base); [|done]|];
      intros [= <-]; (split; [exact Hinv'|split; [exact Hgr|exact Hdir]]).
  - intros [= <-]. split; [done|]. split; [apply grows_refl|].
    destruct Hinv as [Hb Hd]. apply not_and_l in Hg as [Hg|Hg].
    + apply dec_stable in Hg. by subst d.
    + apply dec_stable in Hg. auto.
Qed.

Lemma write_entry_grows verbose full file_path content st :
  grows (disk st) (disk (write_entry verbose full file_path content st)).
Proof.
  unfold write_entry. pose proof (mem_write_grows (disk st) full content) as H.
  simpl. by destruct (mem_write _ _ _).
Qed.

Lemma write_entry_mem base verbose full file_path content st :
  loop_inv base st →
  loop_inv base (write_entry verbose full file_path content st).
Proof.
  intros Hinv.
  pose proof (write_entry_grows verbose full file_path content st) as Hg.
  pose proof (loop_inv_grows _ _ _ Hinv Hg) as [Hb Hd].
  split; [done|]. intros d Hwf Hin. apply Hd; [done|]. simpl.
  by rewrite write_entry_dirs in Hin.
Qed.

Lemma process_entries_grows base verbose es st st' :
  wf base → loop_inv base st →
  process_entries base verbose es st = Some st' → grows (disk st) (disk st').
Proof.
  intros Hb. revert st. induction es as [|[file_path content] es IH];
    intros st Hinv; simpl.
  - intros [= <-]. apply grows_refl.
  - destruct (make_parent _ _ _ _) as [st1|] eqn:Hmp; [|done]. simpl.
    apply make_parent_mem in Hmp as (Hinv1 & Hg1 & _);
      [|by apply parent_of_wf|done].
    intros Hrest. eapply grows_trans; [done|].
    eapply grows_trans; [apply write_entry_grows|].
    eapply IH; [|done]. by apply write_entry_mem.
Qed.

Lemma replays_make_parent final written base verbose d st st1 d2 :
  replays final written (disk st) d2 →
  make_parent base verbose d st = Some st1 → grows (disk st1) final →
  make_parent base verbose d (set_disk d2 st) = Some (set_disk d2 st1)
  ∧ replays final written (disk st1) d2.
Proof.
  intros Hr. unfold make_parent. cbn [set_disk disk dirs_created].
  case_decide as Hg.
  - destruct (mkdir (disk st) d) as [d'|] eqn:Hmk; [|done].
    cbn [mbind option_bind].
    assert (grows d' final →
            mem_mkdir d2 d = Some d2 ∧ replays final written d' d2) as Hmk2.
    { intros Hgr. by eapply replays_mkdir_chain. }
    destruct verbose; [destruct (relative_to d base); simpl; [|done]|];
      intros [= <-] Hgr; simpl in *; destruct (Hmk2 Hgr) as [Hm Hr2];
      unfold mkdir; simpl; rewrite Hm; done.
  - intros [= <-] _. done.
Qed.

Lemma replays_write_entry final written verbose full file_path content st d2 :
  replays final written (disk st) d2 →
  grows (disk (write_entry verbose full file_path content st)) final →
  is_dir (disk st) (parent full) = true →
  ∃ written' d2',
    write_entry verbose full file_path content (set_disk d2 st)
    = set_disk d2' (write_entry verbose full file_path content st)
    ∧ replays final written'
        (disk (write_entry verbose full file_path content st)) d2'.
Proof.
  intros Hr Hg Hpar. unfold write_entry in *. simpl in *.
  pose proof (replays_write final written (disk st) d2 full content Hr) as H.
  destruct (mem_write (disk st) full content) as [d1'|e d1'] eqn:Hw; simpl in *.
  - destruct (H Hg Hpar) as (d2' & -> & Hr'). by exists ({[full]} ∪ written), d2'.
  - destruct (H Hg Hpar) as [-> Hr']. by exists written, d2.
Qed.

Lemma replays_process_entries base verbose es st st' written d2 :
  wf base → loop_inv base st →
  process_entries base verbose es st = Some st' →
  replays (disk st') written (disk st) d2 →
  ∃ written' d2',
    process_entries base verbose es (set_disk d2 st) = Some (set_disk d2' st')
    ∧ replays (disk st') written' (disk st') d2'.
Proof.
  intros Hb. revert st written d2.
  induction es as [|[file_path content] es IH]; intros st written d2 Hinv; simpl.
  - intros [= <-] Hr. by exists written, d2.
  - destruct (make_parent base verbose _ st) as [st1|] eqn:Hmp; [|done]. simpl.
    intros Hrest Hr.
    pose proof (make_parent_mem _ _ _ _ _ (parent_of_wf base file_path Hb)
      Hinv Hmp) as (Hinv1 & Hg1 & Hdir).
    set (full := joinpath base (parse file_path)) in *.
    pose proof (write_entry_mem base verbose full file_path content st1 Hinv1)
      as Hinv2.
    pose proof (process_entries_grows _ _ _ _ _ Hb Hinv2 Hrest) as Hg3.
    pose proof (write_entry_grows verbose full file_path content st1) as Hg2.
    destruct (replays_make_parent _ _ _ _ _ _ _ _ Hr Hmp) as [-> Hr1].
    { eapply grows_trans; [done|done]. }
    simpl.
    destruct (replays_write_entry _ _ verbose full file_path content _ _ Hr1 Hg3
      Hdir) as (written' & d2' & -> & Hr2).
    by eapply IH.
Qed.

Lemma replays_final final written d2 : replays final written final d2 → d2 = final.
Proof.
  intros (Hd & Hn & _). destruct d2, final. simpl in *. f_equal; [|done].
  apply map_eq. intros q. rewrite Hn. by case_decide.
Qed.

Lemma set_disk_same st : set_disk (disk st) st = st.
Proof. by destruct st. Qed.



End MaterializerSpec.

(** * More properties of the string methods *)
Module StrMore.
Import Re StrFacts.

Lemma startswith_true (s p : text) :
  Str.startswith s p = true → s = p ++ drop (length p) s.
Proof.
  revert s. induction p as [|b p IH]; intros s; simpl; [done|].
  destruct s as [|a s]; [done|].
  intros [->%Ascii.eqb_eq H%IH]%andb_true_iff. simpl. by f_equal.
Qed.

Lemma contains_true (p s : text) :
  Str.contains p s = true ↔ ∃ a b, s = a ++ p ++ b.
Proof.
  split.
  - induction s as [|x s IH]; simpl.
    + rewrite orb_false_r. destruct p; [|done]. intros _. by exists [], [].
    + intros [H|H]%orb_true_iff.
      * clear IH. exists []. simpl.
        revert H. generalize (x :: s). clear. intros s.
        revert s. induction p as [|b p IH]; intros s; simpl; [by exists s|].
        destruct s as [|a s]; [done|].
        intros [->%Ascii.eqb_eq [r ->]%IH]%andb_true_iff. by exists r.
      * destruct (IH H) as (a & b & ->). by exists (x :: a), b.
  - intros (a & b & ->). induction a as [|x a IH]; simpl.
    + destruct (p ++ b) eqn:E; simpl.
      * destruct p; [done|done].
      * rewrite <- E. by rewrite startswith_app.
    + by rewrite IH, orb_true_r.
Qed.

(** *** Trimming *)

Lemma lstrip_idemp (s : text) : Str.lstrip (Str.lstrip s) = Str.lstrip s.
Proof.
  induction s as [|a s IH]; simpl; [done|].
  destruct (Str.isspace a) eqn:Ha; [done|]. simpl. by rewrite Ha.
Qed.

Lemma lstrip_suffix (s : text) : Str.lstrip s `suffix_of` s.
Proof.
  induction s as [|a s IH]; simpl; [done|].
  destruct (Str.isspace a); [by apply suffix_cons_r|done].
Qed.

Lemma lstrip_head (s : text) : stops Str.isspace (Str.lstrip s).
Proof.
  induction s as [|a s IH]; simpl; [done|].
  by destruct (Str.isspace a) eqn:Ha.
Qed.

Lemma lstrip_stops (s : text) : stops Str.isspace s → Str.lstrip s = s.
Proof. destruct s as [|a s]; simpl; [done|]. by intros ->. Qed.

Lemma rstrip_idemp (s : text) : Str.rstrip (Str.rstrip s) = Str.rstrip s.
Proof. unfold Str.rstrip. by rewrite rev_involutive, lstrip_idemp. Qed.

Lemma rstrip_prefix (s : text) : Str.rstrip s `prefix_of` s.
Proof.
  unfold Str.rstrip. destruct (lstrip_suffix (rev s)) as [k Hk].
  exists (rev k). apply (f_equal (@rev ascii)) in Hk.
  by rewrite rev_involutive, rev_app_distr in Hk.
Qed.

(** [rstrip] keeps the first character, so it keeps a text that does not
    start with a space in that state. *)
Lemma rstrip_stops (s : text) :
  stops Str.isspace s → stops Str.isspace (Str.rstrip s).
Proof.
  destruct (rstrip_prefix s) as [k Hk]. rewrite Hk at 1.
  by destruct (Str.rstrip s).
Qed.

Lemma strip_idemp (s : text) : Str.strip (Str.strip s) = Str.strip s.
Proof.
  unfold Str.strip.
  rewrite (lstrip_stops (Str.rstrip _)) by apply rstrip_stops, lstrip_head.
  apply rstrip_idemp.
Qed.

Lemma strip_infix (s : text) : ∃ a b, s = a ++ Str.strip s ++ b.
Proof.
  unfold Str.strip. destruct (lstrip_suffix s) as [a Ha].
  destruct (rstrip_prefix (Str.lstrip s)) as [b Hb].
  exists a, b. by rewrite <- Hb.
Qed.

(** *** The order of [sorted] *)

Lemma nat_of_ascii_inj a b : nat_of_ascii a = nat_of_ascii b → a = b.
Proof.
  intros H. apply (f_equal ascii_of_nat) in H.
  by rewrite !ascii_nat_embedding in H.
Qed.

Lemma le_total_cases (s1 s2 : text) : Str.le s1 s2 = true ∨ Str.le s2 s1 = true.
Proof.
  revert s2. induction s1 as [|a s1 IH]; intros [|b s2]; simpl; auto.
  destruct (lt_eq_lt_dec (nat_of_ascii a) (nat_of_ascii b)) as [[H|H]|H].
  - left. apply Nat.ltb_lt in H. by rewrite H.
  - apply nat_of_ascii_inj in H as ->. rewrite Ascii.eqb_refl. simpl.
    destruct (IH s2) as [->| ->]; rewrite orb_true_r; auto.
  - right. apply Nat.ltb_lt in H. by rewrite H.
Qed.

Lemma le_transitive (s1 s2 s3 : text) :
  Str.le s1 s2 = true → Str.le s2 s3 = true → Str.le s1 s3 = true.
Proof.
  revert s2 s3. induction s1 as [|a s1 IH]; intros [|b s2] [|c s3]; simpl;
    try done.
  intros [H1|[->%Ascii.eqb_eq H1]%andb_true_iff]%orb_true_iff
         [H2|[->%Ascii.eqb_eq H2]%andb_true_iff]%orb_true_iff.
  - apply Nat.ltb_lt in H1, H2. apply orb_true_iff. left. apply Nat.ltb_lt. lia.
  - by rewrite H1.
  - by rewrite H2.
  - rewrite Ascii.eqb_refl, (IH _ _ H1 H2). apply orb_true_r.
Qed.

Lemma le_antisymmetric (s1 s2 : text) :
  Str.le s1 s2 = true → Str.le s2 s1 = true → s1 = s2.
Proof.
  revert s2. induction s1 as [|a s1 IH]; intros [|b s2]; simpl; try done.
  intros [H1|[->%Ascii.eqb_eq H1]%andb_true_iff]%orb_true_iff
         [H2|[E%Ascii.eqb_eq H2]%andb_true_iff]%orb_true_iff.
  - apply Nat.ltb_lt in H1, H2. lia.
  - subst. apply Nat.ltb_lt in H1. lia.
  - apply Nat.ltb_lt in H2. lia.
  - f_equal. by apply IH.
Qed.

#[export] Instance by_key_total :
  Total (λ x y : text * text, Is_true (Str.le x.1 y.1)).
Proof.
  intros x y. destruct (le_total_cases x.1 y.1) as [H|H]; rewrite H; simpl; auto.
Qed.

#[export] Instance by_key_trans :
  Transitive (λ x y : text * text, Is_true (Str.le x.1 y.1)).
Proof.
  intros x y z H1%Is_true_true H2%Is_true_true. apply Is_true_true.
  by eapply le_transitive.
Qed.

#[export] Instance str_le_total : Total (λ k1 k2 : text, Is_true (Str.le k1 k2)).
Proof.
  intros x y. destruct (le_total_cases x y) as [H|H]; rewrite H; simpl; auto.
Qed.

#[export] Instance str_le_trans :
  Transitive (λ k1 k2 : text, Is_true (Str.le k1 k2)).
Proof.
  intros x y z H1%Is_true_true H2%Is_true_true. apply Is_true_true.
  by eapply le_transitive.
Qed.

#[export] Instance str_le_antisym :
  AntiSymm (=) (λ k1 k2 : text, Is_true (Str.le k1 k2)).
Proof.
  intros x y H1%Is_true_true H2%Is_true_true. by apply le_antisymmetric.
Qed.

End StrMore.

(** * More properties of the matcher *)
Module ReMore.
Import Re StrFacts ReFacts.

Section Priority.
Context {R : Type}.
Implicit Types (k : text → option R) (x : R).

(** Lazy repetition stops at the first position where the rest matches:
    the rest matches at no earlier position. *)
Lemma rep_lazy_min p k s x :
  rep_lazy p 0 k s = Some x →
  ∃ w s', s = w ++ s' ∧ forallb p w = true ∧ k s' = Some x
          ∧ ∀ u v, w = u ++ v → v ≠ [] → k (v ++ s') = None.
Proof.
  induction s as [|a s IH].
  - simpl. destruct (k []) eqn:Hk; [|done]. intros [= ->].
    exists [], []. repeat split; [done|]. intros u v Huv Hv.
    by destruct u, v.
  - cbn [rep_lazy]. destruct (k (a :: s)) as [y|] eqn:Hk.
    + intros [= ->]. exists [], (a :: s). repeat split; [done|].
      intros u v Huv Hv. by destruct u, v.
    + destruct (p a) eqn:Hp; [|done]. simpl.
      intros (w & s' & -> & Hw & Hks & Hmin)%IH.
      exists (a :: w), s'. simpl. rewrite Hp, Hw. repeat split; [done|].
      intros u v Huv Hv. destruct u as [|b u].
      * simpl in Huv. by subst v.
      * injection Huv as _ ->. by apply (Hmin u v).
Qed.

Lemma run_seq_sound r rs s c (k : text → marks → option R) x :
  run (seq (r :: rs)) s c k = Some x →
  ∃ w1 s1 c1, s = w1 ++ s1 ∧ sem r w1 c c1 ∧ run (seq rs) s1 c1 k = Some x.
Proof. rewrite run_seq_cons. apply run_sound. Qed.

End Priority.

(** A pattern that ends with [r] matches [r] at the end of what it
    matches, with the continuation of the whole. *)
Lemma run_seq_last {R} rs r s c (k : text → marks → option R) x :
  run (seq (rs ++ [r])) s c k = Some x →
  ∃ w s1 c1, s = w ++ s1 ∧ run r s1 c1 k = Some x.
Proof.
  revert s c. induction rs as [|r0 rs IH]; intros s c.
  - intros H. by exists [], s, c.
  - intros (w1 & s1 & c1 & -> & _ & H)%run_seq_sound.
    destruct (IH _ _ H) as (w & s2 & c2 & -> & H2).
    exists (w1 ++ w), s2, c2. by rewrite <- app_assoc.
Qed.

(** Each group of a match holds a piece of the matched text. *)
Lemma sem_marks_infix r w c c' i v :
  sem r w c c' → c' !! i = Some v →
  c !! i = Some v ∨ ∃ a b, w = a ++ v ++ b.
Proof.
  revert w c c'. induction r as [|cs|cs min greedy|r IH|r1 IH1 r2 IH2
    |r1 IH1 r2 IH2|j r IH]; intros w c c'; simpl.
  - intros [_ ->]. auto.
  - intros (a & _ & _ & ->). auto.
  - intros (_ & _ & ->). auto.
  - intros [H|[_ ->]]; eauto.
  - intros (w1 & w2 & c1 & -> & H1 & H2) Hv.
    destruct (IH2 _ _ _ H2 Hv) as [Hc1|(a & b & ->)].
    + destruct (IH1 _ _ _ H1 Hc1) as [?|(a & b & ->)]; [by left|right].
      exists a, (b ++ w2). by rewrite <- !app_assoc.
    + right. exists (w1 ++ a), b. by rewrite <- !app_assoc.
  - intros [H|H]; eauto.
  - intros (c1 & H & ->) Hv. destruct (decide (j = i)) as [->|Hne].
    + rewrite lookup_insert_eq in Hv. injection Hv as ->. right.
      exists [], []. by rewrite app_nil_r.
    + rewrite lookup_insert_ne in Hv by done. eauto.
Qed.

(** The matches [findall] reports start at suffixes of the text. *)
Lemma findall_from_suffix r (P : text * text * text → Prop) skip s :
  (∀ s0 c rest, s0 `suffix_of` s → match_at r s0 = Some (c, rest) →
     P (group c 1, group c 2, group c 3)) →
  Forall P (findall_from r skip s).
Proof.
  revert skip. induction s as [|a s IH]; intros skip HP.
  - destruct skip; simpl; [|done].
    destruct (match_at r []) as [[c rest]|] eqn:Hm; [|done].
    constructor; [eauto|done].
  - assert (∀ k, Forall P (findall_from r k s)) as Hs.
    { intros k. apply IH. intros s0 c rest Hs0. apply HP.
      by apply suffix_cons_r. }
    destruct skip; simpl; [|done].
    destruct (match_at r (a :: s)) as [[c rest]|] eqn:Hm; [|done].
    constructor; [eauto|done].
Qed.

(** A pattern that starts with a literal finds nothing in a text without
    the first character of that literal. *)
Lemma findall_lit_prefix str rs (x : ascii) (pre s : text) :
  head (txt str) = Some x → x ∉ pre →
  findall (seq (lit str :: rs)) (pre ++ s) = findall (seq (lit str :: rs)) s.
Proof.
  intros Hstr Hx. unfold findall. induction pre as [|a pre IH]; [done|].
  apply not_elem_of_cons in Hx as [Hne Hx].
  cbn [app findall_from]. unfold match_at at 1. rewrite run_seq_cons, run_lit.
  destruct (txt str) as [|b l]; [done|]. injection Hstr as ->.
  cbn [Str.startswith]. destruct (Ascii.eqb_spec a x) as [->|]; [done|].
  cbn. by apply IH.
Qed.

End ReMore.

(** * More properties of the Extractor *)
Module ExtractorMore.
Import Re StrFacts ReFacts Extractor ExtractorSpec Layout Examples MoreExamples.
Import StrMore ReMore.

(** *** Where the entries come from *)

Lemma fold_store_value (ms : list (text * text * text)) d k v :
  fold_left store ms d !! k = Some v →
  d !! k = Some v
  ∨ ∃ m, m ∈ ms ∧ k = Str.strip m.1.1 ∧ v = Str.strip m.2 ∧ keeps v = true.
Proof.
  revert d. induction ms as [|[[g1 g2] g3] ms IH]; intros d; cbn [fold_left];
    [auto|].
  intros [H|(m & Hm & Hk)]%IH.
  - rewrite store_keeps in H. destruct (keeps (Str.strip g3)) eqn:Hkeep; [|by left].
    destruct (decide (Str.strip g1 = k)) as [<-|Hne].
    + rewrite lookup_insert_eq in H. injection H as <-. right.
      exists (g1, g2, g3). split; [apply list_elem_of_here|done].
    + rewrite lookup_insert_ne in H by done. by left.
  - right. exists m. split; [by apply list_elem_of_further|done].
Qed.

Lemma extract_value markdown_content k v :
  extract_files_from_markdown markdown_content !! k = Some v →
  ∃ m, m ∈ all_matches markdown_content
       ∧ k = Str.strip m.1.1 ∧ v = Str.strip m.2 ∧ keeps v = true.
Proof.
  rewrite extract_fold. intros [H|H]%fold_store_value; [|done].
  by rewrite lookup_empty in H.
Qed.

Lemma elem_of_all_matches markdown_content m :
  m ∈ all_matches markdown_content →
  ∃ pattern, pattern ∈ [pattern1; pattern2; pattern3]
             ∧ m ∈ findall pattern markdown_content.
Proof.
  unfold all_matches. cbn [fmap list_fmap concat]. rewrite app_nil_r.
  intros [H|[H|H]%elem_of_app]%elem_of_app;
    [exists pattern1|exists pattern2|exists pattern3]; (split; [|done]);
    repeat ((by apply list_elem_of_here) || apply list_elem_of_further).
Qed.

(** No closing fence starts inside a body that lazy repetition stopped
    after. *)
Lemma no_fence_inside (w post : text) :
  (∀ u v, w = u ++ v → v ≠ [] →
     Str.startswith (v ++ txt "```" ++ post) (txt "```") = false) →
  Str.contains (txt "```") (w ++ txt "``") = false.
Proof.
  induction w as [|a w IH]; intros H; [done|].
  cbn [app Str.contains]. apply orb_false_iff. split.
  - change (a :: w ++ txt "``") with ((a :: w) ++ txt "``").
    rewrite <- (fence_window _ post) by done. by apply (H []).
  - apply IH. intros u v -> Hv. by apply (H (a :: u)).
Qed.

(** What the fenced part of a pattern has matched when the pattern
    matches: an opening fence, a language tag and white space, a newline,
    the body up to the next closing fence, and that fence. *)
Lemma fence_sound s c c' rest :
  run fence s c (λ s' c', Some (c', s')) = Some (c', rest) →
  ∃ head body,
    s = txt "```" ++ head ++ nl :: body ++ txt "```" ++ rest
    ∧ forallb (λ a, Str.isword a || Str.isspace a) head = true
    ∧ c' = <[3 := body]> c
    ∧ Str.contains (txt "```") (body ++ txt "``") = false.
Proof.
  unfold fence. rewrite run_seq_cons, run_lit.
  destruct (Str.startswith s (txt "```")) eqn:Hs; [|done].
  apply startswith_true in Hs. revert Hs. generalize (drop (length (txt "```")) s).
  intros s1 -> (w1 & s2 & c1 & -> & H1 & H)%run_seq_sound.
  assert (forallb Str.isword w1 = true ∧ c1 = c) as [Hw1 ->].
  { destruct H1 as [(? & _ & ->)|[-> ->]]; done. }
  apply run_seq_sound in H as (w2 & s3 & c2 & -> & (Hw2 & _ & ->) & H).
  rewrite run_seq_cons in H. cbn [run] in H.
  destruct s3 as [|a s3]; [done|].
  destruct (cmatch (Lit nl) a) eqn:Ha; [|done].
  apply Ascii.eqb_eq in Ha as ->.
  rewrite run_seq_cons in H. cbn [run] in H.
  apply rep_lazy_min in H as (body & s4 & -> & _ & H & Hmin).
  rewrite run_seq_cons, run_lit, run_seq_nil in H.
  destruct (Str.startswith s4 (txt "```")) eqn:Hs4; [|done].
  apply startswith_true in Hs4. rewrite Hs4 in H, Hmin |- *.
  revert H Hmin. generalize (drop (length (txt "```")) s4). intros s5 H Hmin.
  rewrite consumed_app in H. injection H as <- <-.
  exists (w1 ++ w2), body. split; [by rewrite <- !app_assoc|].
  split; [|split; [done|]].
  - rewrite forallb_app. apply andb_true_iff. split.
    + apply forallb_forall. intros a Ha. rewrite forallb_forall in Hw1.
      by rewrite (Hw1 a Ha).
    + apply forallb_forall. intros a Ha. rewrite forallb_forall in Hw2.
      specialize (Hw2 a Ha). simpl in Hw2. rewrite Hw2. apply orb_true_r.
  - apply (no_fence_inside _ s5). intros u v Huv Hv.
    specialize (Hmin u v Huv Hv). rewrite run_seq_cons, run_lit in Hmin.
    by destruct (Str.startswith (v ++ txt "```" ++ s5) (txt "```")).
Qed.

(** The three patterns end with the fenced block. *)
Lemma pattern_fence pattern s c rest :
  pattern ∈ [pattern1; pattern2; pattern3] →
  match_at pattern s = Some (c, rest) →
  ∃ pre head,
    s = pre ++ txt "```" ++ head ++ nl :: group c 3 ++ txt "```" ++ rest
    ∧ forallb (λ a, Str.isword a || Str.isspace a) head = true
    ∧ Str.contains (txt "```") (group c 3 ++ txt "``") = false.
Proof.
  intros Hp Hm.
  assert (∃ rs, pattern = seq (rs ++ [fence])) as [rs ->].
  { repeat (apply elem_of_cons in Hp as [->|Hp]); [| | |by apply elem_of_nil in Hp].
    - by exists [lit "**"; Group 1 (seq [Rep (Not "*") 1 true; lit "."; ext]);
               lit "**"; Rep Space 0 true;
               Opt (seq [lit "["; Rep Any 0 false; lit "]"]); Rep Space 0 true].
    - by exists [lit "##"; Opt (lit "#"); Rep Space 1 true;
               Group 1 (seq [Rep (Not nl) 1 true; lit "."; ext]);
               Rep Space 0 true; Chr (Lit nl)].
    - by exists [lit "`"; Group 1 (seq [Rep (Not "`") 1 true; lit "."; ext]);
               lit "`"; Rep Space 0 true]. }
  apply run_seq_last in Hm as (pre & s1 & c1 & -> & Hm).
  apply fence_sound in Hm as (head & body & -> & Hhead & -> & Hfree).
  exists pre, head. unfold group. rewrite lookup_insert_eq. done.
Qed.

Lemma all_matches_fence markdown_content m :
  m ∈ all_matches markdown_content →
  ∃ pre head post,
    markdown_content = pre ++ txt "```" ++ head ++ nl :: m.2 ++ txt "```" ++ post
    ∧ forallb (λ a, Str.isword a || Str.isspace a) head = true
    ∧ Str.contains (txt "```") (m.2 ++ txt "``") = false.
Proof.
  intros (pattern & Hp & Hm)%elem_of_all_matches. revert m Hm.
  apply Forall_forall, findall_from_suffix.
  intros s0 c rest [a ->] Hs0.
  destruct (pattern_fence _ _ _ _ Hp Hs0) as (pre & head & -> & Hhead & Hfree).
  exists (a ++ pre), head, rest. by rewrite <- app_assoc.
Qed.

Lemma infix_trans (a b s t u : text) (a' b' : text) :
  s = a ++ t ++ b → t = a' ++ u ++ b' → ∃ x y, s = x ++ u ++ y.
Proof. intros -> ->. exists (a ++ a'), (b' ++ b). by rewrite <- !app_assoc. Qed.

Lemma all_matches_infix markdown_content m :
  m ∈ all_matches markdown_content →
  ∃ a b, markdown_content = a ++ m.1.1 ++ b.
Proof.
  intros (pattern & Hp & Hm)%elem_of_all_matches. revert m Hm.
  apply Forall_forall, findall_from_suffix.
  intros s0 c rest [a ->] (w & -> & Hsem)%match_at_sound. cbn [fst].
  unfold group. destruct (c !! 1) as [g|] eqn:Hg; simpl.
  - destruct (sem_marks_infix _ _ _ _ _ _ Hsem Hg) as [H|(x & y & ->)];
      [by rewrite lookup_empty in H|].
    exists (a ++ x), (y ++ rest). by rewrite <- !app_assoc.
  - by exists [], (a ++ w ++ rest).
Qed.

(** The keys of the Extractor end in a dot and an extension. *)
Lemma extract_key_shape markdown_content k :
  k ∈ dom (extract_files_from_markdown markdown_content) →
  ∃ u e, e ∈ extensions ∧ k = u ++ "."%char :: txt e.
Proof.
  intros [v (m & Hm & -> & _)%extract_value]%elem_of_dom.
  pose proof (all_matches_name markdown_content) as Hall.
  rewrite Forall_forall in Hall. by apply Hall, strip_name in Hm.
Qed.

(** *** The fence markers of a document *)

Lemma after_fence_app (a b : text) :
  ∃ r, after_fence (a ++ txt "```" ++ b) = Some r ∧ b `suffix_of` r.
Proof.
  induction a as [|x a (r & IH & Hr)].
  - exists b. split; [|done]. by destruct b.
  - cbn [app after_fence].
    destruct (Str.startswith (x :: a ++ txt "```" ++ b) (txt "```")) eqn:Hs;
      [|by exists r].
    eexists. split; [done|].
    change (x :: a ++ txt "```" ++ b) with ((x :: a) ++ txt "```" ++ b).
    rewrite app_assoc, drop_app_le by (rewrite length_app; simpl; lia).
    by eexists.
Qed.

Lemma two_fences (a b c : text) :
  is_Some (after_fence (a ++ txt "```" ++ b ++ txt "```" ++ c) ≫= after_fence).
Proof.
  destruct (after_fence_app a (b ++ txt "```" ++ c)) as (r & -> & [a' ->]).
  change (is_Some (after_fence (a' ++ b ++ txt "```" ++ c))).
  rewrite (app_assoc a' b).
  destruct (after_fence_app (a' ++ b) c) as (r' & -> & _). done.
Qed.

Lemma no_fence_no_files (markdown_content : text) :
  Str.contains (txt "```") markdown_content = false →
  extract_files_from_markdown markdown_content = ∅.
Proof.
  intros Hnone. apply map_empty. intros k.
  destruct (extract_files_from_markdown markdown_content !! k) as [v|] eqn:Hk;
    [|done].
  apply extract_value in Hk as (m & Hm & _).
  apply all_matches_fence in Hm as (pre & head & post & Hdoc & _).
  apply not_true_iff_false in Hnone. destruct Hnone. apply contains_true.
  rewrite Hdoc. by eexists pre, _.
Qed.

(** A fence marker cannot form across the end of a text and a newline
    that follows. *)
Lemma contains_fence_app (a s : text) :
  Str.contains (txt "```") a = false →
  Str.contains (txt "```") s = false →
  s = [] ∨ Str.startswith s [nl] = true →
  Str.contains (txt "```") (a ++ s) = false.
Proof.
  intros Ha Hs Hnl. induction a as [|x a IH]; [done|].
  cbn [Str.contains] in Ha. apply orb_false_iff in Ha as [Hx Ha].
  cbn [app Str.contains]. rewrite (IH Ha), orb_false_r.
  assert (∃ s', Str.startswith s [nl] = true → s = nl :: s') as [s' Hs'].
  { destruct s as [|b s']; [by exists []|]. exists s'. cbn.
    by intros [->%Ascii.eqb_eq _]%andb_true_iff. }
  cbv [txt list_ascii_of_string] in *.
  destruct a as [|y [|z a]]; [| |exact Hx];
    (destruct Hnl as [->|Hnl]; [by rewrite app_nil_r|]);
    rewrite (Hs' Hnl); cbn [app Str.startswith].
  - by destruct (Ascii.eqb x _).
  - by destruct (Ascii.eqb x _), (Ascii.eqb y _).
Qed.

Lemma combined_no_fence (contents : list text) :
  Forall (λ content, Str.contains (txt "```") content = false) contents →
  Str.contains (txt "```")
    (concat ((λ content, nl :: nl :: content) <$> contents)) = false.
Proof.
  induction 1 as [|d ds Hd _ IH]; [done|].
  cbn [fmap list_fmap concat].
  apply contains_fence_app; [|done|].
  - cbn [Str.contains]. by rewrite Hd.
  - destruct ds; [by left|by right].
Qed.

(** *** The entries of the result *)

(** X1: a document with fewer than two fence markers, so also one whose
    only fenced block is not closed, yields the empty mapping. *)
Theorem fewer_than_two_fences (markdown_content : text) :
  after_fence markdown_content ≫= after_fence = None →
  extract_files_from_markdown markdown_content = ∅.
Proof.
  intros Hnone. apply map_empty. intros k.
  destruct (extract_files_from_markdown markdown_content !! k) as [v|] eqn:Hk;
    [|done].
  apply extract_value in Hk as (m & Hm & _).
  apply all_matches_fence in Hm as (pre & head & post & Hdoc & _).
  destruct (two_fences pre (head ++ nl :: m.2) post) as [r Hr].
  rewrite <- app_assoc, <- app_comm_cons, <- Hdoc in Hr. congruence.
Qed.

Lemma fewer_than_two_fences_witness :
  extract_files_from_markdown unterminated = ∅.
Proof.
  apply (fewer_than_two_fences unterminated). vm_compute. reflexivity.
Defined.

(** X2: every path and every content of the result is trimmed: neither
    starts or ends with white space. *)
Theorem extracted_entries_trimmed (markdown_content k v : text) :
  extract_files_from_markdown markdown_content !! k = Some v →
  Str.strip k = k ∧ Str.strip v = v.
Proof.
  intros (m & _ & -> & -> & _)%extract_value. by rewrite !strip_idemp.
Qed.

Lemma extracted_entries_trimmed_witness :
  Str.strip (txt "app.py") = txt "app.py" ∧ Str.strip print_hi = print_hi.
Proof.
  apply (extracted_entries_trimmed readme (txt "app.py") print_hi).
  vm_compute. reflexivity.
Defined.

(** X3: every content of the result is the trimmed text between an
    opening fence line (the fence marker, a language tag and white space,
    a newline) and the next fence marker after it: no fence marker starts
    inside the body. *)
Theorem content_up_to_next_fence (markdown_content k v : text) :
  extract_files_from_markdown markdown_content !! k = Some v →
  ∃ pre head body post,
    markdown_content
    = pre ++ txt "```" ++ head ++ nl :: body ++ txt "```" ++ post
    ∧ forallb (λ a, Str.isword a || Str.isspace a) head = true
    ∧ Str.contains (txt "```") (body ++ txt "``") = false
    ∧ v = Str.strip body.
Proof.
  intros (m & Hm & _ & -> & _)%extract_value.
  apply all_matches_fence in Hm as (pre & head & post & Hdoc & Hhead & Hfree).
  by exists pre, head, m.2, post.
Qed.

Lemma content_up_to_next_fence_witness :
  ∃ pre head body post,
    readme = pre ++ txt "```" ++ head ++ nl :: body ++ txt "```" ++ post
    ∧ forallb (λ a, Str.isword a || Str.isspace a) head = true
    ∧ Str.contains (txt "```") (body ++ txt "``") = false
    ∧ print_hi = Str.strip body.
Proof.
  apply (content_up_to_next_fence readme (txt "app.py") print_hi).
  vm_compute. reflexivity.
Defined.

(** X4: every content of the result has passed the command-block filter:
    when one of the indicators occurs in its first 100 characters, it has
    more than 5 lines and one of the first 5 is not shell-like. *)
Theorem extracted_contents_pass_filter (markdown_content k v : text) :
  extract_files_from_markdown markdown_content !! k = Some v →
  keeps v = true
  ∧ (has_indicator v = true →
     5 < length (Str.split nl v)
     ∧ forallb shell_like (take 5 (Str.split nl v)) = false).
Proof.
  intros (m & _ & _ & -> & Hk)%extract_value. split; [done|].
  unfold keeps in Hk. intros Hi. rewrite Hi in Hk. unfold looks_like_file in Hk.
  apply andb_true_iff in Hk as [Hlen Hnot]. split.
  - by apply Nat.ltb_lt.
  - by apply negb_true_iff.
Qed.

Lemma extracted_contents_pass_filter_witness :
  keeps print_hi = true
  ∧ (has_indicator print_hi = true →
     5 < length (Str.split nl print_hi)
     ∧ forallb shell_like (take 5 (Str.split nl print_hi)) = false).
Proof.
  apply (extracted_contents_pass_filter readme (txt "app.py") print_hi).
  vm_compute. reflexivity.
Defined.

(** X5: every path and every content of the result occurs literally in
    the document. *)
Theorem entries_occur_in_document (markdown_content k v : text) :
  extract_files_from_markdown markdown_content !! k = Some v →
  Str.contains k markdown_content = true
  ∧ Str.contains v markdown_content = true.
Proof.
  intros (m & Hm & -> & -> & _)%extract_value. split; apply contains_true.
  - destruct (all_matches_infix _ _ Hm) as (a & b & H).
    destruct (strip_infix m.1.1) as (a' & b' & H'). eapply infix_trans; eauto.
  - destruct (all_matches_fence _ _ Hm) as (pre & head & post & H & _).
    destruct (strip_infix m.2) as (a' & b' & H').
    apply (infix_trans (pre ++ txt "```" ++ head ++ [nl]) (txt "```" ++ post)
             _ m.2 _ a' b'); [|done].
    rewrite H. by repeat (rewrite <- ?app_assoc, <- ?app_comm_cons).
Qed.

Lemma entries_occur_in_document_witness :
  Str.contains (txt "app.py") readme = true
  ∧ Str.contains print_hi readme = true.
Proof.
  apply (entries_occur_in_document readme (txt "app.py") print_hi).
  vm_compute. reflexivity.
Defined.

(** *** The emphasized-filename and the inline-code-span strategies *)

(** The fenced part of a pattern on a fenced block whose body holds no
    fence marker: group 3 is the body from the last newline of its
    leading white space. *)
Lemma run_fence_block {R} lang body post :
  forallb Str.isword lang = true →
  Str.contains (txt "```") (body ++ txt "``") = false →
  ∃ raw, Str.strip raw = Str.strip body
    ∧ ∀ c (k : text → marks → option R) x,
        k post (<[3 := raw]> c) = Some x →
        run fence (txt "```" ++ lang ++ nl :: body ++ txt "```" ++ post) c k
        = Some x.
Proof.
  intros Hlang Hfree.
  destruct (StrFacts.spaces_split body) as (wsb & body1 & Hb & Hwsb & Hb1 & _).
  destruct (list_elem_of_split_r (nl :: wsb) nl) as (u & v & Huv & Hv);
    [apply list_elem_of_here|].
  assert (forallb Str.isspace (u ++ nl :: v) = true) as Hu.
  { rewrite <- Huv. simpl. by rewrite Hwsb. }
  exists (v ++ body1). split.
  { rewrite forallb_app in Hu. apply andb_true_iff in Hu as [_ Hu].
    change (forallb Str.isspace v = true) in Hu.
    unfold Str.strip. by rewrite Hb, !StrFacts.lstrip_spaces. }
  intros c k x Hk.
  assert (nl :: body ++ txt "```" ++ post
          = u ++ nl :: v ++ body1 ++ txt "```" ++ post) as ->.
  { rewrite Hb, <- app_assoc, (app_comm_cons wsb), Huv.
    by repeat (rewrite <- ?app_assoc, <- ?app_comm_cons). }
  apply run_fence; try done.
  - destruct body1; [by vm_compute|done].
  - rewrite Hb in Hfree. destruct u as [|a u].
    + injection Huv as Hw. by rewrite Hw, <- app_assoc in Hfree.
    + injection Huv as _ Hw.
      apply (StrFacts.contains_app_r _ (u ++ [nl])).
      rewrite Hw, <- !app_assoc in Hfree. by rewrite <- app_assoc.
Qed.

(** Group 1 of the emphasized and of the inline-code pattern on a name
    followed by the closing delimiter [x]. *)
Lemma run_name {R} (x : ascii) name e s c (K : text → marks → option R) r :
  name ≠ [] → x ∉ name → Str.isword x = false → x ≠ "."%char →
  e ∈ extensions →
  Str.startswith s [x] = true →
  (∀ a s' c', Str.isword a = true → K (a :: s') c' = None) →
  K s (<[1 := name ++ "."%char :: txt e]> (<[2 := txt e]> c)) = Some r →
  run (Group 1 (seq [Rep (Not x) 1 true; lit "."; ext]))
    (name ++ ("."%char :: txt e) ++ s) c K = Some r.
Proof.
  intros Hname Hx Hxw Hxd He Hs HK Hr.
  pose proof (extension_word e He) as Hew. rewrite forallb_forall in Hew.
  cbn [run]. rewrite run_seq_cons. cbn [run].
  apply rep_greedy_back.
  - rewrite forallb_app. apply andb_true_iff. split.
    + apply forallb_forall. intros a Ha%list_elem_of_In. simpl.
      apply negb_true_iff, Ascii.eqb_neq. by intros ->.
    + apply forallb_forall. intros a Ha%list_elem_of_In. simpl.
      apply negb_true_iff, Ascii.eqb_neq.
      apply elem_of_cons in Ha as [->|Ha%list_elem_of_In]; [done|].
      apply Hew in Ha. intros ->. congruence.
  - destruct s as [|b s]; [done|]. simpl in Hs |- *.
    apply andb_true_iff in Hs as [->%Ascii.eqb_eq _].
    by rewrite Ascii.eqb_refl.
  - destruct name; [done|simpl; lia].
  - intros u' v' Huv Hu'. rewrite run_seq_cons, run_lit.
    destruct u' as [|a u']; [done|]. injection Huv as _ Hv'.
    assert (Str.startswith (v' ++ s) (txt ".") = false) as ->; [|done].
    change (txt ".") with ["."%char].
    destruct v' as [|b v'].
    + destruct s as [|b s]; [done|]. simpl in Hs |- *.
      apply andb_true_iff in Hs as [->%Ascii.eqb_eq _].
      rewrite andb_true_r. by apply Ascii.eqb_neq.
    + cbn [app Str.startswith]. destruct (Ascii.eqb_spec b ".") as [->|]; [|done].
      destruct (extension_chars e "." He); [|done].
      rewrite Hv'. apply elem_of_app. right. apply list_elem_of_here.
  - change ("."%char :: txt e) with (txt "." ++ txt e).
    rewrite run_seq_cons, <- app_assoc, run_lit_app, run_seq_cons.
    apply run_ext; [done| |].
    + intros a s' c' Ha. rewrite run_seq_nil. by apply HK.
    + rewrite run_seq_nil.
      replace (consumed (name ++ txt "." ++ txt e ++ s) s)
        with (name ++ "."%char :: txt e); [done|].
      rewrite 2!app_assoc, consumed_app. by rewrite <- app_assoc.
Qed.

Lemma word_startswith a (s : text) (str : string) x (l : text) :
  txt str = x :: l → Str.isword x = false → Str.isword a = true →
  Str.startswith (a :: s) (txt str) = false.
Proof.
  intros -> Hx Ha. cbn [Str.startswith].
  destruct (Ascii.eqb_spec a x) as [->|]; [congruence|done].
Qed.

(** The emphasized-filename pattern on an emphasized name followed by a
    fenced block. *)
Lemma match_bold name e ws annotation lang body post :
  name ≠ [] → "*"%char ∉ name → e ∈ extensions →
  forallb Str.isspace ws = true →
  match annotation with
  | Some (note, ws') => ("]"%char ∉ note) ∧ forallb Str.isspace ws' = true
  | None => True
  end →
  forallb Str.isword lang = true →
  Str.contains (txt "```") (body ++ txt "``") = false →
  ∃ raw, Str.strip raw = Str.strip body
    ∧ match_at pattern1
        (bold_block (name ++ "."%char :: txt e) ws annotation lang body ++ post)
      = Some (<[3 := raw]>
                (<[1 := name ++ "."%char :: txt e]> (<[2 := txt e]> ∅)), post).
Proof.
  intros Hname Hstar He Hws Hann Hlang Hfree.
  destruct (run_fence_block (R := marks * text) lang body post Hlang Hfree)
    as (raw & Hraw & Hrun).
  exists raw. split; [done|].
  set (block := txt "```" ++ lang ++ nl :: body ++ txt "```" ++ post) in Hrun.
  set (middle := match annotation with
                 | Some (note, ws') => txt "[" ++ note ++ txt "]" ++ ws'
                 | None => []
                 end).
  assert (bold_block (name ++ "."%char :: txt e) ws annotation lang body ++ post
          = txt "**" ++ name ++ ("."%char :: txt e)
              ++ txt "**" ++ ws ++ middle ++ block) as ->.
  { unfold bold_block, block. fold middle.
    by repeat (rewrite <- ?app_assoc, <- ?app_comm_cons). }
  unfold match_at, pattern1. rewrite run_seq_cons, run_lit_app, run_seq_cons.
  apply (run_name "*"); try done.
  { intros a s' c' Ha. rewrite run_seq_cons, run_lit.
    by rewrite (word_startswith a s' "**" "*" ["*"%char]). }
  rewrite run_seq_cons, run_lit_app, run_seq_cons. cbn [run].
  assert (stops Str.isspace (middle ++ block)) as Hstop.
  { unfold middle. by destruct annotation as [[note ws']|]. }
  apply rep_greedy_all; [done|done|lia|].
  rewrite run_seq_cons. unfold middle. destruct annotation as [[note ws']|].
  - destruct Hann as [Hnote Hws']. cbn [run].
    rewrite run_seq_cons, <- !app_assoc, run_lit_app, run_seq_cons. cbn [run].
    erewrite rep_lazy_first; [done| | |].
    + by apply forallb_forall.
    + intros u v Huv Hv. rewrite run_seq_cons, run_lit.
      destruct v as [|b v]; [done|].
      change (txt "]") with ["]"%char]. cbn [app Str.startswith].
      destruct (Ascii.eqb_spec b "]") as [->|]; [|done].
      destruct Hnote. rewrite Huv. apply elem_of_app. right.
      apply list_elem_of_here.
    + rewrite run_seq_cons, run_lit_app, run_seq_nil, run_seq_cons. cbn [run].
      apply rep_greedy_all; [done|done|lia|].
      rewrite run_seq_cons. apply Hrun. by rewrite run_seq_nil.
  - cbn [run app]. rewrite run_seq_cons, run_lit.
    change (Str.startswith block (txt "[")) with false. cbn iota.
    rewrite run_seq_cons. cbn [run]. rewrite rep_greedy_stops by done.
    rewrite run_seq_cons. apply Hrun. by rewrite run_seq_nil.
Qed.

(** The inline-code-span pattern on a name in a code span followed by a
    fenced block. *)
Lemma match_span name e ws lang body post :
  name ≠ [] → "`"%char ∉ name → e ∈ extensions →
  forallb Str.isspace ws = true →
  forallb Str.isword lang = true →
  Str.contains (txt "```") (body ++ txt "``") = false →
  ∃ raw, Str.strip raw = Str.strip body
    ∧ match_at pattern3
        (span_block (name ++ "."%char :: txt e) ws lang body ++ post)
      = Some (<[3 := raw]>
                (<[1 := name ++ "."%char :: txt e]> (<[2 := txt e]> ∅)), post).
Proof.
  intros Hname Htick He Hws Hlang Hfree.
  destruct (run_fence_block (R := marks * text) lang body post Hlang Hfree)
    as (raw & Hraw & Hrun).
  exists raw. split; [done|].
  set (block := txt "```" ++ lang ++ nl :: body ++ txt "```" ++ post) in Hrun.
  assert (span_block (name ++ "."%char :: txt e) ws lang body ++ post
          = txt "`" ++ name ++ ("."%char :: txt e) ++ txt "`" ++ ws ++ block)
    as ->.
  { unfold span_block, block.
    by repeat (rewrite <- ?app_assoc, <- ?app_comm_cons). }
  unfold match_at, pattern3. rewrite run_seq_cons, run_lit_app, run_seq_cons.
  apply (run_name "`"); try done.
  { intros a s' c' Ha. rewrite run_seq_cons, run_lit.
    by rewrite (word_startswith a s' "`" "`" []). }
  rewrite run_seq_cons, run_lit_app, run_seq_cons. cbn [run].
  apply rep_greedy_all; [done|done|lia|].
  rewrite run_seq_cons. apply Hrun. by rewrite run_seq_nil.
Qed.

Lemma findall_bold_prefix (pre s : text) :
  "*"%char ∉ pre → findall pattern1 (pre ++ s) = findall pattern1 s.
Proof. by apply (findall_lit_prefix "**" _ "*"). Qed.

Lemma findall_span_prefix (pre s : text) :
  "`"%char ∉ pre → findall pattern3 (pre ++ s) = findall pattern3 s.
Proof. by apply (findall_lit_prefix "`" _ "`"). Qed.

Lemma findall_heading_prefix (pre s : text) :
  "#"%char ∉ pre → findall pattern2 (pre ++ s) = findall pattern2 s.
Proof. by apply (findall_lit_prefix "##" _ "#"). Qed.

Lemma strip_file name e :
  e ∈ extensions →
  Str.strip (name ++ "."%char :: txt e) = Str.lstrip name ++ "."%char :: txt e.
Proof.
  intros He. destruct (extension_solid e He) as [Hel Her].
  by rewrite StrFacts.strip_app_solid.
Qed.

Lemma marks_groups (g1 g2 g3 : text) :
  let c : marks := <[3 := g3]> (<[1 := g1]> (<[2 := g2]> ∅)) in
  (group c 1, group c 2, group c 3) = (g1, g2, g3).
Proof.
  intros c. unfold group, c. rewrite lookup_insert_eq.
  rewrite lookup_insert_ne, lookup_insert_eq by done.
  by rewrite !lookup_insert_ne, lookup_insert_eq by done.
Qed.

(** X6: the emphasized-filename strategy.  Take a document that, after a
    text without asterisk, holds a name in a strong-emphasis span (at
    least one character other than an asterisk, then a dot and a
    recognized extension, no asterisk in it), white space, optionally a
    bracketed annotation without closing bracket inside and more white
    space, and then a fenced block whose language tag is made of word
    characters and whose body holds no fence marker.  The emphasized
    pattern finds there its first match: the path is the emphasized text
    and the body is the fenced body up to surrounding white space.  The
    strategy stores the trimmed body under the trimmed name when the
    command-block filter keeps it, and goes on with the rest of the
    document. *)
Theorem emphasized_strategy (pre name : text) (e : string) (ws : text)
    (annotation : option (text * text)) (lang body post : text)
    (files_dict : gmap text text) :
  "*"%char ∉ pre → name ≠ [] → "*"%char ∉ name → e ∈ extensions →
  forallb Str.isspace ws = true →
  match annotation with
  | Some (note, ws') => ("]"%char ∉ note) ∧ forallb Str.isspace ws' = true
  | None => True
  end →
  forallb Str.isword lang = true →
  Str.contains (txt "```") (body ++ txt "``") = false →
  let file := name ++ "."%char :: txt e in
  let doc := pre ++ bold_block file ws annotation lang body ++ post in
  Str.strip file = Str.lstrip name ++ "."%char :: txt e
  ∧ ∃ raw,
      findall pattern1 doc = (file, txt e, raw) :: findall pattern1 post
      ∧ Str.strip raw = Str.strip body
      ∧ fold_left store (findall pattern1 doc) files_dict
        = fold_left store (findall pattern1 post)
            (if keeps (Str.strip body)
             then <[Str.strip file := Str.strip body]> files_dict
             else files_dict).
Proof.
  intros Hpre Hname Hstar He Hws Hann Hlang Hfree file doc.
  subst file doc. split; [by apply strip_file|].
  destruct (match_bold name e ws annotation lang body post) as (raw & Hraw & Hm);
    try done.
  exists raw.
  set (file := name ++ "."%char :: txt e) in *.
  assert (findall pattern1 (pre ++ bold_block file ws annotation lang body ++ post)
          = (file, txt e, raw) :: findall pattern1 post) as Hfind.
  { rewrite findall_bold_prefix by done.
    rewrite (findall_match pattern1 _ post
               (bold_block file ws annotation lang body) _ Hm); [|done|done].
    by rewrite marks_groups. }
  split; [done|]. split; [done|].
  rewrite Hfind. cbn [fold_left]. rewrite store_keeps. by rewrite Hraw.
Qed.

Lemma emphasized_strategy_witness :
  ∃ raw,
    findall pattern1
      (txt "See " ++ bold_block (txt "app.py") (txt " ")
         (Some (txt "entry point", [nl])) (txt "python") (print_hi ++ [nl])
         ++ [nl])
    = [(txt "app.py", txt "py", raw)]
    ∧ Str.strip raw = print_hi.
Proof.
  destruct (emphasized_strategy (txt "See ") (txt "app") "py" (txt " ")
              (Some (txt "entry point", [nl])) (txt "python")
              (print_hi ++ [nl]) [nl] ∅) as (_ & raw & H2 & H3 & _).
  - apply (bool_decide_unpack _). vm_compute. reflexivity.
  - done.
  - apply (bool_decide_unpack _). vm_compute. reflexivity.
  - apply (bool_decide_unpack _). vm_compute. reflexivity.
  - reflexivity.
  - split; [|reflexivity]. apply (bool_decide_unpack _). vm_compute. reflexivity.
  - reflexivity.
  - reflexivity.
  - exists raw. split; [exact H2|]. rewrite H3. vm_compute. reflexivity.
Defined.

(** X7: the inline-code-span strategy.  Take a document that, after a
    text without backtick, holds a name in an inline code span (at least
    one character other than a backtick, then a dot and a recognized
    extension, no backtick in it), white space, and then a fenced block
    whose language tag is made of word characters and whose body holds no
    fence marker.  The inline-code pattern finds there its first match:
    the path is the text of the span and the body is the fenced body up
    to surrounding white space.  The strategy stores the trimmed body
    under the trimmed name when the command-block filter keeps it, and
    goes on with the rest of the document. *)
Theorem inline_code_strategy (pre name : text) (e : string)
    (ws lang body post : text) (files_dict : gmap text text) :
  "`"%char ∉ pre → name ≠ [] → "`"%char ∉ name → e ∈ extensions →
  forallb Str.isspace ws = true →
  forallb Str.isword lang = true →
  Str.contains (txt "```") (body ++ txt "``") = false →
  let file := name ++ "."%char :: txt e in
  let doc := pre ++ span_block file ws lang body ++ post in
  Str.strip file = Str.lstrip name ++ "."%char :: txt e
  ∧ ∃ raw,
      findall pattern3 doc = (file, txt e, raw) :: findall pattern3 post
      ∧ Str.strip raw = Str.strip body
      ∧ fold_left store (findall pattern3 doc) files_dict
        = fold_left store (findall pattern3 post)
            (if keeps (Str.strip body)
             then <[Str.strip file := Str.strip body]> files_dict
             else files_dict).
Proof.
  intros Hpre Hname Htick He Hws Hlang Hfree file doc.
  subst file doc. split; [by apply strip_file|].
  destruct (match_span name e ws lang body post) as (raw & Hraw & Hm);
    try done.
  exists raw.
  set (file := name ++ "."%char :: txt e) in *.
  assert (findall pattern3 (pre ++ span_block file ws lang body ++ post)
          = (file, txt e, raw) :: findall pattern3 post) as Hfind.
  { rewrite findall_span_prefix by done.
    rewrite (findall_match pattern3 _ post
               (span_block file ws lang body) _ Hm); [|done|done].
    by rewrite marks_groups. }
  split; [done|]. split; [done|].
  rewrite Hfind. cbn [fold_left]. rewrite store_keeps. by rewrite Hraw.
Qed.

Lemma inline_code_strategy_witness :
  ∃ raw,
    findall pattern3
      (txt "File " ++ span_block (txt "src/app.py") [nl] (txt "python")
         (print_hi ++ [nl]) ++ [nl])
    = [(txt "src/app.py", txt "py", raw)]
    ∧ Str.strip raw = print_hi.
Proof.
  destruct (inline_code_strategy (txt "File ") (txt "src/app") "py" [nl]
              (txt "python") (print_hi ++ [nl]) [nl] ∅)
    as (_ & raw & H2 & H3 & _).
  - apply (bool_decide_unpack _). vm_compute. reflexivity.
  - done.
  - apply (bool_decide_unpack _). vm_compute. reflexivity.
  - apply (bool_decide_unpack _). vm_compute. reflexivity.
  - reflexivity.
  - reflexivity.
  - reflexivity.
  - exists raw. split; [exact H2|]. rewrite H3. vm_compute. reflexivity.
Defined.

(** *** Text before the first marker *)

(** X8: text that holds none of the characters a pattern starts with
    (an asterisk, a number sign, a backtick) yields nothing and changes
    nothing when put before a document. *)
Theorem text_before_markers_ignored (pre markdown_content : text) :
  "*"%char ∉ pre → "#"%char ∉ pre → "`"%char ∉ pre →
  extract_files_from_markdown (pre ++ markdown_content)
  = extract_files_from_markdown markdown_content.
Proof.
  intros H1 H2 H3. unfold extract_files_from_markdown. cbn [fold_left].
  by rewrite findall_bold_prefix, findall_heading_prefix,
    findall_span_prefix.
Qed.

Lemma text_before_markers_ignored_witness :
  extract_files_from_markdown (txt "Create this file:" ++ nl :: readme)
  = extract_files_from_markdown readme.
Proof.
  apply (text_before_markers_ignored (txt "Create this file:" ++ [nl]) readme);
    apply (bool_decide_unpack _); vm_compute; reflexivity.
Defined.

End ExtractorMore.

(** * More properties of the Materializer *)
Module MaterializerMore.
Import PurePath Os Materializer PathFacts OsFacts Examples MaterializerSpec.
Import Extractor ExtractorSpec Report Tidy Driver MoreExamples StrMore.

Lemma sorted_items_sorted (files_dict : gmap text text) :
  StronglySorted (λ k1 k2, Str.le k1 k2 = true) (sorted_items files_dict).*1.
Proof.
  unfold sorted_items.
  apply (StronglySorted_fmap _ (λ x y : text * text, Is_true (Str.le x.1 y.1))).
  - intros x y H. by apply Is_true_true.
  - apply (StronglySorted_merge_sort _).
Qed.

Lemma sorted_items_perm (files_dict : gmap text text) :
  (sorted_items files_dict).*1 ≡ₚ (map_to_list files_dict).*1.
Proof. unfold sorted_items. by rewrite merge_sort_Permutation. Qed.

Lemma sorted_items_length (files_dict : gmap text text) :
  length (sorted_items files_dict) = size files_dict.
Proof.
  unfold sorted_items. by rewrite merge_sort_Permutation, length_map_to_list.
Qed.

(** *** Keys that name a file below the root *)

Lemma split_last c (u v : text) :
  c ∉ v → ∃ ws w, Str.split c (u ++ v) = ws ++ [w ++ v].
Proof.
  intros Hv. induction u as [|a u (ws & w & IH)].
  - exists [], []. by apply split_solid.
  - cbn [app]. rewrite split_cons_case, IH. destruct (Ascii.eqb a c).
    + by exists ([] :: ws), w.
    + destruct ws as [|x ws]; [by exists [], (a :: w)|].
      by exists ((a :: x) :: ws), w.
Qed.

Lemma extension_nonempty e : e ∈ extensions → txt e ≠ [].
Proof.
  unfold extensions. intros He.
  repeat (apply elem_of_cons in He as [->|He]; [done|]).
  by apply elem_of_nil in He.
Qed.

(** A path text that ends in a dot and an extension and does not start
    with a slash parses to a relative path with a last component. *)
Lemma key_parts (k u : text) e :
  e ∈ extensions → k = u ++ "."%char :: txt e →
  Str.startswith k (txt "/") = false →
  anchor_of (parse k) = Relative ∧ parts (parse k) ≠ [].
Proof.
  intros He -> Hrel. unfold parse, splitroot.
  change [sep] with (txt "/"). rewrite Hrel. cbn [negb anchor_of parts].
  split; [done|].
  destruct (split_last sep u ("."%char :: txt e)) as (ws & w & ->).
  { intros [Heq|Hin]%elem_of_cons; [done|].
    pose proof (extension_word e He) as Hw. rewrite forallb_forall in Hw.
    apply list_elem_of_In, Hw in Hin. done. }
  rewrite filter_app, filter_cons_True.
  - by destruct (filter _ ws).
  - split; [by destruct w|].
    pose proof (extension_nonempty e He) as Hne.
    destruct w as [|a [|??]]; [|by destruct (txt e)|done].
    by destruct (txt e).
Qed.

Lemma parent_of_relative base k :
  anchor_of (parse k) = Relative → parts (parse k) ≠ [] →
  is_Some (relative_to (parent_of base k) base).
Proof.
  intros Ha Hp. unfold parent_of, parent, joinpath, relative_to. rewrite Ha.
  cbn [anchor_of parts]. rewrite decide_True; [done|]. split; [done|].
  rewrite removelast_app by done. by apply prefix_app_r.
Qed.

Section Generic.
Context {fs : Type} {FS : FileSystem fs}.
Implicit Types (st : state fs) (base : path).

(** *** What a run prints, and in which order *)

Lemma make_parent_attempts base verbose d st st' :
  make_parent base verbose d st = Some st' →
  attempts (stdout st') = attempts (stdout st).
Proof.
  unfold make_parent. case_decide; [|by intros [= <-]].
  destruct (mkdir (disk st) d) as [disk'|]; [|done]. cbn [mbind option_bind].
  destruct verbose; [|by intros [= <-]].
  destruct (relative_to d base) as [rel|]; [|done]. intros [= <-].
  cbn [stdout]. unfold attempts. by rewrite omap_app, app_nil_r.
Qed.

Lemma write_entry_attempts full file_path content st :
  attempts (stdout (write_entry true full file_path content st))
  = attempts (stdout st) ++ [file_path].
Proof.
  unfold write_entry. destruct (write_text _ _ _); cbn [stdout];
    unfold attempts; by rewrite omap_app.
Qed.

Lemma process_entries_attempts base es st st' :
  process_entries base true es st = Some st' →
  attempts (stdout st') = attempts (stdout st) ++ es.*1.
Proof.
  revert st. induction es as [|[k v] es IH]; intros st.
  - intros [= <-]. by rewrite app_nil_r.
  - cbn [process_entries process_entry].
    destruct (make_parent base true _ st) as [st1|] eqn:Hmk; [|done].
    cbn [mbind option_bind]. intros ->%IH.
    rewrite write_entry_attempts, (make_parent_attempts _ _ _ _ _ Hmk).
    by rewrite <- app_assoc.
Qed.

Lemma create_attempts (files_dict : gmap text text) (base_dir : text)
    (disk0 : fs) n_dirs n_files st :
  create_project_structure files_dict base_dir true disk0
    = Some (n_dirs, n_files, st) →
  attempts (stdout st) = (sorted_items files_dict).*1.
Proof.
  unfold create_project_structure.
  destruct (mkdir disk0 (parse base_dir)) as [disk1|]; [|done].
  cbn [mbind option_bind].
  destruct (process_entries _ _ _ _) as [st1|] eqn:Hrun; [|done].
  intros [= <- <- <-]. by rewrite (process_entries_attempts _ _ _ _ Hrun).
Qed.

Lemma write_entry_keys verbose full file_path content st :
  let st' := write_entry verbose full file_path content st in
  files_created st' ++ (error_log (stdout st')).*1
  ≡ₚ file_path :: files_created st ++ (error_log (stdout st)).*1.
Proof.
  unfold write_entry. destruct (write_text _ _ _); cbn [files_created stdout].
  - unfold error_log. rewrite omap_app.
    assert (omap (λ l, match l with
                       | ErrorCreating p e => Some (p, e) | _ => None
                       end) (if verbose then [CreatedFile file_path] else [])
            = []) as -> by (by destruct verbose).
    rewrite app_nil_r, <- app_assoc. cbn [app]. symmetry.
    apply Permutation_middle.
  - unfold error_log. rewrite omap_app, fmap_app. cbn [omap fmap list_fmap fst].
    rewrite app_assoc, (Permutation_app_comm _ [file_path]). done.
Qed.

Lemma process_entries_keys base verbose es st st' :
  process_entries base verbose es st = Some st' →
  files_created st' ++ (error_log (stdout st')).*1
  ≡ₚ (files_created st ++ (error_log (stdout st)).*1) ++ es.*1.
Proof.
  revert st. induction es as [|[k v] es IH]; intros st.
  - intros [= <-]. by rewrite app_nil_r.
  - cbn [process_entries process_entry].
    destruct (make_parent base verbose _ st) as [st1|] eqn:Hmk; [|done].
    cbn [mbind option_bind]. intros ->%IH.
    rewrite write_entry_keys.
    rewrite (make_parent_files _ _ _ _ _ Hmk), (make_parent_errors _ _ _ _ _ Hmk).
    cbn [fmap list_fmap fst]. by rewrite <- Permutation_middle.
Qed.

Lemma write_entry_sublist full file_path content st (l : list text) :
  files_created st `sublist_of` l →
  files_created (write_entry true full file_path content st)
    `sublist_of` l ++ [file_path].
Proof.
  intros H. unfold write_entry. destruct (write_text _ _ _); cbn [files_created].
  - by apply sublist_app.
  - by apply sublist_inserts_r.
Qed.

Lemma process_entries_sublist base es st st' :
  process_entries base true es st = Some st' →
  files_created st `sublist_of` attempts (stdout st) →
  files_created st' `sublist_of` attempts (stdout st').
Proof.
  revert st. induction es as [|[k v] es IH]; intros st.
  - by intros [= <-].
  - cbn [process_entries process_entry].
    destruct (make_parent base true _ st) as [st1|] eqn:Hmk; [|done].
    cbn [mbind option_bind]. intros Hrun Hsub. apply (IH _ Hrun).
    rewrite write_entry_attempts. apply write_entry_sublist.
    by rewrite (make_parent_files _ _ _ _ _ Hmk),
      (make_parent_attempts _ _ _ _ _ Hmk).
Qed.

(** X9: every entry of the mapping is handled exactly once: its path is
    either in the list of files created or in an error line, so the count
    of files returned and the number of error lines add up to the size of
    the mapping. *)
Theorem every_entry_accounted (files_dict : gmap text text) (base_dir : text)
    (verbose : bool) (disk0 : fs) n_dirs n_files st :
  create_project_structure files_dict base_dir verbose disk0
    = Some (n_dirs, n_files, st) →
  files_created st ++ (error_log (stdout st)).*1
    ≡ₚ (map_to_list files_dict).*1
  ∧ n_files + length (error_log (stdout st)) = size files_dict.
Proof.
  unfold create_project_structure.
  destruct (mkdir disk0 (parse base_dir)) as [disk1|]; [|done].
  cbn [mbind option_bind].
  destruct (process_entries _ _ _ _) as [st1|] eqn:Hrun; [|done].
  intros [= <- <- <-].
  pose proof (process_entries_keys _ _ _ _ _ Hrun) as Hkeys.
  change (_ ++ (sorted_items files_dict).*1)
    with ((sorted_items files_dict).*1) in Hkeys.
  rewrite sorted_items_perm in Hkeys. split; [done|].
  apply Permutation_length in Hkeys.
  rewrite length_app, !length_fmap, length_map_to_list in Hkeys. done.
Qed.

(** X10: a verbose run handles the entries in the order of their paths:
    the paths of its file and error lines are the keys of the mapping,
    each once, in ascending order, and the files created are listed in
    that order too. *)
Theorem entries_in_sorted_order (files_dict : gmap text text) (base_dir : text)
    (disk0 : fs) n_dirs n_files st :
  create_project_structure files_dict base_dir true disk0
    = Some (n_dirs, n_files, st) →
  attempts (stdout st) ≡ₚ (map_to_list files_dict).*1
  ∧ StronglySorted (λ k1 k2, Str.le k1 k2 = true) (attempts (stdout st))
  ∧ files_created st `sublist_of` attempts (stdout st).
Proof.
  unfold create_project_structure.
  destruct (mkdir disk0 (parse base_dir)) as [disk1|]; [|done].
  cbn [mbind option_bind].
  destruct (process_entries _ _ _ _) as [st1|] eqn:Hrun; [|done].
  intros [= <- <- <-].
  pose proof (process_entries_attempts _ _ _ _ Hrun) as Hatt.
  change (attempts _ ++ (sorted_items files_dict).*1)
    with ((sorted_items files_dict).*1) in Hatt.
  split; [rewrite Hatt; apply sorted_items_perm|].
  split; [rewrite Hatt; apply sorted_items_sorted|].
  apply (process_entries_sublist _ _ _ _ Hrun). constructor.
Qed.

(** *** Quiet and verbose runs *)

Lemma errors_only_stdout st :
  stdout (errors_only st)
  = (λ pe, ErrorCreating pe.1 pe.2) <$> error_log (stdout st).
Proof.
  cbn [stdout errors_only]. induction (stdout st) as [|[rel|p|p e] out IH]; cbn;
    [done|done|done|by f_equal].
Qed.

Lemma make_parent_quiet base d st st' :
  make_parent base true d st = Some st' →
  make_parent base false d (errors_only st) = Some (errors_only st').
Proof.
  unfold make_parent. cbn [dirs_created disk errors_only].
  case_decide; [|by intros [= <-]].
  destruct (mkdir (disk st) d) as [disk'|]; [|done]. cbn [mbind option_bind].
  destruct (relative_to d base) as [rel|]; [|done]. intros [= <-].
  unfold errors_only. cbn [disk dirs_created files_created stdout].
  by rewrite List.filter_app, app_nil_r.
Qed.

Lemma write_entry_quiet full file_path content st :
  write_entry false full file_path content (errors_only st)
  = errors_only (write_entry true full file_path content st).
Proof.
  unfold write_entry. cbn [disk errors_only].
  destruct (write_text _ _ _); unfold errors_only;
    cbn [disk dirs_created files_created stdout];
    by rewrite List.filter_app.
Qed.

Lemma process_entries_quiet base es st st' :
  process_entries base true es st = Some st' →
  process_entries base false es (errors_only st) = Some (errors_only st').
Proof.
  revert st. induction es as [|[k v] es IH]; intros st.
  - by intros [= <-].
  - cbn [process_entries process_entry].
    destruct (make_parent base true _ st) as [st1|] eqn:Hmk; [|done].
    rewrite (make_parent_quiet _ _ _ _ Hmk). cbn [mbind option_bind].
    rewrite write_entry_quiet. apply IH.
Qed.

Lemma create_project_structure_quiet (files_dict : gmap text text)
    (base_dir : text) (disk0 : fs) n_dirs n_files st :
  create_project_structure files_dict base_dir true disk0
    = Some (n_dirs, n_files, st) →
  create_project_structure files_dict base_dir false disk0
    = Some (n_dirs, n_files, errors_only st).
Proof.
  unfold create_project_structure.
  destruct (mkdir disk0 (parse base_dir)) as [disk1|]; [|done].
  cbn [mbind option_bind].
  destruct (process_entries _ _ _ _) as [st1|] eqn:Hrun; [|done].
  intros [= <- <- <-]. apply process_entries_quiet in Hrun.
  change (errors_only (State disk1 ∅ [] []))
    with (State (fs:=fs) disk1 ∅ [] []) in Hrun.
  by rewrite Hrun.
Qed.

(** X11: verbosity changes the output only.  When the verbose run
    returns, the quiet run returns the same counts and ends with the same
    disk, the same directories recorded and the same files created, and
    it prints the error lines of the verbose run and nothing else. *)
Theorem quiet_run_same_effects (files_dict : gmap text text) (base_dir : text)
    (disk0 : fs) n_dirs n_files st :
  create_project_structure files_dict base_dir true disk0
    = Some (n_dirs, n_files, st) →
  ∃ st', create_project_structure files_dict base_dir false disk0
         = Some (n_dirs, n_files, st')
    ∧ disk st' = disk st
    ∧ dirs_created st' = dirs_created st
    ∧ files_created st' = files_created st
    ∧ stdout st' = (λ pe, ErrorCreating pe.1 pe.2) <$> error_log (stdout st).
Proof.
  intros Hrun%create_project_structure_quiet. exists (errors_only st).
  do 4 (split; [done|]). apply errors_only_stdout.
Qed.

Lemma make_parent_verbose base d st x :
  make_parent base false d (errors_only st) = Some x →
  is_Some (relative_to d base) →
  ∃ st', make_parent base true d st = Some st' ∧ errors_only st' = x.
Proof.
  unfold make_parent. cbn [dirs_created disk errors_only]. intros H [rel Hrel].
  case_decide.
  - destruct (mkdir (disk st) d) as [disk'|]; [|done].
    cbn [mbind option_bind] in *. rewrite Hrel. cbn [mbind option_bind].
    eexists. split; [done|]. injection H as <-. unfold errors_only.
    cbn [disk dirs_created files_created stdout].
    by rewrite List.filter_app, app_nil_r.
  - exists st. split; [done|]. by injection H as <-.
Qed.

Lemma process_entries_verbose base es st x :
  Forall (λ k, is_Some (relative_to (parent_of base k) base)) es.*1 →
  process_entries base false es (errors_only st) = Some x →
  ∃ st', process_entries base true es st = Some st' ∧ errors_only st' = x.
Proof.
  revert st. induction es as [|[k v] es IH]; intros st Hkeys.
  - intros [= <-]. by exists st.
  - apply Forall_cons in Hkeys as [Hk Hkeys].
    cbn [process_entries process_entry].
    destruct (make_parent base false _ (errors_only st)) as [x1|] eqn:Hmk; [|done].
    destruct (make_parent_verbose _ _ _ _ Hmk Hk) as (st1 & Hmk1 & <-).
    rewrite Hmk1. cbn [mbind option_bind].
    rewrite write_entry_quiet. by apply IH.
Qed.

(** X12: for keys as the Extractor produces them (ending in a dot and an
    extension) that do not start with a slash, the verbose run returns
    whenever the quiet run does, with the same counts and the same final
    disk: printing the directory lines never fails. *)
Theorem verbose_run_of_relative_keys (files_dict : gmap text text)
    (base_dir : text) (disk0 : fs) n_dirs n_files st' :
  (∀ k, k ∈ dom files_dict →
     Str.startswith k (txt "/") = false
     ∧ ∃ u e, e ∈ extensions ∧ k = u ++ "."%char :: txt e) →
  create_project_structure files_dict base_dir false disk0
    = Some (n_dirs, n_files, st') →
  ∃ st, create_project_structure files_dict base_dir true disk0
        = Some (n_dirs, n_files, st)
    ∧ disk st = disk st' ∧ files_created st = files_created st'.
Proof.
  intros Hkeys. unfold create_project_structure.
  destruct (mkdir disk0 (parse base_dir)) as [disk1|]; [|done].
  cbn [mbind option_bind].
  destruct (process_entries _ false _ _) as [x|] eqn:Hrun; [|done].
  intros [= <- <- <-].
  change (State disk1 ∅ [] [])
    with (errors_only (State (fs:=fs) disk1 ∅ [] [])) in Hrun.
  apply process_entries_verbose in Hrun as (st & -> & <-).
  { cbn [mbind option_bind]. by exists st. }
  apply Forall_forall. intros k Hk%sorted_items_keys.
  destruct (Hkeys k Hk) as (Hrel & u & e & He & Hshape).
  destruct (key_parts k u e He Hshape Hrel). by apply parent_of_relative.
Qed.

End Generic.

Lemma every_entry_accounted_witness :
  files_created locked_run ++ (error_log (stdout locked_run)).*1
    ≡ₚ (map_to_list mixed).*1
  ∧ 1 + length (error_log (stdout locked_run)) = size mixed.
Proof.
  apply (every_entry_accounted mixed (txt "out") true locked_disk 1 1 locked_run).
  apply default_snd. vm_compute. reflexivity.
Defined.

Lemma entries_in_sorted_order_witness :
  attempts (stdout first_run) ≡ₚ (map_to_list two_files).*1
  ∧ StronglySorted (λ k1 k2, Str.le k1 k2 = true) (attempts (stdout first_run))
  ∧ files_created first_run `sublist_of` attempts (stdout first_run).
Proof.
  apply (entries_in_sorted_order two_files (txt "out") empty_disk 1 2 first_run).
  apply default_snd. vm_compute. reflexivity.
Defined.

Lemma quiet_run_same_effects_witness :
  ∃ st', create_project_structure mixed (txt "out") false locked_disk
         = Some (1, 1, st')
    ∧ disk st' = disk locked_run
    ∧ dirs_created st' = dirs_created locked_run
    ∧ files_created st' = files_created locked_run
    ∧ stdout st'
      = (λ pe, ErrorCreating pe.1 pe.2) <$> error_log (stdout locked_run).
Proof.
  apply (quiet_run_same_effects mixed (txt "out") locked_disk 1 1 locked_run).
  apply default_snd. vm_compute. reflexivity.
Defined.

Lemma verbose_run_of_relative_keys_witness :
  ∃ st, create_project_structure single_file (txt "fresh") true empty_disk
        = Some (1, 1, st)
    ∧ disk st = disk fresh_quiet_run
    ∧ files_created st = files_created fresh_quiet_run.
Proof.
  apply (verbose_run_of_relative_keys single_file (txt "fresh") empty_disk 1 1
           fresh_quiet_run).
  - intros k Hk. unfold single_file in Hk.
    rewrite dom_singleton_L in Hk. apply elem_of_singleton in Hk as ->.
    split; [reflexivity|]. exists (txt "a/b/c"), "txt"%string.
    split; [|reflexivity]. apply (bool_decide_unpack _). vm_compute. reflexivity.
  - apply default_snd. vm_compute. reflexivity.
Defined.

(** *** What a run leaves on the in-memory disk *)

Lemma mkdir1_nodes d q d' p n :
  mkdir1 d q = Some d' → nodes d !! p = Some n → nodes d' !! p = Some n.
Proof.
  intros [_ [->|(Hq & _ & ->)]]%mkdir1_Some Hp; [done|]. cbn [nodes].
  rewrite lookup_insert_ne; [done|]. intros ->. congruence.
Qed.

Lemma mkdir_chain_nodes d qs d' p n :
  mkdir_chain d qs = Some d' → nodes d !! p = Some n → nodes d' !! p = Some n.
Proof.
  revert d. induction qs as [|q qs IH]; intros d; simpl.
  - by intros [= <-].
  - destruct (mkdir1 d q) as [d1|] eqn:H1; [|done]. simpl.
    intros Hc Hp. apply (IH _ Hc). by eapply mkdir1_nodes.
Qed.

Lemma make_parent_nodes base verbose d (st st1 : state memfs) p n :
  make_parent base verbose d st = Some st1 →
  nodes (disk st) !! p = Some n → nodes (disk st1) !! p = Some n.
Proof.
  unfold make_parent. case_decide; [|by intros [= <-]].
  destruct (mkdir (disk st) d) as [disk'|] eqn:Hmk; [|done].
  cbn [mbind option_bind]. intros Hst Hp.
  assert (disk st1 = disk') as ->.
  { destruct verbose; [|by injection Hst as <-].
    destruct (relative_to d base); [|done]. by injection Hst as <-. }
  by apply (mkdir_chain_nodes _ _ _ _ _ Hmk).
Qed.

Lemma write_entry_nodes verbose full file_path content (st : state memfs) p :
  p ≠ full →
  nodes (disk (write_entry verbose full file_path content st)) !! p
  = nodes (disk st) !! p.
Proof.
  intros Hne. unfold write_entry.
  destruct (write_text (disk st) full content) as [d'|e d'] eqn:Hw; cbn [disk].
  - apply mem_write_Written in Hw as (_ & _ & _ & ->). cbn [nodes].
    by rewrite lookup_insert_ne.
  - by apply mem_write_Failed in Hw as ->.
Qed.

Lemma process_entries_nodes base verbose es (st st' : state memfs) p n :
  process_entries base verbose es st = Some st' →
  (∀ k, k ∈ es.*1 → joinpath base (parse k) ≠ p) →
  nodes (disk st) !! p = Some n → nodes (disk st') !! p = Some n.
Proof.
  revert st. induction es as [|[k v] es IH]; intros st.
  - by intros [= <-].
  - cbn [process_entries process_entry].
    destruct (make_parent base verbose _ st) as [st1|] eqn:Hmk; [|done].
    cbn [mbind option_bind]. intros Hrun Hkeys Hp. apply (IH _ Hrun).
    + intros k' Hk'. apply Hkeys. by apply list_elem_of_further.
    + rewrite write_entry_nodes.
      * by eapply make_parent_nodes.
      * intros ->. by apply (Hkeys k); [apply list_elem_of_here|].
Qed.

Lemma process_entries_files {fs} {FS : FileSystem fs} base verbose es
    (st st' : state fs) k :
  process_entries base verbose es st = Some st' →
  k ∈ files_created st' → k ∈ files_created st ∨ k ∈ es.*1.
Proof.
  revert st. induction es as [|[k0 v0] es IH]; intros st.
  - intros [= <-]. by left.
  - cbn [process_entries process_entry].
    destruct (make_parent base verbose _ st) as [st1|] eqn:Hmk; [|done].
    cbn [mbind option_bind].
    intros Hrun [Hin|Hin]%(IH _ Hrun); [|right; by apply list_elem_of_further].
    unfold write_entry in Hin. rewrite (make_parent_files _ _ _ _ _ Hmk) in *.
    destruct (write_text _ _ _); cbn [files_created] in Hin; [|by left].
    apply elem_of_app in Hin as [Hin|Hin%list_elem_of_singleton]; [by left|].
    right. subst. apply list_elem_of_here.
Qed.

Lemma process_entries_content base verbose es (st st' : state memfs) k v :
  NoDup es.*1 → (k, v) ∈ es →
  (∀ k', k' ∈ es.*1 →
     joinpath base (parse k') = joinpath base (parse k) → k' = k) →
  k ∉ files_created st →
  process_entries base verbose es st = Some st' →
  k ∈ files_created st' →
  nodes (disk st') !! joinpath base (parse k) = Some (File v)
  ∧ parts (joinpath base (parse k)) ≠ [].
Proof.
  revert st. induction es as [|[k0 v0] es IH]; intros st Hnd Hkv Huniq Hnew.
  { by apply elem_of_nil in Hkv. }
  rewrite fmap_cons in Hnd. apply NoDup_cons in Hnd as [Hk0 Hnd].
  cbn [fst] in Hk0. cbn [process_entries process_entry].
  destruct (make_parent base verbose _ st) as [st1|] eqn:Hmk; [|done].
  cbn [mbind option_bind]. intros Hrun Hin.
  assert (∀ k', k' ∈ es.*1 →
            joinpath base (parse k') = joinpath base (parse k) → k' = k)
    as Huniq' by (intros k' Hk'; apply Huniq; by apply list_elem_of_further).
  apply elem_of_cons in Hkv as [[= <- <-]|Hkv].
  - unfold write_entry in Hrun.
    destruct (write_text (disk st1) (joinpath base (parse k)) v)
      as [d'|e d'] eqn:Hw.
    + apply mem_write_Written in Hw as (Hdir & _ & _ & ->). split.
      * apply (process_entries_nodes _ _ _ _ _ _ _ Hrun).
        -- intros k' Hk' Heq. apply Hk0. by rewrite <- (Huniq' k' Hk' Heq).
        -- cbn [disk nodes]. apply lookup_insert_eq.
      * intros Hparts. unfold is_dir in Hdir. by rewrite Hparts in Hdir.
    + apply (process_entries_files _ _ _ _ _ _ Hrun) in Hin as [Hin|Hin];
        [|done]. cbn [files_created] in Hin.
      by rewrite (make_parent_files _ _ _ _ _ Hmk) in Hin.
  - assert (k ≠ k0) as Hne.
    { intros ->. apply Hk0, list_elem_of_fmap. by exists (k0, v). }
    refine (IH _ Hnd Hkv Huniq' _ Hrun Hin).
    unfold write_entry. rewrite <- (make_parent_files _ _ _ _ _ Hmk) in Hnew.
    destruct (write_text _ _ _); cbn [files_created]; [|done].
    intros [?|?%list_elem_of_singleton]%elem_of_app; done.
Qed.



Lemma create_content (files_dict : gmap text text) (base_dir : text)
    (verbose : bool) (disk0 : memfs) n_dirs n_files st (k v : text) :
  create_project_structure files_dict base_dir verbose disk0
    = Some (n_dirs, n_files, st) →
  files_dict !! k = Some v →
  k ∈ files_created st →
  (∀ k', k' ∈ dom files_dict →
     joinpath (parse base_dir) (parse k') = joinpath (parse base_dir) (parse k) →
     k' = k) →
  nodes (disk st) !! joinpath (parse base_dir) (parse k) = Some (File v)
  ∧ parts (joinpath (parse base_dir) (parse k)) ≠ [].
Proof.
  unfold create_project_structure.
  destruct (mkdir disk0 (parse base_dir)) as [disk1|] eqn:Hmk; [|done].
  cbn [mbind option_bind].
  destruct (process_entries _ _ _ _) as [st1|] eqn:Hloop; [|done].
  intros [= <- <- <-] Hkv Hin Huniq.
  apply (process_entries_content (parse base_dir) verbose
           (sorted_items files_dict) (State disk1 ∅ [] []) st1 k v);
    try done.
  - unfold sorted_items. rewrite merge_sort_Permutation.
    apply NoDup_fst_map_to_list.
  - unfold sorted_items. rewrite merge_sort_Permutation.
    by apply elem_of_map_to_list.
  - intros k' Hk'%sorted_items_keys. by apply Huniq.
  - apply not_elem_of_nil.
Qed.

(** Reading a file back through the text of its path. *)
Lemma read_back (d : memfs) (p : path) (content : text) :
  wf p → parts p ≠ [] → nodes d !! p = Some (File content) →
  read_text d (to_str p) = inl content.
Proof.
  intros Hwf Hparts Hnode. cbn [read_text memfs_reader].
  rewrite parse_to_str by done. rewrite Hnode. by destruct (parts p).
Qed.



(** *** Runs that nothing gets in the way of *)

Lemma ancestors_prefix q p :
  q ∈ ancestors p →
  anchor_of q = anchor_of p ∧ parts q `prefix_of` parts p.
Proof.
  unfold ancestors. intros (n & -> & _)%list_elem_of_fmap. split; [done|].
  apply prefix_take.
Qed.

Lemma mkdir1_tidy dirs files d q :
  tidy dirs files d → dirs q → ¬ files q →
  ∃ d', mkdir1 d q = Some d' ∧ tidy dirs files d'.
Proof.
  intros [Hden Hn] Hq Hfile. unfold mkdir1.
  destruct (is_dir d q) eqn:Hdir; [by exists d|].
  destruct (nodes d !! q) as [[|c]|] eqn:Hnode.
  - unfold is_dir in Hdir. rewrite Hnode in Hdir. by destruct (parts q).
  - destruct Hfile. apply (Hn q (File c) Hnode).
  - rewrite Hden. rewrite bool_decide_eq_false_2 by set_solver.
    eexists. split; [done|]. split; [done|]. cbn [nodes]. intros q' n.
    destruct (decide (q' = q)) as [->|Hne].
    + rewrite lookup_insert_eq. by intros [= <-].
    + rewrite lookup_insert_ne by done. apply Hn.
Qed.

Lemma mem_mkdir_tidy dirs files d p :
  tidy dirs files d →
  (∀ q, q ∈ ancestors p → dirs q ∧ ¬ files q) →
  ∃ d', mem_mkdir d p = Some d' ∧ tidy dirs files d'.
Proof.
  intros Ht Hp. unfold mem_mkdir. revert d Ht.
  induction (ancestors p) as [|q qs IH]; intros d Ht; [by exists d|].
  destruct (Hp q) as [Hq Hfile]; [apply list_elem_of_here|].
  destruct (mkdir1_tidy _ _ _ _ Ht Hq Hfile) as (d1 & H1 & Ht1).
  cbn [mkdir_chain]. rewrite H1. cbn [mbind option_bind]. apply IH; [|done].
  intros q' Hq'. apply Hp. by apply list_elem_of_further.
Qed.

Lemma mem_write_tidy dirs files d p content :
  tidy dirs files d → is_dir d (parent p) = true → parts p ≠ [] →
  ¬ dirs p → files p →
  ∃ d', mem_write d p content = Written d' ∧ tidy dirs files d'.
Proof.
  intros [Hden Hn] Hpar Hparts Hdir Hfile. unfold mem_write.
  assert (is_dir d p = false) as ->.
  { unfold is_dir. destruct (parts p); [done|].
    destruct (nodes d !! p) as [[|c]|] eqn:Hnode; [|done|done].
    destruct Hdir. apply (Hn p Dir Hnode). }
  rewrite Hpar, Hden. cbn [negb]. rewrite bool_decide_eq_false_2 by set_solver.
  eexists. split; [done|]. split; [done|]. cbn [nodes]. intros q n.
  destruct (decide (q = p)) as [->|Hne].
  - rewrite lookup_insert_eq. by intros [= <-].
  - rewrite lookup_insert_ne by done. apply Hn.
Qed.

Lemma full_path_relative base k :
  anchor_of (parse k) = Relative →
  joinpath base (parse k) = Path (anchor_of base) (parts base ++ parts (parse k)).
Proof. intros Ha. unfold joinpath. by rewrite Ha. Qed.

Lemma parent_of_relative_parts base k :
  anchor_of (parse k) = Relative → parts (parse k) ≠ [] →
  parent_of base k
  = Path (anchor_of base) (parts base ++ removelast (parts (parse k))).
Proof.
  intros Ha Hp. unfold parent_of, parent. rewrite full_path_relative by done.
  cbn [anchor_of parts]. by rewrite removelast_app.
Qed.

Lemma full_not_ancestor_of_parent base k1 k2 :
  anchor_of (parse k1) = Relative →
  anchor_of (parse k2) = Relative → parts (parse k2) ≠ [] →
  ¬ parts (parse k1) `prefix_of` removelast (parts (parse k2)) →
  joinpath base (parse k1) ∉ ancestors (parent_of base k2).
Proof.
  intros Ha1 Ha2 Hp2 Hfree [_ Hpre]%ancestors_prefix.
  rewrite full_path_relative, parent_of_relative_parts in Hpre by done.
  cbn [parts] in Hpre. by apply prefix_app_inv in Hpre.
Qed.

Lemma full_not_ancestor_of_base base k :
  anchor_of (parse k) = Relative → parts (parse k) ≠ [] →
  joinpath base (parse k) ∉ ancestors base.
Proof.
  intros Ha Hp [_ Hpre]%ancestors_prefix.
  rewrite full_path_relative in Hpre by done. cbn [parts] in Hpre.
  apply prefix_length in Hpre. rewrite length_app in Hpre.
  destruct (parts (parse k)); [done|simpl in Hpre; lia].
Qed.

Section Clear.
Context (disk0 : memfs) (base : path) (keys : list text).
Hypothesis base_wf : wf base.
Hypothesis files_aside : ∀ q content,
  nodes disk0 !! q = Some (File content) →
  (q ∉ ancestors base) ∧ ∀ k, k ∈ keys → q ∉ ancestors (parent_of base k).
Hypothesis targets_free : ∀ k,
  k ∈ keys → nodes disk0 !! joinpath base (parse k) ≠ Some Dir.
Hypothesis keys_relative : ∀ k,
  k ∈ keys → anchor_of (parse k) = Relative ∧ parts (parse k) ≠ [].
Hypothesis keys_apart : ∀ k1 k2,
  k1 ∈ keys → k2 ∈ keys →
  ¬ parts (parse k1) `prefix_of` removelast (parts (parse k2)).

Lemma base_makable q :
  q ∈ ancestors base →
  run_dirs disk0 base keys q ∧ ¬ run_files disk0 base keys q.
Proof.
  intros Hq. split; [right; by left|].
  intros [[c Hc]|(k & Hk & ->)].
  - by destruct (files_aside q c Hc) as [? _].
  - destruct (keys_relative k Hk). by apply (full_not_ancestor_of_base base k).
Qed.

Lemma parent_makable k q :
  k ∈ keys → q ∈ ancestors (parent_of base k) →
  run_dirs disk0 base keys q ∧ ¬ run_files disk0 base keys q.
Proof.
  intros Hk Hq. split; [right; right; by exists k|].
  intros [[c Hc]|(k1 & Hk1 & ->)].
  - destruct (files_aside q c Hc) as [_ Hfree]. by apply (Hfree k).
  - destruct (keys_relative k Hk), (keys_relative k1 Hk1). revert Hq.
    apply full_not_ancestor_of_parent; [done|done|done|]. by apply keys_apart.
Qed.

Lemma target_writable k :
  k ∈ keys →
  parts (joinpath base (parse k)) ≠ []
  ∧ ¬ run_dirs disk0 base keys (joinpath base (parse k))
  ∧ run_files disk0 base keys (joinpath base (parse k)).
Proof.
  intros Hk. destruct (keys_relative k Hk) as [Ha Hp]. split; [|split].
  - rewrite full_path_relative by done. cbn [parts].
    by destruct (parts base), (parts (parse k)).
  - intros [Hdir|[Hanc|(k2 & Hk2 & Hanc)]].
    + by apply (targets_free k).
    + by apply (full_not_ancestor_of_base base k).
    + destruct (keys_relative k2 Hk2). revert Hanc.
      apply full_not_ancestor_of_parent; [done|done|done|]. by apply keys_apart.
  - right. by exists k.
Qed.

Lemma process_entries_succeeds verbose es (st : state memfs) :
  loop_inv base st →
  tidy (run_dirs disk0 base keys) (run_files disk0 base keys) (disk st) →
  es.*1 ⊆ keys →
  ∃ st', process_entries base verbose es st = Some st'
    ∧ files_created st' = files_created st ++ es.*1
    ∧ error_log (stdout st') = error_log (stdout st).
Proof.
  revert st. induction es as [|[k v] es IH]; intros st Hinv Htidy Hsub.
  { exists st. by rewrite app_nil_r. }
  assert (k ∈ keys) as Hk by (apply Hsub, list_elem_of_here).
  destruct (keys_relative k Hk) as [Ha Hp].
  cbn [process_entries process_entry]. fold (parent_of base k).
  assert (∃ st1, make_parent base verbose (parent_of base k) st = Some st1
            ∧ tidy (run_dirs disk0 base keys) (run_files disk0 base keys)
                (disk st1)) as (st1 & Hmk & Htidy1).
  { unfold make_parent. case_decide; [|by exists st].
    destruct (mem_mkdir_tidy _ _ (disk st) (parent_of base k) Htidy)
      as (d' & Hd' & Ht'); [intros q Hq; by apply (parent_makable k)|].
    change (mkdir (disk st) (parent_of base k)) with
      (mem_mkdir (disk st) (parent_of base k)).
    rewrite Hd'. cbn [mbind option_bind].
    destruct (parent_of_relative base k Ha Hp) as [rel ->].
    cbn [mbind option_bind]. destruct verbose; by eexists. }
  rewrite Hmk. cbn [mbind option_bind].
  destruct (make_parent_mem _ _ _ _ _ (parent_of_wf base k base_wf) Hinv Hmk)
    as (Hinv1 & _ & Hdir).
  destruct (target_writable k Hk) as (Hparts & Hnodir & Hfile).
  destruct (mem_write_tidy _ _ (disk st1) (joinpath base (parse k)) v Htidy1)
    as (d2 & Hw & Htidy2); [done|done|done|done|].
  pose proof (write_entry_mem base verbose (joinpath base (parse k)) k v st1
                Hinv1) as Hinv2.
  assert (write_entry verbose (joinpath base (parse k)) k v st1
          = State d2 (dirs_created st1) (files_created st1 ++ [k])
              (stdout st1 ++ if verbose then [CreatedFile k] else [])) as Hwe.
  { unfold write_entry.
    change (write_text (disk st1) (joinpath base (parse k)) v)
      with (mem_write (disk st1) (joinpath base (parse k)) v).
    by rewrite Hw. }
  rewrite Hwe in *.
  destruct (IH _ Hinv2 Htidy2) as (st' & Hrun & Hfiles & Herr).
  { intros k' Hk'. apply Hsub. by apply list_elem_of_further. }
  exists st'. split; [done|]. rewrite Hfiles, Herr. cbn [files_created stdout].
  rewrite (make_parent_files _ _ _ _ _ Hmk), <- app_assoc. split; [done|].
  rewrite <- (make_parent_errors _ _ _ _ _ Hmk). unfold error_log.
  rewrite omap_app. by destruct verbose; rewrite app_nil_r.
Qed.

End Clear.

Lemma create_succeeds (files_dict : gmap text text) (base_dir : text)
    (verbose : bool) (disk0 : memfs) :
  let base := parse base_dir in
  denied disk0 = ∅ →
  (∀ q content, nodes disk0 !! q = Some (File content) →
     (q ∉ ancestors base)
     ∧ ∀ k, k ∈ dom files_dict → q ∉ ancestors (parent_of base k)) →
  (∀ k, k ∈ dom files_dict →
     nodes disk0 !! joinpath base (parse k) ≠ Some Dir) →
  (∀ k, k ∈ dom files_dict →
     Str.startswith k (txt "/") = false
     ∧ ∃ u e, e ∈ extensions ∧ k = u ++ "."%char :: txt e) →
  (∀ k1 k2, k1 ∈ dom files_dict → k2 ∈ dom files_dict →
     ¬ parts (parse k1) `prefix_of` removelast (parts (parse k2))) →
  ∃ n_dirs st,
    create_project_structure files_dict base_dir verbose disk0
    = Some (n_dirs, size files_dict, st)
    ∧ files_created st = (sorted_items files_dict).*1
    ∧ error_log (stdout st) = [].
Proof.
  intros base Hden Hfiles Htargets Hkeys Hfree.
  set (keys := (sorted_items files_dict).*1).
  assert (wf base) as Hbase by apply parse_wf.
  assert (∀ k, k ∈ keys → k ∈ dom files_dict) as Hdom
    by (intros k; apply sorted_items_keys).
  assert (∀ k, k ∈ keys → anchor_of (parse k) = Relative ∧ parts (parse k) ≠ [])
    as Hrel.
  { intros k Hk%Hdom. destruct (Hkeys k Hk) as (Hrel & u & e & He & Hshape).
    by apply (key_parts k u e). }
  assert (∀ q content, nodes disk0 !! q = Some (File content) →
            (q ∉ ancestors base)
            ∧ ∀ k, k ∈ keys → q ∉ ancestors (parent_of base k)) as Haside.
  { intros q c Hq. destruct (Hfiles q c Hq) as [H1 H2]. split; [done|].
    intros k Hk%Hdom. by apply H2. }
  assert (tidy (run_dirs disk0 base keys) (run_files disk0 base keys) disk0)
    as Htidy.
  { split; [done|]. intros q [|c] Hq; [by left|left; by exists c]. }
  destruct (mem_mkdir_tidy _ _ disk0 base Htidy) as (disk1 & Hmk & Htidy1).
  { intros q Hq. apply base_makable; [done|done|done]. }
  destruct (process_entries_succeeds disk0 base keys Hbase Haside
              (λ k Hk, Htargets k (Hdom k Hk)) Hrel
              (λ k1 k2 H1 H2, Hfree k1 k2 (Hdom k1 H1) (Hdom k2 H2))
              verbose (sorted_items files_dict) (State disk1 ∅ [] []))
    as (st & Hrun & Hcreated & Herr).
  - split; [by apply (mem_mkdir_is_dir disk0)|].
    intros d _ Hd. by apply elem_of_empty in Hd.
  - done.
  - done.
  - exists (size (dirs_created st)), st. unfold create_project_structure.
    fold base. change (mkdir disk0 base) with (mem_mkdir disk0 base).
    rewrite Hmk. cbn [mbind option_bind]. rewrite Hrun. cbn [mbind option_bind].
    cbn [files_created app] in Hcreated. cbn [stdout] in Herr.
    rewrite Hcreated, length_fmap, sorted_items_length. done.
Qed.

Lemma joinpath_relative_inj base k1 k2 :
  anchor_of (parse k1) = Relative → anchor_of (parse k2) = Relative →
  joinpath base (parse k1) = joinpath base (parse k2) → parse k1 = parse k2.
Proof.
  intros H1 H2. rewrite !full_path_relative by done.
  intros [= Heq%app_inv_head]. destruct (parse k1), (parse k2).
  cbn in *. by subst.
Qed.



End MaterializerMore.

(** * Properties of the driver *)
Module DriverSpec.
Import Re Extractor ExtractorSpec PurePath Os Materializer Examples.
Import PathFacts OsFacts MaterializerSpec.
Import Report Tidy Driver MoreExamples StrMore ReMore ExtractorMore MaterializerMore.

(** Sorting the keys gives the keys of the sorted items. *)
Lemma sorted_keys (files_dict : gmap text text) :
  merge_sort (λ k1 k2 : text, Str.le k1 k2) (map_to_list files_dict).*1
  = (sorted_items files_dict).*1.
Proof.
  apply (StronglySorted_unique (λ k1 k2 : text, Is_true (Str.le k1 k2))).
  - apply (StronglySorted_merge_sort _).
  - eapply StronglySorted_fmap; [|apply (StronglySorted_merge_sort _)].
    by intros x y H.
  - rewrite merge_sort_Permutation. unfold sorted_items.
    by rewrite merge_sort_Permutation.
Qed.

Section Generic.
Context {fs : Type} `{!FileSystem fs, !Reader fs}.

Lemma fold_read_file (disk0 : fs) files acc :
  (fold_left (read_file disk0) files acc).1
  = acc.1 ++ concat ((λ content, nl :: nl :: content) <$> readable disk0 files).
Proof.
  revert acc. induction files as [|f files IH]; intros [c o].
  - unfold readable. cbn [fold_left omap list_omap fmap list_fmap concat fst].
    by rewrite app_nil_r.
  - cbn [fold_left]. rewrite IH. unfold readable, read_file.
    cbn [omap list_omap].
    destruct (read_text disk0 f) as [content|e]; [|done].
    cbn [fst fmap list_fmap concat]. by rewrite <- app_assoc.
Qed.

Lemma fold_read_file_loud (disk0 : fs) files acc :
  Forall (λ m, loud m = true) acc.2 →
  Forall (λ m, loud m = true) (fold_left (read_file disk0) files acc).2.
Proof.
  revert acc. induction files as [|f files IH]; intros [c o] Ho; [done|].
  cbn [fold_left]. apply IH. unfold read_file.
  destruct (read_text disk0 f); cbn [snd] in *;
    (apply Forall_app; split; [done|by constructor]).
Qed.

Lemma analyze_markdown_files (disk0 : fs) files :
  (analyze_markdown disk0 files).1
  = extract_files_from_markdown
      (concat ((λ content, nl :: nl :: content) <$> readable disk0 files)).
Proof.
  unfold analyze_markdown.
  pose proof (fold_read_file disk0 files ([], [])) as H.
  destruct (fold_left _ _ _) as [c o]. cbn [fst] in *. by rewrite H.
Qed.

Lemma analyze_markdown_loud (disk0 : fs) files :
  Forall (λ m, loud m = true) (analyze_markdown disk0 files).2.
Proof.
  unfold analyze_markdown.
  pose proof (fold_read_file_loud disk0 files ([], []) ltac:(constructor)) as H.
  by destruct (fold_left _ _ _) as [c o].
Qed.

Lemma fold_read_file_progress (disk0 : fs) files acc :
  progress acc.2 = [] → progress (fold_left (read_file disk0) files acc).2 = [].
Proof.
  revert acc. induction files as [|f files IH]; intros [c o] Ho; [done|].
  cbn [fold_left]. apply IH. unfold read_file, progress in *.
  destruct (read_text disk0 f); cbn [snd] in *; by rewrite omap_app, Ho.
Qed.

Lemma analyze_markdown_progress (disk0 : fs) files :
  progress (analyze_markdown disk0 files).2 = [].
Proof.
  unfold analyze_markdown.
  pose proof (fold_read_file_progress disk0 files ([], []) eq_refl) as H.
  by destruct (fold_left _ _ _) as [c o].
Qed.

Lemma progress_lines (out : list line) : progress (Progress <$> out) = out.
Proof.
  unfold progress. induction out as [|l out IH]; [done|]. cbn. by f_equal.
Qed.

(** X16: when exactly one of the input files can be read, the mapping is
    the one extracted from its content: the files that cannot be read are
    skipped, and the separator put before the content changes
    nothing. *)
Theorem analyze_single_readable (disk0 : fs) (files : list text)
    (content : text) :
  readable disk0 files = [content] →
  (analyze_markdown disk0 files).1 = extract_files_from_markdown content.
Proof.
  intros Hr. rewrite analyze_markdown_files, Hr.
  cbn [fmap list_fmap concat]. rewrite app_nil_r.
  change (nl :: nl :: content) with ([nl; nl] ++ content).
  unfold extract_files_from_markdown. cbn [fold_left].
  by rewrite findall_bold_prefix,
    findall_heading_prefix, findall_span_prefix
    by (apply (bool_decide_unpack _); by vm_compute).
Qed.

(** X17: when no input file that can be read holds a fence marker (so
    also when none can be read), [main] reports that no files were found
    and returns 1 without touching the disk, whatever the options. *)
Theorem main_without_fences (a : args) (disk0 : fs) :
  (∀ content, content ∈ readable disk0 (markdown_files a) →
     Str.contains (txt "```") content = false) →
  ∃ out, main a disk0 = Some (1, out, disk0) ∧ last out = Some NoFilesFound.
Proof.
  intros Hfree. unfold main.
  pose proof (analyze_markdown_files disk0 (markdown_files a)) as Hfiles.
  destruct (analyze_markdown disk0 (markdown_files a)) as [files_dict read_log].
  cbn [fst] in Hfiles. rewrite decide_True.
  - eexists. split; [done|]. by rewrite app_assoc, last_snoc.
  - rewrite Hfiles. apply no_fence_no_files, combined_no_fence.
    by apply Forall_forall.
Qed.

(** X18: [-q] changes the output only.  When [main] returns without
    [-q], it returns with [-q] too, with the same exit code and the same
    disk, and prints the same lines except the banner, the list of files
    to be created and the progress lines that report no error. *)
Theorem main_quiet_same_effects (files : list text) (output : text)
    (dry_run : bool) (disk0 : fs) (r : nat * list message * fs) :
  main (Args files output dry_run false) disk0 = Some r →
  main (Args files output dry_run true) disk0
  = Some (r.1.1, List.filter loud r.1.2, r.2).
Proof.
  unfold main. cbn [quiet markdown_files negb Driver.output Driver.dry_run].
  pose proof (analyze_markdown_loud disk0 files) as Hloud.
  destruct (analyze_markdown disk0 files) as [files_dict read_log].
  cbn [snd] in Hloud.
  assert (List.filter loud read_log = read_log) as Hlog.
  { induction Hloud as [|m l Hm _ IH]; [done|]. cbn. by rewrite Hm, IH. }
  case_decide.
  { intros [= <-]. cbn [fst snd app List.filter loud].
    by rewrite List.filter_app, Hlog. }
  destruct dry_run.
  { intros [= <-]. cbn [fst snd app List.filter loud].
    by rewrite List.filter_app, List.filter_app, Hlog. }
  destruct (create_project_structure files_dict output true disk0)
    as [[[n_dirs n_files] st]|] eqn:Hrun; [|done].
  rewrite (create_project_structure_quiet _ _ _ _ _ _ Hrun).
  cbn [mbind option_bind]. intros [= <-]. cbn [fst snd app List.filter loud].
  rewrite List.filter_app, List.filter_app, Hlog. cbn [List.filter loud app].
  rewrite List.filter_app. cbn [List.filter loud app].
  do 5 f_equal. cbn [stdout errors_only].
  induction (stdout st) as [|l out IH]; [done|]. cbn.
  destruct (is_error l); cbn; by rewrite IH.
Qed.

(** X19: the dry run previews the run.  When [main] without options
    returns 0, [main] with [--dry-run] returns 0 as well and leaves the
    disk as it is, and the list of files it prints holds the paths of the
    file and error lines of the run, in the same order. *)
Theorem dry_run_preview (files : list text) (output : text) (disk0 : fs)
    (r : nat * list message * fs) :
  main (Args files output false false) disk0 = Some r →
  r.1.1 = 0 →
  ∃ out, main (Args files output true false) disk0 = Some (0, out, disk0)
    ∧ FilesToBeCreated (attempts (progress r.1.2)) ∈ out
    ∧ last out = Some DryRun.
Proof.
  unfold main. cbn [quiet markdown_files negb Driver.output Driver.dry_run].
  pose proof (analyze_markdown_progress disk0 files) as Hlog.
  destruct (analyze_markdown disk0 files) as [files_dict read_log].
  cbn [snd] in Hlog. case_decide; [by intros [= <-]|].
  destruct (create_project_structure files_dict output true disk0)
    as [[[n_dirs n_files] st]|] eqn:Hrun; [|done].
  cbn [mbind option_bind]. intros [= <-] _. cbn [fst snd].
  eexists. split; [done|]. split; [|by rewrite last_snoc].
  match goal with
  | |- FilesToBeCreated (attempts (progress ?o)) ∈ _ =>
      assert (progress o = stdout st) as ->
  end.
  { unfold progress in *. cbn [omap list_omap].
    rewrite !omap_app, Hlog. cbn [omap list_omap app].
    rewrite omap_app. cbn [omap list_omap]. rewrite app_nil_r.
    apply progress_lines. }
  rewrite (create_attempts _ _ _ _ _ _ Hrun), <- sorted_keys.
  apply elem_of_app. left. apply elem_of_app. right. apply elem_of_app. right.
  apply list_elem_of_further, list_elem_of_here.
Qed.

End Generic.

Lemma analyze_single_readable_witness :
  (analyze_markdown docs_disk [txt "missing.md"; txt "docs.md"]).1
  = extract_files_from_markdown readme.
Proof.
  apply (analyze_single_readable docs_disk [txt "missing.md"; txt "docs.md"]
           readme).
  vm_compute. reflexivity.
Defined.

Lemma main_without_fences_witness :
  ∃ out, main (Args [txt "notes.md"] (txt "out") false false) plain_disk
         = Some (1, out, plain_disk)
    ∧ last out = Some NoFilesFound.
Proof.
  apply (main_without_fences (Args [txt "notes.md"] (txt "out") false false)
           plain_disk).
  intros content Hc.
  assert (readable plain_disk [txt "notes.md"] = [txt "## notes.md"]) as Hr
    by (vm_compute; reflexivity).
  cbn [markdown_files] in Hc. rewrite Hr in Hc.
  apply list_elem_of_singleton in Hc as ->. reflexivity.
Defined.

Lemma main_quiet_same_effects_witness :
  main (docs_args false true) docs_disk
  = Some (docs_run.1.1, List.filter loud docs_run.1.2, docs_run.2).
Proof.
  apply (main_quiet_same_effects [txt "missing.md"; txt "docs.md"] (txt "out")
           false docs_disk docs_run).
  apply default_Some. vm_compute. reflexivity.
Defined.

Lemma dry_run_preview_witness :
  ∃ out, main (docs_args true false) docs_disk = Some (0, out, docs_disk)
    ∧ FilesToBeCreated (attempts (progress docs_run.1.2)) ∈ out
    ∧ last out = Some DryRun.
Proof.
  apply (dry_run_preview [txt "missing.md"; txt "docs.md"] (txt "out")
           docs_disk docs_run).
  - apply default_Some. vm_compute. reflexivity.
  - vm_compute. reflexivity.
Defined.



End DriverSpec.
